(** * app2.py: the data preparation and query engine of the dashboard

    A shallow embedding of the parts of [src/app2.py] that carry logic:
    the column detection and the industry aggregation of
    [plot_overall_interactive_chart], the ranking table, and the company
    lookup of [main].  The program is a pandas script, so the embedding
    has five layers, each in a module of its own:

    - [Py]: the Python built-ins the script calls ([str.strip], [int],
      [str] of an integer);
    - [Re]: the regular expressions behind [Series.str.contains];
    - [Np]: numpy's default (quicksort) argsort, which [sort_values] runs;
    - [Pd]: the data frame and the pandas operations used;
    - [App]: the script itself, statement by statement.

    [Page] puts the statements together into the two functions of the
    script as they run, [plot_overall_interactive_chart] and [main],
    with the values of the widgets as an argument.  [Spec] holds the
    notions of the specification the script is compared with,
    [Fixtures] a few small sheets.

    Text is modelled by [string]: one [ascii] per character, so text
    ranges over the characters below U+0100.  Column labels are opaque
    keys and are written as the source writes them.  A float64 cell is an
    exact rational ([Q]); its missing value (NaN) is a separate
    constructor. *)

From Stdlib Require Import ZArith QArith List String Ascii Bool Arith Lia.
From Stdlib Require Import Qminmax Permutation Sorted DecimalString.
From Stdlib Require DecimalFacts DecimalPos.
Import ListNotations.

Local Close Scope Q_scope.
Local Open Scope string_scope.
Local Open Scope list_scope.
Local Open Scope nat_scope.

(* ================================================================== *)
(** * Python built-ins *)

Module Py.

Definition code (c : ascii) : nat := nat_of_ascii c.

(** [str.isspace] on one character below U+0100: TAB..CR, FS..US,
    SPACE, NEL and NBSP. *)
Definition isspace (c : ascii) : bool :=
  let n := code c in
  ((9 <=? n) && (n <=? 13)) || ((28 <=? n) && (n <=? 32))
  || (n =? 133) || (n =? 160).

Fixpoint lstrip (s : string) : string :=
  match s with
  | String c s' => if isspace c then lstrip s' else s
  | EmptyString => EmptyString
  end.

Fixpoint rstrip (s : string) : string :=
  match s with
  | EmptyString => EmptyString
  | String c s' =>
      match rstrip s' with
      | EmptyString => if isspace c then EmptyString else String c EmptyString
      | r => String c r
      end
  end.

(** [s.strip()] *)
Definition strip (s : string) : string := rstrip (lstrip s).

(** [needle in hay] on strings: literal, case-sensitive containment. *)
Fixpoint contains (needle hay : string) : bool :=
  prefix needle hay
  || match hay with
     | EmptyString => false
     | String _ hay' => contains needle hay'
     end.

(** ** [int(text)] *)

Definition digit_of (c : ascii) : option Z :=
  let n := code c in
  if (48 <=? n) && (n <=? 57) then Some (Z.of_nat (n - 48)) else None.

(** The blanks [int] skips around the literal: the C locale's blanks,
    and NEL and NBSP, which the conversion turns into a space first. *)
Definition int_blank (c : ascii) : bool :=
  let n := code c in
  ((9 <=? n) && (n <=? 13)) || (n =? 32) || (n =? 133) || (n =? 160).

Fixpoint int_lskip (s : string) : string :=
  match s with
  | String c s' => if int_blank c then int_lskip s' else s
  | EmptyString => EmptyString
  end.

Fixpoint int_rskip (s : string) : string :=
  match s with
  | EmptyString => EmptyString
  | String c s' =>
      match int_rskip s' with
      | EmptyString => if int_blank c then EmptyString else String c EmptyString
      | r => String c r
      end
  end.

(** The digits of the literal, left to right: [acc] is the value read so
    far, [count] the number of digits, [sep] tells that the previous
    character may not be followed by an underscore (the start of the
    literal, or an underscore).  A literal may not end on an underscore
    and may not be empty. *)
Fixpoint digits (acc : Z) (count : nat) (sep : bool) (s : string)
  : option (Z * nat) :=
  match s with
  | EmptyString => if sep then None else Some (acc, count)
  | String c s' =>
      if Ascii.eqb c "_" then
        if sep then None else digits acc count true s'
      else
        match digit_of c with
        | Some d => digits (10 * acc + d)%Z (S count) false s'
        | None => None
        end
  end.

(** [sys.int_info.default_max_str_digits] *)
Definition max_str_digits : nat := 4300.

(** [int(s)] for a [str]: [None] stands for the [ValueError]. *)
Definition int (s : string) : option Z :=
  let s := int_rskip (int_lskip s) in
  let '(neg, body) :=
    match s with
    | String "-" r => (true, r)
    | String "+" r => (false, r)
    | _ => (false, s)
    end in
  match digits 0%Z 0 true body with
  | Some (v, n) =>
      if (max_str_digits <? n)%nat then None
      else Some (if neg then (- v)%Z else v)
  | None => None
  end.

(** [str(z)] for an integer: the canonical decimal numeral. *)
Definition str (z : Z) : string := NilZero.string_of_int (Z.to_int z).

End Py.

(* ================================================================== *)
(** * Regular expressions

    [Series.str.contains(pat)] compiles [pat] with [re.compile] and keeps
    the elements on which [regex.search] finds a match.  The module
    covers a fragment of Python's pattern syntax: literal characters,
    [.], [^], [$], the greedy quantifiers [*], [+], [?], alternation,
    plain groups, escaped punctuation and [\d].  A pattern outside the
    fragment is reported as such, never given a meaning it does not
    have. *)

Module Re.

Inductive regex : Type :=
| Eps
| Chr (c : ascii)
| Any                       (* [.]: every character but the newline *)
| Digit                     (* [\d] *)
| Bol                       (* [^]: the start of the subject *)
| Eol                       (* [$]: the end, or before a final newline *)
| Cat (a b : regex)
| Alt (a b : regex)
| Star (a : regex)
| Plus (a : regex)
| Opt (a : regex).

(** ** Matching

    [rests r n s] lists what can remain of [s] after a match of [r] at
    its head; [n] is the length of the whole subject, so the head of [s]
    is the start of the subject exactly when [s] has length [n]. *)

Definition newline : ascii := "010"%char.

Definition is_digit (c : ascii) : bool :=
  (48 <=? Py.code c) && (Py.code c <=? 57).

(** Iteration of [step]: each round has to consume a character, which
    loses no match and bounds the rounds by the length of the subject. *)
Fixpoint star (step : string -> list string) (fuel : nat) (s : string)
  : list string :=
  s :: match fuel with
       | 0 => []
       | S k =>
           flat_map (star step k)
             (filter (fun t => String.length t <? String.length s) (step s))
       end.

Fixpoint rests (r : regex) (n : nat) (s : string) : list string :=
  match r with
  | Eps => [s]
  | Chr c =>
      match s with
      | String a t => if Ascii.eqb a c then [t] else []
      | EmptyString => []
      end
  | Any =>
      match s with
      | String a t => if Ascii.eqb a newline then [] else [t]
      | EmptyString => []
      end
  | Digit =>
      match s with
      | String a t => if is_digit a then [t] else []
      | EmptyString => []
      end
  | Bol => if String.length s =? n then [s] else []
  | Eol =>
      match s with
      | EmptyString => [s]
      | String a EmptyString => if Ascii.eqb a newline then [s] else []
      | _ => []
      end
  | Cat a b => flat_map (rests b n) (rests a n s)
  | Alt a b => rests a n s ++ rests b n s
  | Star a => star (rests a n) (String.length s) s
  | Plus a =>
      flat_map (fun t => star (rests a n) (String.length t) t) (rests a n s)
  | Opt a => rests a n s ++ [s]
  end.

Fixpoint suffixes (s : string) : list string :=
  s :: match s with
       | EmptyString => []
       | String _ t => suffixes t
       end.

(** [regex.search(s) is not None] *)
Definition search (r : regex) (s : string) : bool :=
  existsb (fun t => match rests r (String.length s) t with
                    | [] => false
                    | _ :: _ => true
                    end)
          (suffixes s).

(** ** Compiling a pattern *)

Inductive compiled : Type :=
| Compiled (r : regex)
| Error                     (* [re.error] *)
| NotModelled.              (* outside the fragment *)

(** What the parser last put on the current alternative: nothing, an
    item that may be repeated, a bare [^] or [$], or a repetition. *)
Inductive last : Type := LNone | LAtom | LAnchor | LQuant.

Record branch : Type := {
  done : list regex;        (* finished alternatives, latest first *)
  items : list regex;       (* items of the current one, latest first *)
  lst : last
}.

Definition empty : branch := {| done := []; items := []; lst := LNone |}.

Definition push (r : regex) (k : last) (b : branch) : branch :=
  {| done := done b; items := r :: items b; lst := k |}.

Definition seq_of (rs : list regex) : regex :=
  fold_left (fun acc r => Cat r acc) rs Eps.

Definition alt_of (ds : list regex) (cur : regex) : regex :=
  fold_left (fun acc r => Alt r acc) ds cur.

Definition close (b : branch) : regex := alt_of (done b) (seq_of (items b)).

Definition is_alnum_ascii (c : ascii) : bool :=
  let n := Py.code c in
  ((48 <=? n) && (n <=? 57)) || ((65 <=? n) && (n <=? 90))
  || ((97 <=? n) && (n <=? 122)).

(** The characters with a meaning of their own in a pattern. *)
Definition special (c : ascii) : bool :=
  existsb (Ascii.eqb c)
    ["."; "^"; "$"; "*"; "+"; "?"; "{"; "}"; "["; "]"; "\"; "|"; "("; ")"]%char.

Definition quantify (q : ascii) (r : regex) : regex :=
  if Ascii.eqb q "*" then Star r
  else if Ascii.eqb q "+" then Plus r
  else Opt r.

Fixpoint parse (cur : branch) (stack : list branch) (p : string) : compiled :=
  match p with
  | EmptyString =>
      match stack with
      | [] => Compiled (close cur)
      | _ :: _ => Error                      (* missing ) *)
      end
  | String c p' =>
      if Ascii.eqb c "\" then
        match p' with
        | EmptyString => Error               (* bad escape *)
        | String e p'' =>
            if Ascii.eqb e "d" then parse (push Digit LAtom cur) stack p''
            else if is_alnum_ascii e then NotModelled
            else parse (push (Chr e) LAtom cur) stack p''
        end
      else if Ascii.eqb c "(" then
        match p' with
        | String "?" _ => NotModelled
        | _ => parse empty (cur :: stack) p'
        end
      else if Ascii.eqb c ")" then
        match stack with
        | [] => Error                        (* unbalanced parenthesis *)
        | parent :: stack' => parse (push (close cur) LAtom parent) stack' p'
        end
      else if Ascii.eqb c "|" then
        parse {| done := seq_of (items cur) :: done cur;
                 items := []; lst := LNone |} stack p'
      else if Ascii.eqb c "*" || Ascii.eqb c "+" || Ascii.eqb c "?" then
        match lst cur, items cur with
        | LAtom, r :: rs =>
            parse {| done := done cur; items := quantify c r :: rs;
                     lst := LQuant |} stack p'
        | LQuant, _ => NotModelled
        | _, _ => Error                      (* nothing to repeat *)
        end
      else if Ascii.eqb c "[" || Ascii.eqb c "{" then NotModelled
      else if Ascii.eqb c "." then parse (push Any LAtom cur) stack p'
      else if Ascii.eqb c "^" then parse (push Bol LAnchor cur) stack p'
      else if Ascii.eqb c "$" then parse (push Eol LAnchor cur) stack p'
      else parse (push (Chr c) LAtom cur) stack p'
  end.

(** [re.compile(pat)] *)
Definition compile (pat : string) : compiled := parse empty [] pat.

(** A pattern without special characters, and the expression it
    stands for: its characters in sequence. *)
Fixpoint plain (pat : string) : bool :=
  match pat with
  | EmptyString => true
  | String c pat' => negb (special c) && plain pat'
  end.

Fixpoint lit (pat : string) : regex :=
  match pat with
  | EmptyString => Eps
  | String c pat' => Cat (Chr c) (lit pat')
  end.

End Re.

(* ================================================================== *)
(** * numpy's default argsort

    [DataFrame.sort_values] is called without [kind], so the sort is
    numpy's "quicksort": an introsort on an array of indices (median of
    three, insertion sort on ranges of at most 17 elements, heapsort when
    the recursion budget is spent).  The model follows the generic
    routine on the index array [tosort], the keys being read through
    [v].

    numpy promises of this sort that the indices come out in the order
    of their keys, and nothing on where equal keys end up: the sort is
    not stable, and on some processors numpy runs a vectorised routine
    in the place of the generic one, which leaves equal keys in another
    order.  What is stated below of a sorted frame is therefore stated
    of the order of the keys only, never of the order among equal
    keys. *)

Module Np.

Section Argsort.

Context {A : Type}.
Variable less : A -> A -> bool.
Variable v : nat -> A.

Definition get (a : list nat) (i : nat) : nat := nth i a 0.

Fixpoint set (a : list nat) (i : nat) (x : nat) : list nat :=
  match a, i with
  | [], _ => []
  | _ :: t, 0 => x :: t
  | h :: t, S i' => h :: set t i' x
  end.

Definition swap (a : list nat) (i j : nat) : list nat :=
  set (set a i (get a j)) j (get a i).

(** ** Insertion sort of [tosort[pl..pr]]

    [shift a pl k vi] is the inner loop entered with [pj = pl + k]:
    while [pj > pl] and the key of [vi] is less than the key before
    [pj], the entry before [pj] moves up; then [vi] is stored. *)
Fixpoint shift (a : list nat) (pl k vi : nat) : list nat :=
  match k with
  | 0 => set a pl vi
  | S k' =>
      if less (v vi) (v (get a (pl + k')))
      then shift (set a (pl + S k') (get a (pl + k'))) pl k' vi
      else set a (pl + S k') vi
  end.

(** The outer loop, at [pi] with [count] positions left to insert. *)
Fixpoint insert_from (a : list nat) (pl pi count : nat) : list nat :=
  match count with
  | 0 => a
  | S c => insert_from (shift a pl (pi - pl) (get a pi)) pl (S pi) c
  end.

Definition insertion (a : list nat) (pl pr : nat) : list nat :=
  insert_from a pl (S pl) (pr - pl).

(** ** Heapsort of the [n] entries from [base], with the routine's
    one-based indexing *)

Definition at1 (a : list nat) (base k : nat) : nat := get a (base + k - 1).

Definition put1 (a : list nat) (base k x : nat) : list nat :=
  set a (base + k - 1) x.

Fixpoint sift (fuel : nat) (a : list nat) (base tmp i j n : nat)
  : list nat :=
  match fuel with
  | 0 => put1 a base i tmp
  | S f =>
      if j <=? n then
        let j' := if (j <? n)
                     && less (v (at1 a base j)) (v (at1 a base (j + 1)))
                  then j + 1 else j in
        if less (v tmp) (v (at1 a base j'))
        then sift f (put1 a base i (at1 a base j')) base tmp j' (j' + j') n
        else put1 a base i tmp
      else put1 a base i tmp
  end.

Fixpoint heapify (a : list nat) (base l n : nat) : list nat :=
  match l with
  | 0 => a
  | S l' => heapify (sift n a base (at1 a base l) l (l + l) n) base l' n
  end.

Fixpoint extract (a : list nat) (base n : nat) : list nat :=
  match n with
  | 0 => a
  | S m =>
      match m with
      | 0 => a
      | S _ =>
          let tmp := at1 a base n in
          let a1 := put1 a base n (at1 a base 1) in
          extract (sift m a1 base tmp 1 2 m) base m
      end
  end.

Definition heapsort (a : list nat) (base n : nat) : list nat :=
  extract (heapify a base (Nat.div2 n) n) base n.

(** ** Quicksort *)

Definition SMALL_QUICKSORT : nat := 16.

(** [do ++pi; while (less(v[*pi], vp))] *)
Fixpoint scan_up (fuel : nat) (a : list nat) (vp : A) (pi : nat) : nat :=
  let pi' := S pi in
  match fuel with
  | 0 => pi'
  | S f => if less (v (get a pi')) vp then scan_up f a vp pi' else pi'
  end.

(** [do --pj; while (less(vp, v[*pj]))] *)
Fixpoint scan_down (fuel : nat) (a : list nat) (vp : A) (pj : nat) : nat :=
  let pj' := pj - 1 in
  match fuel with
  | 0 => pj'
  | S f => if less vp (v (get a pj')) then scan_down f a vp pj' else pj'
  end.

(** The exchange loop; it returns the array and the final [pi]. *)
Fixpoint exchange (fuel : nat) (a : list nat) (vp : A) (pi pj : nat)
  : list nat * nat :=
  let pi' := scan_up (List.length a) a vp pi in
  let pj' := scan_down (List.length a) a vp pj in
  if pj' <=? pi' then (a, pi')
  else match fuel with
       | 0 => (a, pi')
       | S f => exchange f (swap a pi' pj') vp pi' pj'
       end.

(** One partition of [tosort[pl..pr]]: median of three, the pivot
    parked at [pr - 1], the exchange loop, the pivot moved to its
    place [pi]. *)
Definition partition (a : list nat) (pl pr : nat) : list nat * nat :=
  let pm := pl + Nat.div2 (pr - pl) in
  let a := if less (v (get a pm)) (v (get a pl)) then swap a pm pl else a in
  let a := if less (v (get a pr)) (v (get a pm)) then swap a pr pm else a in
  let a := if less (v (get a pm)) (v (get a pl)) then swap a pm pl else a in
  let vp := v (get a pm) in
  let a := swap a pm (pr - 1) in
  let '(a, pi) := exchange (List.length a) a vp pl (pr - 1) in
  (swap a pi (pr - 1), pi).

(** A pending range with the recursion budget it was pushed with. *)
Definition pending : Type := (nat * nat * Z)%type.

(** [while ((pr - pl) > SMALL_QUICKSORT)]: partition, push the larger
    part, go on with the smaller one. *)
Fixpoint split (fuel : nat) (a : list nat) (pl pr : nat) (cdepth : Z)
         (stack : list pending)
  : list nat * nat * nat * Z * list pending :=
  match fuel with
  | 0 => (a, pl, pr, cdepth, stack)
  | S f =>
      if SMALL_QUICKSORT <? pr - pl then
        let '(a', pi) := partition a pl pr in
        let cdepth' := (cdepth - 1)%Z in
        if pi - pl <? pr - pi
        then split f a' pl (pi - 1) cdepth' ((S pi, pr, cdepth') :: stack)
        else split f a' (S pi) pr cdepth' ((pl, pi - 1, cdepth') :: stack)
      else (a, pl, pr, cdepth, stack)
  end.

(** The main loop of [aquicksort], one round per range taken up. *)
Fixpoint rounds (fuel : nat) (a : list nat) (pl pr : nat) (cdepth : Z)
         (stack : list pending) : list nat :=
  match fuel with
  | 0 => a
  | S f =>
      let '(a', stack') :=
        if (cdepth <? 0)%Z then (heapsort a pl (pr - pl + 1), stack)
        else
          let '(a1, pl1, pr1, _, stack1) :=
            split (List.length a) a pl pr cdepth stack in
          (insertion a1 pl1 pr1, stack1) in
      match stack' with
      | [] => a'
      | (pl', pr', cdepth') :: rest => rounds f a' pl' pr' cdepth' rest
      end
  end.

Definition aquicksort (tosort : list nat) : list nat :=
  let num := List.length tosort in
  rounds (S num) tosort 0 (num - 1) (2 * Z.of_nat (Nat.log2 num))%Z [].

End Argsort.

(** ** Insertion sort on lists

    What the insertion loop does to a range, told on lists: the part
    already sorted is kept in reverse, and the next element passes the
    elements it is less than. *)

Fixpoint place_in {E : Type} (lt : E -> E -> bool) (e : E) (rp : list E)
  : list E :=
  match rp with
  | [] => [e]
  | p :: t => if lt e p then p :: place_in lt e t else e :: rp
  end.

Definition isort {E : Type} (lt : E -> E -> bool) (l : list E) : list E :=
  rev (fold_left (fun rp e => place_in lt e rp) l []).

(** [keys.argsort(kind="quicksort")]: the indices of [keys] in sorted
    order. *)
Definition argsort {A : Type} (less : A -> A -> bool) (d : A)
           (keys : list A) : list nat :=
  aquicksort less (fun i => nth i keys d) (seq 0 (List.length keys)).

End Np.

(* ================================================================== *)
(** * The data frame and the pandas operations of the script *)

Module Pd.

(** ** Exceptions

    A computation returns a value, raises, or leaves the fragment of
    the libraries that is modelled ([Beyond]); the last is no Python
    exception and no handler catches it. *)

Inductive exn : Type := KeyError | ValueError | AttributeError | ReError.

Inductive result (A : Type) : Type :=
| Ok (a : A)
| Raise (e : exn)
| Beyond.

Arguments Ok {A} a.
Arguments Raise {A} e.
Arguments Beyond {A}.

Definition bind {A B : Type} (m : result A) (f : A -> result B) : result B :=
  match m with
  | Ok a => f a
  | Raise e => Raise e
  | Beyond => Beyond
  end.

Notation "x <- m ;; k" := (bind m (fun x => k))
  (at level 61, m at next level, right associativity).

Fixpoint mapM {A B : Type} (f : A -> result B) (l : list A)
  : result (list B) :=
  match l with
  | [] => Ok []
  | a :: t => b <- f a ;; bs <- mapM f t ;; Ok (b :: bs)
  end.

(** ** Cells, rows and frames *)

Inductive dtype : Type := int64 | float64 | object | bool_ | datetime64.

Inductive cell : Type :=
| Int (z : Z)
| Float (q : Q)
| Str (s : string)
| Bool (b : bool)
| Timestamp (t : Z)
| NaN.                      (* the missing value: NaN, None, NaT *)

Definition dtype_eqb (a b : dtype) : bool :=
  match a, b with
  | int64, int64 | float64, float64 | object, object
  | bool_, bool_ | datetime64, datetime64 => true
  | _, _ => false
  end.

(** The cells a column of each dtype holds. *)
Definition has_dtype (d : dtype) (c : cell) : bool :=
  match d, c with
  | int64, Int _ => true
  | float64, Float _ | float64, NaN => true
  | object, Str _ | object, NaN => true
  | bool_, Bool _ => true
  | datetime64, Timestamp _ | datetime64, NaN => true
  | _, _ => false
  end.

(** A row carries its index label (its position in the loaded sheet)
    and its cells, left to right. *)
Record row : Type := { label : nat; cells : list cell }.

Record DataFrame : Type := {
  columns : list (string * dtype);
  rows : list row
}.

Definition names (df : DataFrame) : list string := map fst (columns df).

Definition mem (x : string) (l : list string) : bool :=
  existsb (String.eqb x) l.

Fixpoint position (c : string) (l : list string) : option nat :=
  match l with
  | [] => None
  | h :: t => if String.eqb c h then Some 0
              else option_map S (position c t)
  end.

(** The place of column [c], or the [KeyError] of [df[c]]. *)
Definition loc (df : DataFrame) (c : string) : result nat :=
  match position c (names df) with
  | Some k => Ok k
  | None => Raise KeyError
  end.

Definition dtype_at (df : DataFrame) (k : nat) : dtype :=
  nth k (map snd (columns df)) object.

Definition at_ (k : nat) (r : row) : cell := nth k (cells r) NaN.

(** [df[c]] as the list of its values, [k] being the place of [c]. *)
Definition series (df : DataFrame) (k : nat) : list cell :=
  map (at_ k) (rows df).

(** Every row has one cell per column, of the column's dtype. *)
Definition row_typed (cols : list (string * dtype)) (r : row) : Prop :=
  Forall2 (fun cd c => has_dtype (snd cd) c = true) cols (cells r).

Definition well_typed (df : DataFrame) : Prop :=
  Forall (row_typed (columns df)) (rows df).

(** ** Column selection *)

(** [df.select_dtypes(include=...).columns.tolist()] *)
Definition select_dtypes (include : list dtype) (df : DataFrame)
  : list string :=
  map fst (filter (fun cd => existsb (dtype_eqb (snd cd)) include)
                  (columns df)).

(** [df.rename(columns={old: new})] *)
Definition rename (old new : string) (df : DataFrame) : DataFrame :=
  {| columns := map (fun cd => if String.eqb (fst cd) old
                               then (new, snd cd) else cd) (columns df);
     rows := rows df |}.

(** ** Numbers *)

Definition isna (c : cell) : bool :=
  match c with NaN => true | _ => false end.

(** The value of a numeric cell, [None] for a missing one.  Arithmetic
    on cells of other kinds is not modelled. *)
Definition number (c : cell) : result (option Q) :=
  match c with
  | Int z => Ok (Some (inject_Z z))
  | Float q => Ok (Some q)
  | NaN => Ok None
  | _ => Beyond
  end.

Fixpoint present {A : Type} (l : list (option A)) : list A :=
  match l with
  | [] => []
  | Some a :: t => a :: present t
  | None :: t => present t
  end.

(** The values of a numeric column, missing ones skipped. *)
Definition numbers (s : list cell) : result (list Q) :=
  os <- mapM number s ;; Ok (present os).

Definition Qltb (a b : Q) : bool := negb (Qle_bool b a).

Definition Qsum (l : list Q) : Q := fold_left Qplus l 0%Q.

(** [Series.mean()]: missing values are skipped; no value, no mean. *)
Definition mean (s : list cell) : result cell :=
  vs <- numbers s ;;
  Ok (match vs with
      | [] => NaN
      | _ :: _ => Float (Qsum vs / inject_Z (Z.of_nat (List.length vs)))%Q
      end).

(** [Series.min()] and [Series.max()], missing values skipped. *)
Definition min (s : list cell) : result cell :=
  vs <- numbers s ;;
  Ok (match vs with
      | [] => NaN
      | x :: xs => Float (fold_left Qmin xs x)
      end).

Definition max (s : list cell) : result cell :=
  vs <- numbers s ;;
  Ok (match vs with
      | [] => NaN
      | x :: xs => Float (fold_left Qmax xs x)
      end).

(** [x * k] for the result [x] of [min] or [max] and a float constant. *)
Definition times (x : cell) (k : Q) : cell :=
  match x with
  | Float q => Float (q * k)%Q
  | _ => NaN
  end.

(** Fresh index labels [0, 1, ...], as [reset_index] and [melt] give. *)
Definition relabel (css : list (list cell)) : list row :=
  map (fun ic => {| label := fst ic; cells := snd ic |})
      (combine (seq 0 (List.length css)) css).

(** ** [df.groupby(by)[metrics].mean().reset_index()]

    The groups are the distinct values of the grouping column, missing
    values dropped, in sorted order ([sort=True] is the default of
    [groupby]).  The grouping column is taken to hold text. *)

Definition text_key (c : cell) : result (option string) :=
  match c with
  | Str s => Ok (Some s)
  | NaN => Ok None
  | _ => Beyond
  end.

(** [k] put at its place in a sorted list without repetition. *)
Fixpoint insert_key (k : string) (ks : list string) : list string :=
  match ks with
  | [] => [k]
  | h :: t =>
      if String.eqb k h then ks
      else if String.ltb k h then k :: ks
      else h :: insert_key k t
  end.

Definition group_keys (ks : list (option string)) : list string :=
  fold_left (fun acc k => match k with
                          | Some s => insert_key s acc
                          | None => acc
                          end) ks [].

Definition in_group (kb : nat) (g : string) (r : row) : bool :=
  match at_ kb r with
  | Str s => String.eqb s g
  | _ => false
  end.

Definition group_means (df : DataFrame) (kb : nat) (ks : list nat)
           (g : string) : result (list cell) :=
  let members := filter (in_group kb g) (rows df) in
  ms <- mapM (fun k => mean (map (at_ k) members)) ks ;;
  Ok (Str g :: ms).

Definition groupby_mean (df : DataFrame) (by_ : string)
           (metrics : list string) : result DataFrame :=
  kb <- loc df by_ ;;
  ks <- mapM (loc df) metrics ;;
  if mem by_ metrics then Raise ValueError  (* reset_index: already exists *)
  else
    keys <- mapM text_key (series df kb) ;;
    means <- mapM (group_means df kb ks) (group_keys keys) ;;
    Ok {| columns := (by_, object) :: map (fun m => (m, float64)) metrics;
          rows := relabel means |}.

(** ** [pd.melt(frame, id_vars=[id], value_vars=..., var_name=...,
       value_name=...)]

    One row per value column and input row, the value columns in turn
    and under each the rows in their order. *)

Definition common_dtype (ds : list dtype) : dtype :=
  if forallb (dtype_eqb int64) ds then int64
  else if forallb (fun d => dtype_eqb int64 d || dtype_eqb float64 d) ds
       then float64
       else match ds with
            | d :: t => if forallb (dtype_eqb d) t then d else object
            | [] => object
            end.

Definition melt (frame : DataFrame) (id : string) (value_vars : list string)
           (var_name value_name : string) : result DataFrame :=
  if mem value_name (names frame) then Raise ValueError
  else
    ki <- loc frame id ;;
    ks <- mapM (loc frame) value_vars ;;
    Ok {| columns := [(id, dtype_at frame ki); (var_name, object);
                      (value_name, common_dtype (map (dtype_at frame) ks))];
          rows := relabel
                    (flat_map
                       (fun mk => map (fun r => [at_ ki r; Str (fst mk);
                                                 at_ (snd mk) r])
                                      (rows frame))
                       (combine value_vars ks)) |}.

(** ** Comparisons, text and masks *)

(** [series == code] for an integer [code], one element. *)
Definition eq_int (code : Z) (c : cell) : bool :=
  match c with
  | Int z => Z.eqb z code
  | Float q => Qeq_bool q (inject_Z code)
  | Bool b => Z.eqb (Z.b2z b) code
  | _ => false
  end.

(** [series == text], one element. *)
Definition eq_str (text : string) (c : cell) : bool :=
  match c with
  | Str s => String.eqb s text
  | _ => false
  end.

(** [series.astype(str)], one element.  The text of a float and of a
    timestamp is not modelled. *)
Definition astype_str (c : cell) : result cell :=
  match c with
  | Int z => Ok (Str (Py.str z))
  | Str s => Ok (Str s)
  | Bool b => Ok (Str (if b then "True" else "False"))
  | NaN => Ok (Str "nan")
  | Float _ | Timestamp _ => Beyond
  end.

(** [series.str]: the accessor is there for text columns only. *)
Definition str_accessor (d : dtype) (s : list cell) : result (list cell) :=
  match d with
  | object => Ok s
  | _ => Raise AttributeError
  end.

(** [.str.contains(pat, na=...)]: [pat] is compiled as a regular
    expression ([regex=True] is the default) before any element is
    looked at; an element that is no text gives [na]. *)
Definition str_contains (pat : string) (na : option bool) (s : list cell)
  : result (list (option bool)) :=
  match Re.compile pat with
  | Re.Compiled r =>
      Ok (map (fun c => match c with
                        | Str x => Some (Re.search r x)
                        | _ => na
                        end) s)
  | Re.Error => Raise ReError
  | Re.NotModelled => Beyond
  end.

Definition select (mask : list bool) (rs : list row) : list row :=
  map snd (filter fst (combine mask rs)).

(** [df[mask]]: a mask with a missing entry cannot index. *)
Definition getitem_mask (df : DataFrame) (mask : list (option bool))
  : result DataFrame :=
  bs <- mapM (fun b => match b with
                       | Some b => Ok b
                       | None => Raise ValueError
                       end) mask ;;
  Ok {| columns := columns df; rows := select bs (rows df) |}.

(** ** [df.sort_values(by=..., ascending=...)] and [head] *)

(** [nargsort]: the rows with a value are argsorted (for a descending
    sort the values are reversed before and the result after), the rows
    without one are put last, in their order. *)
Definition nargsort (items : list cell) (ascending : bool)
  : result (list nat) :=
  non_nans <- numbers items ;;
  let idx := seq 0 (List.length items) in
  let non_nan_idx := filter (fun i => negb (isna (nth i items NaN))) idx in
  let nan_idx := filter (fun i => isna (nth i items NaN)) idx in
  let non_nans := if ascending then non_nans else rev non_nans in
  let non_nan_idx := if ascending then non_nan_idx else rev non_nan_idx in
  let indexer :=
    map (fun j => nth j non_nan_idx 0) (Np.argsort Qltb 0%Q non_nans) in
  let indexer := if ascending then indexer else rev indexer in
  Ok (indexer ++ nan_idx).

(** [df.iloc[indexer]] *)
Definition take (rs : list row) (indexer : list nat) : list row :=
  flat_map (fun i => match nth_error rs i with
                     | Some r => [r]
                     | None => []
                     end) indexer.

Definition sort_values (df : DataFrame) (by_ : string) (ascending : bool)
  : result DataFrame :=
  k <- loc df by_ ;;
  indexer <- nargsort (series df k) ascending ;;
  Ok {| columns := columns df; rows := take (rows df) indexer |}.

Definition head (n : nat) (df : DataFrame) : DataFrame :=
  {| columns := columns df; rows := firstn n (rows df) |}.

(** ** [df[[c1, c2, ...]]] and [reset_index(drop=True)] *)

(** The places of the columns labelled [c], from place [s] on. *)
Fixpoint places (s : nat) (c : string) (l : list string) : list nat :=
  match l with
  | [] => []
  | h :: t => (if String.eqb c h then [s] else []) ++ places (S s) c t
  end.

(** [df[key]] for a list of labels: for each label in turn the columns
    that bear it, a [KeyError] when a label is none of the frame's. *)
Definition getitem_columns (df : DataFrame) (key : list string)
  : result DataFrame :=
  kss <- mapM (fun c => match places 0 c (names df) with
                        | [] => Raise KeyError
                        | ks => Ok ks
                        end) key ;;
  let ks := List.concat kss in
  Ok {| columns := map (fun k => nth k (columns df) (EmptyString, object)) ks;
        rows := map (fun r => {| label := label r;
                                 cells := map (fun k => at_ k r) ks |})
                    (rows df) |}.

(** [df.reset_index(drop=True)] *)
Definition reset_index_drop (df : DataFrame) : DataFrame :=
  {| columns := columns df; rows := relabel (map cells (rows df)) |}.

(** [df.empty]: no column or no row. *)
Definition empty (df : DataFrame) : bool :=
  (List.length (columns df) =? 0) || (List.length (rows df) =? 0).

(** ** [series.value_counts().reset_index()]

    The distinct values of a text column with the number of rows that
    hold each, missing values dropped ([dropna=True]).  The values are
    tallied in the order of their first appearance and then sorted by
    count, largest first ([sort_values(ascending=False)], with the
    default sort). *)

Fixpoint tally (k : string) (acc : list (string * nat))
  : list (string * nat) :=
  match acc with
  | [] => [(k, 1)]
  | (h, n) :: t =>
      if String.eqb k h then (h, S n) :: t else (h, n) :: tally k t
  end.

Definition tallies (ks : list (option string)) : list (string * nat) :=
  fold_left (fun acc k => match k with
                          | Some s => tally s acc
                          | None => acc
                          end) ks [].

Definition value_counts (df : DataFrame) (c : string) : result DataFrame :=
  k <- loc df c ;;
  keys <- mapM text_key (series df k) ;;
  let table := tallies keys in
  indexer <- nargsort (map (fun gn => Int (Z.of_nat (snd gn))) table) false ;;
  Ok {| columns := [(c, object); ("count", int64)];
        rows := relabel
                  (flat_map (fun i => match nth_error table i with
                                      | Some (g, n) => [[Str g; Int (Z.of_nat n)]]
                                      | None => []
                                      end) indexer) |}.

(** ** [pd.melt] on value columns of several dtypes

    The values of the melted columns are concatenated into one column of
    their common dtype: an integer put into a float64 column becomes a
    float. *)

Definition astype (d : dtype) (c : cell) : cell :=
  match d, c with
  | float64, Int z => Float (inject_Z z)
  | _, _ => c
  end.

Definition melt_mixed (frame : DataFrame) (id : string)
           (value_vars : list string) (var_name value_name : string)
  : result DataFrame :=
  long <- melt frame id value_vars var_name value_name ;;
  Ok {| columns := columns long;
        rows := map (fun r => {| label := label r;
                                 cells := [at_ 0 r; at_ 1 r;
                                           astype (dtype_at long 2) (at_ 2 r)] |})
                    (rows long) |}.

End Pd.

(* ================================================================== *)
(** * The script *)

Module App.

Import Pd.

Definition CODE : string := "股票代码".
Definition NAME : string := "企业名称".

(** ** [load_data], after the sheet is read *)

Definition load_data (sheet : DataFrame) : option DataFrame :=
  let df := if mem "Unnamed: 0" (names sheet)
            then rename "Unnamed: 0" CODE sheet else sheet in
  if mem CODE (names df) then Some df else None.

(** ** [plot_overall_interactive_chart]: the columns *)

Definition industry_candidates : list string :=
  ["行业"; "所属行业"; "行业分类"; "industry"; "Industry"].

(** The first candidate that is a column of [df]. *)
Definition industry_column (df : DataFrame) : option string :=
  find (fun col => mem col (names df)) industry_candidates.

(** [list.remove(x)]: the first occurrence goes. *)
Fixpoint remove (x : string) (l : list string) : list string :=
  match l with
  | [] => []
  | h :: t => if String.eqb x h then t else h :: remove x t
  end.

Definition numeric_columns (df : DataFrame) : list string :=
  let numeric_columns := select_dtypes [float64; int64] df in
  if mem CODE numeric_columns then remove CODE numeric_columns
  else numeric_columns.

(** ** The industry comparison *)

Definition key_metrics : list string :=
  ["数字化转型总指数"; "战略转型"; "技术应用"; "组织变革"; "数据价值";
   "流程优化"].

Definition available_metrics (numeric_columns : list string) : list string :=
  match filter (fun col => mem col numeric_columns) key_metrics with
  | [] => firstn 3 numeric_columns
  | ms => ms
  end.

(** [df.groupby(industry_column)[selected_metrics].mean().reset_index()] *)
Definition industry_data (df : DataFrame) (industry_column : string)
           (selected_metrics : list string) : result DataFrame :=
  groupby_mean df industry_column selected_metrics.

Definition industry_data_melt (industry_data : DataFrame)
           (industry_column : string) (selected_metrics : list string)
  : result DataFrame :=
  melt industry_data industry_column selected_metrics "指标" "平均值".

(** The range of the radar chart. *)
Definition min_val (industry_data_melt : DataFrame) : result cell :=
  k <- loc industry_data_melt "平均值" ;;
  m <- min (series industry_data_melt k) ;;
  Ok (times m (9 # 10)).

Definition max_val (industry_data_melt : DataFrame) : result cell :=
  k <- loc industry_data_melt "平均值" ;;
  m <- max (series industry_data_melt k) ;;
  Ok (times m (11 # 10)).

(** [range=[min_val, max_val]] of the radial axis, from the sheet: the
    aggregation, its long form, and the two ends. *)
Definition radialaxis_range (df : DataFrame) (industry_column : string)
           (selected_metrics : list string) : result (cell * cell) :=
  agg <- industry_data df industry_column selected_metrics ;;
  long <- industry_data_melt agg industry_column selected_metrics ;;
  lo <- min_val long ;;
  hi <- max_val long ;;
  Ok (lo, hi).

(** ** The ranking table *)

(** [df.sort_values(by=ranking_metric, ascending=ascending).head(top_n)] *)
Definition ranking_data (df : DataFrame) (ranking_metric : string)
           (ascending : bool) (top_n : nat) : result DataFrame :=
  sorted <- sort_values df ranking_metric ascending ;;
  Ok (head top_n sorted).

(** ** [plot_overall_interactive_chart]: the overview and the selectors *)

Definition TOTAL : string := "数字化转型总指数".

(** [l.index(x)]: the place of the first [x], a [ValueError] when [x]
    is not in the list. *)
Definition index (x : string) (l : list string) : result nat :=
  match position x l with
  | Some k => Ok k
  | None => Raise ValueError
  end.

(** The table of the pie chart: the industries with the number of their
    companies, under the labels the script gives the two columns. *)
Definition industry_counts (df : DataFrame) (industry_column : string)
  : result DataFrame :=
  industry_counts <- value_counts df industry_column ;;
  Ok {| columns := combine [industry_column; "企业数量"]
                           (map snd (columns industry_counts));
        rows := rows industry_counts |}.

(** The metric of the histogram; the branch is entered for a non-empty
    [numeric_columns] only. *)
Definition default_metric (numeric_columns : list string) : option string :=
  match numeric_columns with
  | [] => None
  | first :: _ =>
      Some (if mem TOTAL numeric_columns then TOTAL else first)
  end.

(** [x_default] and [y_default] of the scatter plot; the branch is
    entered for at least two numeric columns. *)
Definition scatter_defaults (numeric_columns : list string)
  : option (string * string) :=
  match numeric_columns with
  | first :: second :: _ =>
      Some (if mem TOTAL numeric_columns then TOTAL else first,
            if mem "技术应用" numeric_columns then "技术应用" else second)
  | _ => None
  end.

(** The [index=] arguments of the two selectors of the scatter plot. *)
Definition scatter_index (numeric_columns : list string)
  : result (option (nat * nat)) :=
  match scatter_defaults numeric_columns with
  | Some (x_default, y_default) =>
      ix <- index x_default numeric_columns ;;
      iy <- (if mem y_default numeric_columns
             then index y_default numeric_columns else Ok 0) ;;
      Ok (Some (ix, iy))
  | None => Ok None
  end.

Definition hover_name (df : DataFrame) : string :=
  if mem NAME (names df) then NAME else CODE.

(** The [index=] argument of the selector of the ranking metric. *)
Definition ranking_index (numeric_columns : list string) : result nat :=
  if mem TOTAL numeric_columns then index TOTAL numeric_columns else Ok 0.

(** ** The ranking table as it is shown *)

Definition display_columns (df : DataFrame) (ranking_metric : string)
  : list string :=
  if mem NAME (names df)
  then filter (fun col => mem col (names df)) [NAME; CODE; ranking_metric]
  else [CODE; ranking_metric].

(** [ranking_data[display_columns].reset_index(drop=True)] *)
Definition ranking_table (df : DataFrame) (ranking_metric : string)
           (ascending : bool) (top_n : nat) : result DataFrame :=
  ranking_data <- ranking_data df ranking_metric ascending top_n ;;
  shown <- getitem_columns ranking_data (display_columns df ranking_metric) ;;
  Ok (reset_index_drop shown).

(** ** [main]: the company lookup *)

Inductive query_by : Type :=
| by_code                   (* "股票代码" *)
| by_name.                  (* "企业名称" *)

Inductive query_method : Type :=
| exact                     (* "精确查询" *)
| fuzzy.                    (* "模糊查询" *)

(** What pressing the button leads to: one of the four messages that
    end the handler early, or the table [matching_data] (shown when it
    has rows, reported as nothing found when it has none). *)
Inductive outcome : Type :=
| warn_empty_query          (* 请输入查询内容 *)
| error_not_integer         (* except ValueError: 股票代码需为整数 *)
| error_no_name_column      (* 数据中无企业名称列 *)
| error_query_failed        (* except Exception *)
| not_modelled              (* the run leaves the modelled fragment *)
| matched (matching_data : DataFrame).

(** The body of the [try], [query_text] already stripped. *)
Definition matching_data (df : DataFrame) (by_ : query_by)
           (method : query_method) (query_text : string)
  : result DataFrame :=
  match by_, method with
  | by_code, exact =>
      code_int <- match Py.int query_text with
                  | Some z => Ok z
                  | None => Raise ValueError
                  end ;;
      k <- loc df CODE ;;
      getitem_mask df (map (fun c => Some (eq_int code_int c)) (series df k))
  | by_code, fuzzy =>
      k <- loc df CODE ;;
      texts <- mapM astype_str (series df k) ;;
      texts <- str_accessor object texts ;;
      mask <- str_contains query_text None texts ;;
      getitem_mask df mask
  | by_name, exact =>
      k <- loc df NAME ;;
      getitem_mask df (map (fun c => Some (eq_str query_text c)) (series df k))
  | by_name, fuzzy =>
      k <- loc df NAME ;;
      texts <- str_accessor (dtype_at df k) (series df k) ;;
      mask <- str_contains query_text (Some false) texts ;;
      getitem_mask df mask
  end.

(** The [except] clauses around the body. *)
Definition handle (body : result DataFrame) : outcome :=
  match body with
  | Ok matching_data => matched matching_data
  | Raise ValueError => error_not_integer
  | Raise _ => error_query_failed
  | Beyond => not_modelled
  end.

Definition query (df : DataFrame) (query_text : string) (by_ : query_by)
           (method : query_method) : outcome :=
  match Py.strip query_text with
  | EmptyString => warn_empty_query
  | String _ _ as query_text =>
      match by_, mem NAME (names df) with
      | by_name, false => error_no_name_column
      | _, _ => handle (matching_data df by_ method query_text)
      end
  end.

(** ** [main]: the charts of the companies found *)

Definition company_name_col (company_data : DataFrame) : string :=
  if mem NAME (names company_data) then NAME else CODE.

Definition radar_metrics (numeric_columns : list string) : list string :=
  match filter (fun col => mem col numeric_columns) key_metrics with
  | [] => firstn (Nat.min 6 (List.length numeric_columns)) numeric_columns
  | ms => ms
  end.

Definition company_radar_data (company_data : DataFrame)
           (numeric_columns : list string) : result DataFrame :=
  melt_mixed company_data (company_name_col company_data)
             (radar_metrics numeric_columns) "指标" "值".

(** [range=[0, company_radar_data['值'].max() * 1.1]] *)
Definition company_radar_range (company_radar_data : DataFrame)
  : result (cell * cell) :=
  k <- loc company_radar_data "值" ;;
  m <- max (series company_radar_data k) ;;
  Ok (Int 0, times m (11 # 10)).

(** The metrics the comparison of the companies found opens on. *)
Definition compare_default (numeric_columns : list string) : list string :=
  firstn (Nat.min 3 (List.length numeric_columns)) numeric_columns.

Definition compare_data (matching_data : DataFrame)
           (compare_metrics : list string) : result DataFrame :=
  melt_mixed matching_data NAME compare_metrics "指标" "值".

End App.

(* ================================================================== *)
(** * The two functions of the script, run as a whole

    What a run of the page computes from the sheet and from the values
    its widgets hold.  The calls that only draw ([st.*], [px.*]) are
    taken to return and leave no trace here but the data they are given;
    the reference lines of the histogram and the preview of the sheet
    compute nothing that is used later and are left out. *)

Module Page.

Import Pd App.

(** The values of the widgets of [plot_overall_interactive_chart] that
    bear on what is computed. *)
Record controls : Type := {
  selected_metrics : list string;   (* st.multiselect("选择要比较的指标") *)
  ranking_metric : string;          (* st.selectbox("选择排名指标") *)
  top_n : nat;                      (* st.slider("显示数量") *)
  ascending : bool                  (* the radio is on "升序（从低到高）" *)
}.

(** What the function has handed to the charts when it returns. *)
Record drawn : Type := {
  fig_pie : option DataFrame;                        (* industry_counts *)
  fig_hist : option string;                          (* default_metric *)
  fig_scatter : option (nat * nat);                  (* the selectors' indices *)
  fig_radar : option (DataFrame * (cell * cell));    (* long form and range *)
  ranking : option DataFrame                         (* the table shown *)
}.

(** The function returns [None] (the bare [return] of line 200) or the
    pair [(numeric_columns, industry_column)]. *)
Definition plot_overall_interactive_chart (df : DataFrame) (ui : controls)
  : result (drawn * option (list string * option string)) :=
  let industry_column := industry_column df in
  let numeric_columns := numeric_columns df in
  (* 1. the overview *)
  fig_pie <- match industry_column with
             | Some col => counts <- industry_counts df col ;; Ok (Some counts)
             | None => Ok None
             end ;;
  let fig_hist := default_metric numeric_columns in
  (* 2. the scatter plot *)
  fig_scatter <- scatter_index numeric_columns ;;
  (* 4. the ranking, reached unless the function has returned *)
  let rest (fig_radar : option (DataFrame * (cell * cell))) :=
    table <- match numeric_columns with
             | [] => Ok None
             | _ :: _ =>
                 _ <- ranking_index numeric_columns ;;
                 table <- ranking_table df (ranking_metric ui) (ascending ui)
                                        (top_n ui) ;;
                 Ok (Some table)
             end ;;
    Ok ({| fig_pie := fig_pie; fig_hist := fig_hist;
           fig_scatter := fig_scatter; fig_radar := fig_radar;
           ranking := table |},
        Some (numeric_columns, industry_column)) in
  (* 3. the comparison of the industries *)
  match industry_column, numeric_columns with
  | Some col, _ :: _ =>
      match selected_metrics ui with
      | [] =>
          Ok ({| fig_pie := fig_pie; fig_hist := fig_hist;
                 fig_scatter := fig_scatter; fig_radar := None;
                 ranking := None |},
              None)
      | _ :: _ =>
          industry_data <- industry_data df col (selected_metrics ui) ;;
          industry_data_melt <-
            industry_data_melt industry_data col (selected_metrics ui) ;;
          min_val <- min_val industry_data_melt ;;
          max_val <- max_val industry_data_melt ;;
          rest (Some (industry_data_melt, (min_val, max_val)))
      end
  | _, _ => rest None
  end.

(** The charts of the companies found (lines 391 to 463). *)
Record charts : Type := {
  fig_company_radar : option (DataFrame * (cell * cell));
  fig_bar : option DataFrame
}.

Definition company_charts (matching_data : DataFrame)
           (numeric_columns : list string) (industry_column : option string)
           (compare_metrics : list string) : result charts :=
  let len := List.length (rows matching_data) in
  if (0 <? len) && (0 <? List.length numeric_columns) then
    fig_company_radar <-
      match industry_column with
      | Some _ =>
          if len <=? 10 then
            company_radar_data <-
              company_radar_data matching_data numeric_columns ;;
            range <- company_radar_range company_radar_data ;;
            Ok (Some (company_radar_data, range))
          else Ok None
      | None => Ok None
      end ;;
    fig_bar <-
      match compare_metrics with
      | _ :: _ =>
          if (0 <? len) && mem NAME (names matching_data) then
            compare_data <- compare_data matching_data compare_metrics ;;
            Ok (Some compare_data)
          else Ok None
      | [] => Ok None
      end ;;
    Ok {| fig_company_radar := fig_company_radar; fig_bar := fig_bar |}
  else Ok {| fig_company_radar := None; fig_bar := None |}.

Section Main.

Variable File : Type.               (* an uploaded file *)
Variable E : Type.                  (* what [pd.read_excel] raises *)

Inductive source : Type :=
| path (p : string)
| upload (f : File).

Variable read_excel : source -> DataFrame + E.

(** [load_data(file_path)], the reading included: the value returned,
    or the exception that leaves the function. *)
Definition load_data_file (file_path : option File)
  : option DataFrame + E :=
  let attempt (file_path : source) : option DataFrame :=
    match read_excel file_path with             (* try: *)
    | inl df => load_data df
    | inr _ => None                             (* except Exception *)
    end in
  match file_path with
  | None =>
      match read_excel (path "merged_data.xlsx") with   (* line 24 *)
      | inl _ => inl (attempt (path "merged_data.xlsx"))
      | inr e => inr e
      end
  | Some f => inl (attempt (upload f))
  end.

(** An exception that no handler of the script catches. *)
Inductive failure : Type :=
| ReadError (e : E)
| PandasError (e : exn)
| TypeError.

Inductive run (A : Type) : Type :=
| Done (a : A)
| Fails (e : failure)
| Unmodelled.

Arguments Done {A} a.
Arguments Fails {A} e.
Arguments Unmodelled {A}.

(** The values of the widgets of [main]. *)
Record session : Type := {
  uploaded_file : option File;
  chart_controls : controls;
  pressed : bool;                   (* st.button("查询") *)
  query_text : string;
  query_by_choice : query_by;
  query_method_choice : query_method;
  compare_metrics : list string
}.

(** What the query section shows: one of the messages that end the
    handler, the notice that nothing was found, or the companies found
    with their charts. *)
Inductive answer : Type :=
| stopped (o : outcome)
| nothing_found
| found (matching_data : DataFrame) (shown : charts).

Inductive page : Type :=
| load_failed                       (* line 468 *)
| rendered (overview : drawn) (query : option answer).

Definition main (ui : session) : run page :=
  match load_data_file (uploaded_file ui) with
  | inr e => Fails (ReadError e)
  | inl None => Done load_failed
  | inl (Some df) =>
      match plot_overall_interactive_chart df (chart_controls ui) with
      | Raise e => Fails (PandasError e)
      | Beyond => Unmodelled
      | Ok (_, None) => Fails TypeError        (* line 316: None is unpacked *)
      | Ok (overview, Some (numeric_columns, industry_column)) =>
          if pressed ui then
            (* the radio offers "企业名称" only when the column is there *)
            let query_by := if mem NAME (names df)
                            then query_by_choice ui else by_code in
            match query df (query_text ui) query_by
                        (query_method_choice ui) with
            | matched matching_data =>
                if empty matching_data
                then Done (rendered overview (Some nothing_found))
                else
                  match company_charts matching_data numeric_columns
                                       industry_column (compare_metrics ui) with
                  | Ok shown =>
                      Done (rendered overview
                                     (Some (found matching_data shown)))
                  | Raise e => Fails (PandasError e)
                  | Beyond => Unmodelled
                  end
            | not_modelled => Unmodelled
            | o => Done (rendered overview (Some (stopped o)))
            end
          else Done (rendered overview None)
      end
  end.

End Main.

Arguments path {File} p.
Arguments upload {File} f.
Arguments Done {E A} a.
Arguments Fails {E A} e.
Arguments Unmodelled {E A}.
Arguments ReadError {E} e.
Arguments PandasError {E} e.
Arguments TypeError {E}.

End Page.

(* ================================================================== *)
(** * The specification's wording

    Definitions that follow the words of the specification, to be
    compared with what the script computes, and the few notions the
    statements about them are written with. *)

Module Spec.

Import Pd.

Definition is_numeric (d : dtype) : bool :=
  match d with
  | int64 | float64 => true
  | _ => false
  end.

(** "Metric columns: every column whose values are uniformly integer-
    or floating-point-typed, excluding the identifier column, in their
    original left-to-right order." *)
Definition metric_columns (df : DataFrame) : list string :=
  map fst (filter (fun cd => is_numeric (snd cd)
                             && negb (String.eqb (fst cd) App.CODE))
                  (columns df)).

(** "Match Result: the (possibly empty) ordered subset of records
    satisfying a lookup query, preserving the original dataset's row
    order": the rows of [df] that pass a test. *)
Definition kept (df : DataFrame) (p : row -> bool) : DataFrame :=
  {| columns := columns df; rows := filter p (rows df) |}.


(** Alphabetical (code point) order of two texts. *)
Definition ascending (a b : string) : Prop := String.ltb a b = true.

(** The value of a text cell. *)
Definition text_of (c : cell) : option string :=
  match c with
  | Str s => Some s
  | _ => None
  end.

Definition Q_eqb (a b : Q) : bool :=
  Z.eqb (Qnum a) (Qnum b) && Pos.eqb (Qden a) (Qden b).

(** Two cells are the same cell. *)
Definition cell_eqb (a b : cell) : bool :=
  match a, b with
  | Int x, Int y => Z.eqb x y
  | Float x, Float y => Q_eqb x y
  | Str x, Str y => String.eqb x y
  | Bool x, Bool y => Bool.eqb x y
  | Timestamp x, Timestamp y => Z.eqb x y
  | NaN, NaN => true
  | _, _ => false
  end.

Definition other_than (x y : cell) : bool := negb (cell_eqb y x).

(** The values of a list in the order in which each first appears. *)
Fixpoint first_seen (l : list cell) : list cell :=
  match l with
  | [] => []
  | x :: t => x :: filter (other_than x) (first_seen t)
  end.

(** The place of a label among the columns, 0 when it is none. *)
Definition place (m : string) (labels : list string) : nat :=
  match position m labels with
  | Some k => k
  | None => 0
  end.

(** "Long-form Record: a triple (entity-key, metric-name, value)". *)
Definition LongRecord : Type := (cell * cell * cell)%type.

Definition value (rec : LongRecord) : cell := snd rec.

(** The records of a long frame (key, metric name, value in its three
    columns). *)
Definition long_records (long : DataFrame) : list LongRecord :=
  map (fun r => (at_ 0 r, at_ 1 r, at_ 2 r)) (rows long).



(** The value the ranking reads at position [p] of a column. *)
Definition rank_key (items : list cell) (p : nat) : option Q :=
  match nth p items NaN with
  | Int z => Some (inject_Z z)
  | Float q => Some q
  | _ => None
  end.

(** The positions with a value, each with its value, from position [s]. *)
Fixpoint valued (s : nat) (items : list cell) : list (nat * Q) :=
  match items with
  | [] => []
  | Int z :: t => (s, inject_Z z) :: valued (S s) t
  | Float q :: t => (s, q) :: valued (S s) t
  | _ :: t => valued (S s) t
  end.

(** Two cells of a numeric column in the order of a ranking: two values
    in the direction asked for, a missing value after every value. *)
Definition in_ranking_order (ascending : bool) (c c' : cell) : Prop :=
  match number c, number c' with
  | Ok (Some a), Ok (Some b) => if ascending then (a <= b)%Q else (b <= a)%Q
  | Ok _, Ok None => True
  | _, _ => False
  end.

End Spec.

(* ================================================================== *)
(** * Sample sheets *)

Module Fixtures.

Import Pd App.

(** Three companies; the second has no name, and the industries come
    in the order retail, banking. *)
Definition companies : DataFrame :=
  {| columns := [(CODE, int64); (NAME, object); ("行业", object);
                 ("数字化转型总指数", float64); ("技术应用", int64)];
     rows := relabel
               [[Int 30884; Str "abc"; Str "retail"; Float 10; Int 3];
                [Int 300884; NaN; Str "banking"; Float 20; Int 4];
                [Int 3184; Str "a.c"; Str "retail"; Float 30; Int 3]] |}.

(** A sheet in which no company has a name: the column is read as
    float64. *)
Definition nameless : DataFrame :=
  {| columns := [(CODE, int64); (NAME, float64)];
     rows := relabel [[Int 30884; NaN]; [Int 300884; NaN]] |}.

(** One company per industry, with the index values 10, 20, 30. *)
Definition gains : DataFrame :=
  {| columns := [(CODE, int64); ("行业", object); ("数字化转型总指数", float64)];
     rows := relabel
               [[Int 1; Str "a"; Float 10]; [Int 2; Str "b"; Float 20];
                [Int 3; Str "c"; Float 30]] |}.

(** One company per industry, with the index values -5 and 10. *)
Definition losses : DataFrame :=
  {| columns := [(CODE, int64); ("行业", object); ("数字化转型总指数", float64)];
     rows := relabel [[Int 1; Str "a"; Float (-5)]; [Int 2; Str "b"; Float 10]] |}.

(** The long form of the averages of [gains]. *)
Definition long_gains : DataFrame :=
  {| columns := [("行业", object); ("指标", object); ("平均值", float64)];
     rows := relabel
               [[Str "a"; Str "数字化转型总指数"; Float 10];
                [Str "b"; Str "数字化转型总指数"; Float 20];
                [Str "c"; Str "数字化转型总指数"; Float 30]] |}.

(** A sheet written with its index: an unnamed first column beside the
    column of the stock codes. *)
Definition indexed : DataFrame :=
  {| columns := [("Unnamed: 0", int64); (CODE, int64);
                 ("数字化转型总指数", float64)];
     rows := relabel [[Int 0; Int 30884; Float 10];
                      [Int 1; Int 300884; Float 20]] |}.


(** Two companies of a sheet that has a column labelled ["值"]. *)
Definition priced : DataFrame :=
  {| columns := [(CODE, int64); (NAME, object); ("值", float64)];
     rows := relabel [[Int 30884; Str "abc"; Float 10];
                      [Int 300884; Str "abd"; Float 20]] |}.


(** The widgets of the overview as they open on [companies]. *)
Definition opening : Page.controls :=
  {| Page.selected_metrics := ["数字化转型总指数"; "技术应用"];
     Page.ranking_metric := "数字化转型总指数";
     Page.top_n := 10;
     Page.ascending := false |}.


Definition company_names (o : outcome) : list cell :=
  match o with
  | matched md => map (at_ 1) (rows md)
  | _ => []
  end.

End Fixtures.

(* ================================================================== *)
(** * Properties *)

Import Pd App Fixtures.

(** ** Masks *)

Section Masks.

Lemma unwrap_total (A : Type) (p : A -> bool) (l : list A) :
  mapM (fun b : option bool => match b with
                               | Some b => Ok b
                               | None => Raise ValueError
                               end)
       (map (fun c => Some (p c)) l)
  = Ok (map p l).
Proof.
  induction l as [|a l IH]; simpl; [reflexivity|].
  rewrite IH. reflexivity.
Qed.

Lemma select_map (p : row -> bool) (rs : list row) :
  select (map p rs) rs = filter p rs.
Proof.
  unfold select. induction rs as [|r rs IH]; simpl; [reflexivity|].
  destruct (p r); simpl; rewrite IH; reflexivity.
Qed.

Lemma loc_position (df : DataFrame) (c : string) (k : nat) :
  position c (names df) = Some k -> loc df c = Ok k.
Proof. unfold loc. intros ->. reflexivity. Qed.

Lemma position_mem (c : string) (l : list string) (k : nat) :
  position c l = Some k -> mem c l = true.
Proof.
  revert k. induction l as [|h t IH]; simpl; intros k H; [discriminate|].
  destruct (String.eqb c h); [reflexivity|]. simpl.
  destruct (position c t) eqn:E; [|discriminate]. eapply IH. reflexivity.
Qed.

End Masks.

(** ** The metric columns *)

Section Columns.

Lemma remove_absent (x : string) (l : list string) :
  mem x l = false -> filter (fun y => negb (String.eqb y x)) l = l.
Proof.
  induction l as [|h t IH]; simpl; [reflexivity|].
  rewrite (String.eqb_sym h x).
  destruct (String.eqb x h); simpl; [discriminate|].
  intros H. rewrite IH by assumption. reflexivity.
Qed.

Lemma mem_In (x : string) (l : list string) : mem x l = true <-> In x l.
Proof.
  unfold mem. rewrite existsb_exists. split.
  - intros (y & Hy & E). apply String.eqb_eq in E. subst. assumption.
  - intros H. exists x. split; [assumption|apply String.eqb_refl].
Qed.

(** On a list without repetition, [list.remove] is a filter. *)
Lemma remove_filter (x : string) (l : list string) :
  NoDup l -> remove x l = filter (fun y => negb (String.eqb y x)) l.
Proof.
  induction 1 as [|h t Hh Ht IH]; simpl; [reflexivity|].
  rewrite (String.eqb_sym h x).
  destruct (String.eqb x h) eqn:E; simpl.
  - apply String.eqb_eq in E. subst h.
    symmetry. apply remove_absent.
    destruct (mem x t) eqn:M; [|reflexivity].
    apply mem_In in M. contradiction.
  - rewrite IH. reflexivity.
Qed.

Lemma NoDup_filter_fst (A : Type) (p : string * A -> bool)
      (l : list (string * A)) :
  NoDup (map fst l) -> NoDup (map fst (filter p l)).
Proof.
  induction l as [|a l IH]; simpl; intros H; [constructor|].
  inversion H as [|? ? Ha Hl]; subst.
  destruct (p a); simpl; [|auto].
  constructor; [|auto].
  intros Hin. apply Ha.
  apply in_map_iff in Hin. destruct Hin as (b & Eb & Hb).
  apply filter_In in Hb. apply in_map_iff. exists b. tauto.
Qed.

Lemma filter_map_fst (A : Type) (p : string -> bool) (l : list (string * A)) :
  filter p (map fst l) = map fst (filter (fun cd => p (fst cd)) l).
Proof.
  induction l as [|a l IH]; simpl; [reflexivity|].
  destruct (p (fst a)); simpl; rewrite IH; reflexivity.
Qed.

Lemma filter_filter (A : Type) (p q : A -> bool) (l : list A) :
  filter p (filter q l) = filter (fun a => q a && p a) l.
Proof.
  induction l as [|a l IH]; simpl; [reflexivity|].
  destruct (q a); simpl; [destruct (p a)|]; rewrite IH; reflexivity.
Qed.

Lemma remove_not_member (x : string) (l : list string) :
  mem x l = false -> remove x l = l.
Proof.
  induction l as [|h t IH]; simpl; [reflexivity|].
  destruct (String.eqb x h); simpl; [discriminate|].
  intros M. rewrite IH by assumption. reflexivity.
Qed.

(** Whatever the column labels, the script's list is the numeric columns
    with the first ["股票代码"] among them taken out. *)
Lemma numeric_columns_remove (df : DataFrame) :
  numeric_columns df = remove CODE (select_dtypes [float64; int64] df).
Proof.
  unfold numeric_columns.
  destruct (mem CODE (select_dtypes [float64; int64] df)) eqn:M;
    [reflexivity|].
  symmetry. apply remove_not_member. exact M.
Qed.

(** On a frame without a repeated label, the script's list is the
    specification's. *)
Lemma numeric_columns_spec (df : DataFrame) :
  NoDup (names df) -> numeric_columns df = Spec.metric_columns df.
Proof.
  intros ND. rewrite numeric_columns_remove. unfold select_dtypes.
  rewrite remove_filter by (apply NoDup_filter_fst; exact ND).
  rewrite filter_map_fst, filter_filter. unfold Spec.metric_columns.
  f_equal. apply filter_ext. intros [c d]. simpl.
  destruct d; reflexivity.
Qed.


(** X1.  The industry column is the first candidate that labels a
    column of the sheet; there is none exactly when no candidate does. *)
Lemma industry_column_first_candidate (df : DataFrame) :
  match industry_column df with
  | Some col =>
      exists earlier later,
        industry_candidates = earlier ++ col :: later
        /\ In col (names df)
        /\ forall c, In c earlier -> ~ In c (names df)
  | None => forall c, In c industry_candidates -> ~ In c (names df)
  end.
Proof.
  unfold industry_column.
  generalize industry_candidates as l.
  induction l as [|h t IH]; simpl; [intros c []|].
  destruct (mem h (names df)) eqn:M.
  - exists [], t. split; [reflexivity|]. split; [apply mem_In; exact M|].
    intros c [].
  - assert (Hh : ~ In h (names df))
      by (intros H; apply mem_In in H; congruence).
    destruct (find (fun col => mem col (names df)) t) as [col|].
    + destruct IH as (earlier & later & E & Hin & Hpre).
      exists (h :: earlier), later. rewrite E. split; [reflexivity|].
      split; [exact Hin|]. intros c [<-|Hc]; [exact Hh|apply Hpre; exact Hc].
    + intros c [<-|Hc]; [exact Hh|apply IH; exact Hc].
Qed.

(** X3.  The metrics offered for the comparison of industries are
    numeric columns. *)
Lemma available_metrics_are_numeric (numeric_columns : list string) :
  incl (available_metrics numeric_columns) numeric_columns.
Proof.
  unfold available_metrics. intros m Hm.
  destruct (filter (fun col => mem col numeric_columns) key_metrics)
    as [|m0 ms] eqn:E.
  - rewrite <- (firstn_skipn 3 numeric_columns). apply in_or_app. left.
    exact Hm.
  - rewrite <- E in Hm. apply filter_In in Hm. apply mem_In. tauto.
Qed.


End Columns.

(** ** Patterns without special characters *)

Section Literal.

Lemma special_false (c : ascii) :
  Re.special c = false ->
  Ascii.eqb c "\" = false /\ Ascii.eqb c "(" = false
  /\ Ascii.eqb c ")" = false /\ Ascii.eqb c "|" = false
  /\ Ascii.eqb c "*" = false /\ Ascii.eqb c "+" = false
  /\ Ascii.eqb c "?" = false /\ Ascii.eqb c "[" = false
  /\ Ascii.eqb c "{" = false /\ Ascii.eqb c "." = false
  /\ Ascii.eqb c "^" = false /\ Ascii.eqb c "$" = false.
Proof.
  unfold Re.special. simpl. intros H.
  repeat (apply orb_false_iff in H; destruct H as [? H]).
  repeat split; assumption.
Qed.

Lemma parse_plain (pat : string) :
  Re.plain pat = true ->
  forall its k,
    Re.parse {| Re.done := []; Re.items := its; Re.lst := k |} [] pat
    = Re.Compiled (fold_left (fun acc r => Re.Cat r acc) its (Re.lit pat)).
Proof.
  induction pat as [|c pat IH]; simpl; intros Hp its k; [reflexivity|].
  apply andb_true_iff in Hp. destruct Hp as [Hc Hp].
  apply negb_true_iff in Hc. apply special_false in Hc.
  destruct Hc as (H1 & H2 & H3 & H4 & H5 & H6 & H7 & H8 & H9 & H10 & H11 & H12).
  rewrite H1, H2, H3, H4, H5, H6, H7, H8, H9, H10, H11, H12. simpl.
  unfold Re.push. simpl. rewrite (IH Hp). reflexivity.
Qed.

(** A pattern without special characters compiles to its characters. *)
Lemma compile_plain (pat : string) :
  Re.plain pat = true -> Re.compile pat = Re.Compiled (Re.lit pat).
Proof.
  intros Hp. unfold Re.compile, Re.empty.
  rewrite (parse_plain pat Hp). reflexivity.
Qed.

Lemma rests_lit (pat : string) (n : nat) :
  forall s, match Re.rests (Re.lit pat) n s with
            | [] => false
            | _ :: _ => true
            end = prefix pat s.
Proof.
  induction pat as [|c pat IH]; intros s; simpl.
  - destruct s; reflexivity.
  - destruct s as [|a s]; simpl; [reflexivity|].
    destruct (ascii_dec c a) as [E|E].
    + subst a. rewrite Ascii.eqb_refl. simpl. rewrite app_nil_r. apply IH.
    + apply Ascii.eqb_neq in E. rewrite Ascii.eqb_sym in E.
      rewrite E. reflexivity.
Qed.

(** Searching for such a pattern is literal containment. *)
Lemma search_lit (pat s : string) :
  Re.search (Re.lit pat) s = Py.contains pat s.
Proof.
  unfold Re.search. generalize (String.length s) as n.
  induction s as [|a s IH]; intros n; simpl.
  - rewrite rests_lit. destruct pat; reflexivity.
  - rewrite rests_lit. f_equal. apply IH.
Qed.

Lemma str_contains_plain (pat : string) (na : option bool) (s : list cell) :
  Re.plain pat = true ->
  str_contains pat na s
  = Ok (map (fun c => match c with
                      | Str x => Some (Py.contains pat x)
                      | _ => na
                      end) s).
Proof.
  intros Hp. unfold str_contains. rewrite (compile_plain pat Hp).
  f_equal. apply map_ext. intros [ | | x | | | ]; try reflexivity.
  rewrite search_lit. reflexivity.
Qed.

End Literal.

(** ** Typed cells *)

Section Typing.

Lemma position_lt (c : string) (l : list string) :
  forall k, position c l = Some k -> k < List.length l.
Proof.
  induction l as [|h t IH]; simpl; intros k H; [discriminate|].
  destruct (String.eqb c h).
  - injection H as <-. lia.
  - destruct (position c t) as [j|]; [|discriminate].
    injection H as <-. specialize (IH j eq_refl). lia.
Qed.

Lemma row_typed_nth (cols : list (string * dtype)) (cs : list cell) :
  Forall2 (fun cd c => has_dtype (snd cd) c = true) cols cs ->
  forall k, k < List.length cols ->
            has_dtype (nth k (map snd cols) object) (nth k cs NaN) = true.
Proof.
  induction 1 as [|cd c cols cs H _ IH]; simpl; intros k Hk; [lia|].
  destruct k as [|k]; [exact H|]. apply IH. lia.
Qed.

(** In a well-typed frame the cell of a row in a column has the dtype of
    the column. *)
Lemma typed_cell (df : DataFrame) (c : string) (k : nat) (r : row) :
  well_typed df -> position c (names df) = Some k -> In r (rows df) ->
  has_dtype (dtype_at df k) (at_ k r) = true.
Proof.
  intros W P Hr. unfold well_typed in W.
  rewrite Forall_forall in W. specialize (W r Hr).
  apply (row_typed_nth _ _ W). apply position_lt in P.
  unfold names in P. rewrite length_map in P. exact P.
Qed.


Lemma numeric_cell (d : dtype) (c : cell) :
  Spec.is_numeric d = true -> has_dtype d c = true ->
  exists o, number c = Ok o.
Proof. destruct d, c; simpl; try discriminate; eauto. Qed.

End Typing.

(** ** The company lookup *)

Section Lookup.

Variable df : DataFrame.

Lemma getitem_rows (p : row -> bool) :
  getitem_mask df (map (fun r => Some (p r)) (rows df)) = Ok (Spec.kept df p).
Proof.
  unfold getitem_mask. rewrite unwrap_total. simpl.
  rewrite select_map. reflexivity.
Qed.


Lemma query_by_name (query_text : string) (method : query_method) (k : nat) :
  position NAME (names df) = Some k ->
  query df query_text by_name method
  = match Py.strip query_text with
    | EmptyString => warn_empty_query
    | String _ _ as text => handle (matching_data df by_name method text)
    end.
Proof.
  intros P. unfold query. rewrite (position_mem _ _ _ P).
  destruct (Py.strip query_text); reflexivity.
Qed.


(** C10.  Lookup by name, exact: the handler never fails on a frame
    with a name column; it shows the table of exactly the rows whose
    name is the stripped text, so a row whose name is missing is never
    in it. *)
Theorem lookup_name_exact (query_text : string) (k : nat) :
  position NAME (names df) = Some k ->
  query df query_text by_name exact
  = match Py.strip query_text with
    | EmptyString => warn_empty_query
    | String _ _ as text => matched (Spec.kept df (fun r => eq_str text (at_ k r)))
    end
  /\ (forall text r,
        In r (filter (fun r => eq_str text (at_ k r)) (rows df)) <->
        In r (rows df) /\ at_ k r = Str text)
  /\ (forall text r, at_ k r = NaN -> eq_str text (at_ k r) = false).
Proof.
  intros P. rewrite (query_by_name _ _ _ P). split; [|split].
  - destruct (Py.strip query_text) as [|c s]; [reflexivity|].
    unfold matching_data. rewrite (loc_position _ _ _ P). simpl.
    unfold series. rewrite map_map.
    rewrite (getitem_rows (fun r => eq_str (String c s) (at_ k r))).
    reflexivity.
  - intros text r. rewrite filter_In.
    destruct (at_ k r) as [ | | s | | | ]; simpl;
      try (split; [intros [_ H]; discriminate | intros [_ H]; discriminate]).
    rewrite String.eqb_eq.
    split; intros [H1 H2]; (split; [exact H1|]); congruence.
  - intros text r ->. reflexivity.
Qed.

(** *** Fuzzy lookup *)



Lemma handle_matched (body : result DataFrame) (md : DataFrame) :
  handle body = matched md -> body = Ok md.
Proof.
  destruct body as [a|[]|]; simpl; intros H; try discriminate.
  injection H as ->. reflexivity.
Qed.

(** C7, as the script has it.  On a frame whose name column is a text
    column, the fuzzy lookup by name is never stopped by a missing name:
    every row it shows has a name, the mask never carries a missing
    entry (no [ValueError]), and only a pattern that does not compile
    can make the handler fail.  For a text without special characters
    of regular expressions it shows exactly the rows whose name contains
    the stripped text. *)
Theorem lookup_name_fuzzy (query_text : string) (k : nat) :
  position NAME (names df) = Some k ->
  dtype_at df k = object ->
  (forall md r, query df query_text by_name fuzzy = matched md ->
                In r (rows md) -> exists s, at_ k r = Str s)
  /\ query df query_text by_name fuzzy <> error_not_integer
  /\ (query df query_text by_name fuzzy = error_query_failed ->
      Re.compile (Py.strip query_text) = Re.Error)
  /\ (Re.plain (Py.strip query_text) = true ->
      query df query_text by_name fuzzy
      = match Py.strip query_text with
        | EmptyString => warn_empty_query
        | String _ _ as text =>
            matched (Spec.kept df (fun r => match at_ k r with
                                         | Str s => Py.contains text s
                                         | _ => false
                                         end))
        end).
Proof.
  intros P D. rewrite (query_by_name _ _ _ P).
  assert (Q : forall text,
             matching_data df by_name fuzzy text
             = match Re.compile text with
               | Re.Compiled re =>
                   Ok (Spec.kept df (fun r => match at_ k r with
                                           | Str s => Re.search re s
                                           | _ => false
                                           end))
               | Re.Error => Raise ReError
               | Re.NotModelled => Beyond
               end).
  { intros text. unfold matching_data.
    rewrite (loc_position _ _ _ P). simpl. rewrite D. simpl.
    unfold str_contains. destruct (Re.compile text) as [re| |];
      try reflexivity.
    simpl. unfold series. rewrite map_map.
    rewrite <- (getitem_rows (fun r => match at_ k r with
                                       | Str s => Re.search re s
                                       | _ => false
                                       end)).
    f_equal. apply map_ext. intros r0.
    destruct (at_ k r0); reflexivity. }
  destruct (Py.strip query_text) as [|c s] eqn:E.
  - repeat split; discriminate.
  - rewrite Q. repeat split.
    + intros md r H Hr. apply handle_matched in H.
      destruct (Re.compile (String c s)); try discriminate.
      injection H as <-. simpl in Hr. apply filter_In in Hr.
      destruct Hr as [_ Hr]. destruct (at_ k r); try discriminate. eauto.
    + destruct (Re.compile (String c s)); discriminate.
    + destruct (Re.compile (String c s)); try discriminate. reflexivity.
    + intros Hp. rewrite (compile_plain _ Hp). simpl.
      unfold Spec.kept. do 2 f_equal. apply filter_ext. intros r.
      destruct (at_ k r); try reflexivity.
      apply (search_lit (String c s)).
Qed.

End Lookup.

(** *** The lookup on the sample sheet *)

Section LookupExamples.

(** C9.  The fuzzy lookup reads the text as a regular expression.  The
    text "3.8" compiles to an expression, and the lookup by identifier
    shows exactly the rows whose identifier (in decimal) the expression
    finds: 30884 and 3184, neither of which contains the text "3.8",
    and not 300884, which the expression does not find.  Likewise the
    lookup by name of "ab." shows the row named "abc", which does not
    contain the text, and not the row named "a.c". *)
Theorem fuzzy_lookup_reads_a_pattern :
  (exists (query_text : string) (re : Re.regex) (md : DataFrame),
      In "."%char (list_ascii_of_string query_text)
      /\ Re.compile query_text = Re.Compiled re
      /\ query companies query_text by_code fuzzy = matched md
      /\ md = Spec.kept companies
                        (fun r => match at_ 0 r with
                                  | Int z => Re.search re (Py.str z)
                                  | _ => false
                                  end)
      /\ map (at_ 0) (rows md) = [Int 30884; Int 3184]
      /\ Py.contains query_text (Py.str 30884) = false
      /\ Py.contains query_text (Py.str 3184) = false
      /\ In (Int 300884) (series companies 0)
      /\ Re.search re (Py.str 300884) = false)
  /\ (exists (query_text : string) (re : Re.regex) (md : DataFrame),
         In "."%char (list_ascii_of_string query_text)
         /\ Re.compile query_text = Re.Compiled re
         /\ query companies query_text by_name fuzzy = matched md
         /\ md = Spec.kept companies
                           (fun r => match at_ 1 r with
                                     | Str x => Re.search re x
                                     | _ => false
                                     end)
         /\ map (at_ 1) (rows md) = [Str "abc"]
         /\ Py.contains query_text "abc" = false
         /\ In (Str "a.c") (series companies 1)
         /\ Re.search re "a.c" = false).
Proof.
  split.
  - exists "3.8". eexists. eexists. split; [simpl; tauto|].
    split; [vm_compute; reflexivity|].
    split; [vm_compute; reflexivity|].
    split; [vm_compute; reflexivity|].
    split; [reflexivity|]. split; [reflexivity|]. split; [reflexivity|].
    split; [right; left; reflexivity|vm_compute; reflexivity].
  - exists "ab.". eexists. eexists. split; [simpl; tauto|].
    split; [vm_compute; reflexivity|].
    split; [vm_compute; reflexivity|].
    split; [vm_compute; reflexivity|].
    split; [reflexivity|]. split; [reflexivity|].
    split; [right; right; left; reflexivity|vm_compute; reflexivity].
Qed.


(** C7 fails as stated: for the text "a.c" the script shows the company
    named "abc", whose name does not contain "a.c"; and on a sheet whose
    names are all missing the lookup stops on an error. *)
Lemma lookup_name_fuzzy_counterexample :
  company_names (query companies "a.c" by_name fuzzy) = [Str "abc"; Str "a.c"]
  /\ Py.contains "a.c" "abc" = false
  /\ query nameless "a" by_name fuzzy = error_query_failed.
Proof. repeat split; vm_compute; reflexivity. Qed.



Lemma lookup_name_exact_witness :
  query companies "abc" by_name exact
  = matched (Spec.kept companies (fun r => eq_str "abc" (at_ 1 r))).
Proof.
  exact (proj1 (lookup_name_exact companies "abc" 1 eq_refl)).
Defined.

Lemma companies_well_typed : well_typed companies.
Proof. repeat constructor. Qed.


Lemma lookup_name_fuzzy_witness :
  query companies "bc" by_name fuzzy
  = matched (Spec.kept companies
               (fun r => match at_ 1 r with
                         | Str s => Py.contains "bc" s
                         | _ => false
                         end)).
Proof.
  exact (proj2 (proj2 (proj2
           (lookup_name_fuzzy companies "bc" 1 eq_refl eq_refl))) eq_refl).
Defined.

End LookupExamples.

(** ** The order of text *)

Section TextOrder.

Lemma ascii_compare_lt (a b : ascii) :
  Ascii.compare a b = Lt <-> (N_of_ascii a < N_of_ascii b)%N.
Proof. unfold Ascii.compare. apply N.compare_lt_iff. Qed.

Lemma ascii_compare_eq (a b : ascii) : Ascii.compare a b = Eq <-> a = b.
Proof.
  split; [apply Ascii.compare_eq_iff|].
  intros ->. unfold Ascii.compare. apply N.compare_refl.
Qed.

Lemma compare_refl (s : string) : String.compare s s = Eq.
Proof.
  induction s as [|a s IH]; simpl; [reflexivity|].
  rewrite (proj2 (ascii_compare_eq a a) eq_refl). exact IH.
Qed.

Lemma compare_lt_trans (s1 : string) :
  forall s2 s3, String.compare s1 s2 = Lt -> String.compare s2 s3 = Lt ->
                String.compare s1 s3 = Lt.
Proof.
  induction s1 as [|a s1 IH]; intros [|b s2] [|c s3]; simpl;
    try discriminate; try reflexivity.
  destruct (Ascii.compare a b) eqn:Eab; try discriminate;
    destruct (Ascii.compare b c) eqn:Ebc; try discriminate; intros H1 H2.
  - apply ascii_compare_eq in Eab. apply ascii_compare_eq in Ebc. subst.
    rewrite (proj2 (ascii_compare_eq c c) eq_refl). eapply IH; eassumption.
  - apply ascii_compare_eq in Eab. subst. rewrite Ebc. reflexivity.
  - apply ascii_compare_eq in Ebc. subst. rewrite Eab. reflexivity.
  - pose proof (proj1 (ascii_compare_lt a b) Eab).
    pose proof (proj1 (ascii_compare_lt b c) Ebc).
    rewrite (proj2 (ascii_compare_lt a c)) by lia. reflexivity.
Qed.

Lemma ltb_lt (s1 s2 : string) :
  String.ltb s1 s2 = true <-> String.compare s1 s2 = Lt.
Proof.
  unfold String.ltb. destruct (String.compare s1 s2);
    split; intros H; try discriminate; reflexivity.
Qed.

Lemma ltb_trans (s1 s2 s3 : string) :
  String.ltb s1 s2 = true -> String.ltb s2 s3 = true ->
  String.ltb s1 s3 = true.
Proof. rewrite !ltb_lt. apply compare_lt_trans. Qed.


(** Two different texts are ordered one way or the other. *)
Lemma ltb_connex (s1 s2 : string) :
  String.eqb s1 s2 = false -> String.ltb s1 s2 = false ->
  String.ltb s2 s1 = true.
Proof.
  intros Hne Hlt. unfold String.ltb in *.
  rewrite String.compare_antisym.
  destruct (String.compare s1 s2) eqn:E; simpl; try reflexivity;
    try discriminate.
  apply String.compare_eq_iff in E. subst.
  rewrite String.eqb_refl in Hne. discriminate.
Qed.

End TextOrder.

(** ** The groups of [groupby] *)

Section GroupKeys.

Lemma insert_key_In (k : string) (ks : list string) (x : string) :
  In x (insert_key k ks) <-> x = k \/ In x ks.
Proof.
  induction ks as [|h t IH]; simpl; [intuition|].
  destruct (String.eqb k h) eqn:E.
  - apply String.eqb_eq in E. subst h. simpl. intuition.
  - destruct (String.ltb k h); simpl; [intuition|].
    rewrite IH. intuition.
Qed.

Lemma insert_key_sorted (k : string) (ks : list string) :
  StronglySorted Spec.ascending ks -> StronglySorted Spec.ascending (insert_key k ks).
Proof.
  induction 1 as [|h t Ht IH Hh]; simpl.
  - repeat constructor.
  - destruct (String.eqb k h) eqn:E; [constructor; assumption|].
    destruct (String.ltb k h) eqn:L.
    + constructor; [constructor; assumption|].
      constructor; [exact L|].
      rewrite Forall_forall in *. intros x Hx.
      eapply ltb_trans; [exact L|]. apply Hh. exact Hx.
    + constructor; [exact IH|].
      rewrite Forall_forall in *. intros x Hx.
      apply insert_key_In in Hx. destruct Hx as [->|Hx].
      * apply ltb_connex; assumption.
      * apply Hh. exact Hx.
Qed.

Lemma group_keys_from (ks : list (option string)) :
  forall acc,
    StronglySorted Spec.ascending acc ->
    let out := fold_left (fun acc k => match k with
                                       | Some s => insert_key s acc
                                       | None => acc
                                       end) ks acc in
    StronglySorted Spec.ascending out
    /\ forall g, In g out <-> In g acc \/ In (Some g) ks.
Proof.
  induction ks as [|k ks IH]; simpl; intros acc Hacc.
  - split; [exact Hacc|]. intuition.
  - destruct k as [s|].
    + destruct (IH (insert_key s acc) (insert_key_sorted s acc Hacc))
        as [H1 H2].
      split; [exact H1|]. intros g. rewrite H2, insert_key_In.
      split; [intros [[->|H]|H]; auto|].
      intros [H|[H|H]]; auto. injection H as ->. auto.
    + destruct (IH acc Hacc) as [H1 H2].
      split; [exact H1|]. intros g. rewrite H2.
      split; [intros [H|H]; auto|].
      intros [H|[H|H]]; auto. discriminate.
Qed.

(** The groups are the values present, each once, in ascending order. *)
Lemma group_keys_sorted (ks : list (option string)) :
  StronglySorted Spec.ascending (group_keys ks)
  /\ forall g, In g (group_keys ks) <-> In (Some g) ks.
Proof.
  destruct (group_keys_from ks [] (SSorted_nil _)) as [H1 H2].
  split; [exact H1|]. intros g. unfold group_keys. rewrite H2.
  simpl. intuition.
Qed.


End GroupKeys.

(** ** Sequences of fallible steps *)

Section MapM.

Context {A B : Type}.
Variable f : A -> result B.

Lemma mapM_total (g : A -> B) (l : list A) :
  (forall a, In a l -> f a = Ok (g a)) -> mapM f l = Ok (map g l).
Proof.
  induction l as [|a l IH]; simpl; intros H; [reflexivity|].
  rewrite (H a (or_introl eq_refl)). simpl.
  rewrite IH by (intros a' Ha'; apply H; right; exact Ha').
  reflexivity.
Qed.

Lemma mapM_exists (l : list A) :
  (forall a, In a l -> exists b, f a = Ok b) ->
  exists bs, mapM f l = Ok bs /\ Forall2 (fun a b => f a = Ok b) l bs.
Proof.
  induction l as [|a l IH]; simpl; intros H.
  - exists []. split; [reflexivity|constructor].
  - destruct (H a (or_introl eq_refl)) as [b Hb].
    destruct IH as (bs & Hbs & HF); [intros a' Ha'; apply H; right; exact Ha'|].
    exists (b :: bs). rewrite Hb. simpl. rewrite Hbs. simpl.
    split; [reflexivity|constructor; assumption].
Qed.

End MapM.

Lemma Forall2_In_r (A B : Type) (P : A -> B -> Prop) (l : list A)
      (l' : list B) :
  Forall2 P l l' -> forall b, In b l' -> exists a, In a l /\ P a b.
Proof.
  induction 1 as [|a b l l' Hab _ IH]; intros b0 Hb0; [contradiction|].
  destruct Hb0 as [<-|Hb0].
  - exists a. split; [left; reflexivity|exact Hab].
  - destruct (IH b0 Hb0) as (a0 & Ha0 & Hp). exists a0.
    split; [right; exact Ha0|exact Hp].
Qed.

(** ** The industry averages *)

Section Industry.

Variable df : DataFrame.
Variable by_ : string.
Variable kb : nat.
Variable metrics : list string.

Hypothesis typed : well_typed df.
Hypothesis labels_once : NoDup (names df).
Hypothesis by_at : position by_ (names df) = Some kb.
Hypothesis by_text : dtype_at df kb = object.
Hypothesis selected : incl metrics (numeric_columns df).

Lemma position_of_column (cols : list (string * dtype)) (c : string)
      (d : dtype) :
  NoDup (map fst cols) -> In (c, d) cols ->
  exists k, position c (map fst cols) = Some k
            /\ nth k (map snd cols) object = d.
Proof.
  induction cols as [|[c' d'] cols IH]; simpl; intros ND Hin; [contradiction|].
  inversion ND as [|? ? Hc' ND']; subst.
  destruct Hin as [E|Hin].
  - injection E as -> ->. rewrite String.eqb_refl. exists 0. split; reflexivity.
  - destruct (String.eqb c c') eqn:E.
    + apply String.eqb_eq in E. subst c'. exfalso. apply Hc'.
      apply in_map_iff. exists (c, d). split; [reflexivity|exact Hin].
    + destruct (IH ND' Hin) as (k & Hk & Hd). exists (S k).
      rewrite Hk. split; [reflexivity|exact Hd].
Qed.

(** A selected metric is a column of [df] with a numeric dtype. *)
Lemma metric_at (m : string) :
  In m metrics ->
  exists k, position m (names df) = Some k
            /\ Spec.is_numeric (dtype_at df k) = true.
Proof.
  intros Hm. apply selected in Hm.
  rewrite (numeric_columns_spec df labels_once) in Hm.
  unfold Spec.metric_columns in Hm. apply in_map_iff in Hm.
  destruct Hm as ([c d] & Ec & Hin). simpl in Ec. subst c.
  apply filter_In in Hin. destruct Hin as [Hin Hp]. simpl in Hp.
  apply andb_true_iff in Hp. destruct Hp as [Hd _].
  destruct (position_of_column (columns df) m d labels_once Hin)
    as (k & Hk & Hdk).
  exists k. split; [exact Hk|]. unfold dtype_at. rewrite Hdk. exact Hd.
Qed.

Lemma by_not_selected : ~ In by_ metrics.
Proof.
  intros Hin. destruct (metric_at by_ Hin) as (k & Hk & Hd).
  rewrite by_at in Hk. injection Hk as <-.
  rewrite by_text in Hd. discriminate.
Qed.

Lemma located (ms : list string) :
  incl ms metrics ->
  exists ks, mapM (loc df) ms = Ok ks
             /\ Forall2 (fun m k => position m (names df) = Some k
                                    /\ Spec.is_numeric (dtype_at df k) = true)
                        ms ks.
Proof.
  induction ms as [|m ms IH]; intros Hincl.
  - exists []. split; [reflexivity|constructor].
  - destruct IH as (ks & Hks & HF);
      [intros x Hx; apply Hincl; right; exact Hx|].
    destruct (metric_at m (Hincl m (or_introl eq_refl))) as (k & Hk & Hd).
    exists (k :: ks). simpl. rewrite (loc_position _ _ _ Hk). simpl.
    rewrite Hks. simpl. split; [reflexivity|]. constructor; auto.
Qed.

Lemma keys_read :
  mapM text_key (series df kb) = Ok (map Spec.text_of (series df kb)).
Proof.
  apply mapM_total. intros c Hc. unfold series in Hc.
  apply in_map_iff in Hc. destruct Hc as (r & <- & Hr).
  pose proof (typed_cell df by_ kb r typed by_at Hr) as T.
  rewrite by_text in T. destruct (at_ kb r); try discriminate; reflexivity.
Qed.

Lemma numbers_ok (s : list cell) :
  (forall c, In c s -> exists o, number c = Ok o) ->
  exists vs, numbers s = Ok vs.
Proof.
  intros H. unfold numbers.
  destruct (mapM_exists number s H) as (os & Hos & _).
  rewrite Hos. simpl. eauto.
Qed.

Lemma mean_ok (s : list cell) :
  (forall c, In c s -> exists o, number c = Ok o) ->
  exists m, mean s = Ok m.
Proof.
  intros H. unfold mean. destruct (numbers_ok s H) as (vs & ->).
  simpl. eauto.
Qed.

Lemma mapM_length (A B : Type) (f : A -> result B) (l : list A) :
  forall bs, mapM f l = Ok bs -> List.length bs = List.length l.
Proof.
  induction l as [|a l IH]; simpl; intros bs H.
  - injection H as <-. reflexivity.
  - destruct (f a); try discriminate. simpl in H.
    destruct (mapM f l) as [bs'| |]; try discriminate. simpl in H.
    injection H as <-. simpl. rewrite (IH bs' eq_refl). reflexivity.
Qed.

(** The row of one group: its name, then one mean per metric. *)
Lemma group_means_ok (ks : list nat) (g : string) :
  (forall k, In k ks -> exists m, position m (names df) = Some k
                                  /\ Spec.is_numeric (dtype_at df k) = true) ->
  exists ms, group_means df kb ks g = Ok (Str g :: ms)
             /\ List.length ms = List.length ks.
Proof.
  intros Hks. unfold group_means.
  destruct (mapM_exists
              (fun k => mean (map (at_ k)
                                  (filter (in_group kb g) (rows df)))) ks)
    as (ms & Hms & _).
  - intros k Hk. destruct (Hks k Hk) as (m & Hm & Hd).
    apply mean_ok. intros c Hc. apply in_map_iff in Hc.
    destruct Hc as (r & <- & Hr). apply filter_In in Hr.
    destruct Hr as [Hr _].
    apply (numeric_cell (dtype_at df k)); [exact Hd|].
    apply (typed_cell df m); assumption.
  - exists ms. rewrite Hms. simpl. split; [reflexivity|].
    apply (mapM_length _ _ _ _ _ Hms).
Qed.

(** The aggregation succeeds; its rows are the groups in the order of
    [group_keys], each with one mean per selected metric. *)
Lemma industry_data_ok :
  exists means,
    industry_data df by_ metrics
    = Ok {| columns := (by_, object) :: map (fun m => (m, float64)) metrics;
            rows := relabel means |}
    /\ Forall2 (fun g cs => exists ms, cs = Str g :: ms
                                       /\ List.length ms = List.length metrics)
               (group_keys (map Spec.text_of (series df kb))) means.
Proof.
  unfold industry_data, groupby_mean.
  rewrite (loc_position _ _ _ by_at). simpl.
  destruct (located metrics (incl_refl _)) as (ks & Hks & HF).
  rewrite Hks. simpl.
  destruct (mem by_ metrics) eqn:M;
    [apply mem_In in M; destruct (by_not_selected M)|].
  rewrite keys_read. simpl.
  assert (Hall : forall k, In k ks ->
                   exists m, position m (names df) = Some k
                             /\ Spec.is_numeric (dtype_at df k) = true).
  { intros k Hk. destruct (Forall2_In_r _ _ _ _ _ HF k Hk) as (m & _ & Hm).
    exists m. exact Hm. }
  assert (Hlen : List.length ks = List.length metrics).
  { apply (mapM_length _ _ _ _ _ Hks). }
  generalize (group_keys (map Spec.text_of (series df kb))) as gs.
  intros gs.
  assert (G : exists means,
             mapM (group_means df kb ks) gs = Ok means
             /\ Forall2 (fun g cs => exists ms, cs = Str g :: ms
                            /\ List.length ms = List.length metrics)
                        gs means).
  { induction gs as [|g gs IH].
    - exists []. split; [reflexivity|constructor].
    - destruct IH as (means & Hm & HF2).
      destruct (group_means_ok ks g Hall) as (ms & Hg & Hl).
      exists ((Str g :: ms) :: means). simpl. rewrite Hg. simpl.
      rewrite Hm. simpl. split; [reflexivity|].
      constructor; [|exact HF2]. exists ms. split; [reflexivity|congruence]. }
  destruct G as (means & Hm & HF2). exists means. rewrite Hm. simpl.
  split; [reflexivity|exact HF2].
Qed.

Lemma cells_relabel (css : list (list cell)) : map cells (relabel css) = css.
Proof.
  unfold relabel. rewrite map_map. simpl.
  generalize 0 as n. induction css as [|cs css IH]; intros n; simpl;
    [reflexivity|].
  rewrite IH. reflexivity.
Qed.

Lemma first_cells (gs : list string) (means : list (list cell)) :
  Forall2 (fun g cs => exists ms, cs = Str g :: ms
                                  /\ List.length ms = List.length metrics)
          gs means ->
  map (at_ 0) (relabel means) = map Str gs.
Proof.
  intros HF.
  replace (map (at_ 0) (relabel means))
    with (map (fun cs => nth 0 cs NaN) (map cells (relabel means)))
    by (rewrite map_map; reflexivity).
  rewrite cells_relabel.
  induction HF as [|g cs gs means (ms & -> & _) _ IH]; simpl;
    [reflexivity|].
  rewrite IH. reflexivity.
Qed.

(** C3, as the script has it.  The rows of the aggregation are the
    industries present in the sheet, each once, in ascending
    (alphabetical) order, whatever the order in which they appear in
    the sheet. *)
Theorem industries_in_alphabetical_order :
  exists agg groups,
    industry_data df by_ metrics = Ok agg
    /\ map (at_ 0) (rows agg) = map Str groups
    /\ StronglySorted Spec.ascending groups
    /\ forall g, In g groups <->
                 exists r, In r (rows df) /\ at_ kb r = Str g.
Proof.
  destruct industry_data_ok as (means & Hagg & HF).
  eexists. exists (group_keys (map Spec.text_of (series df kb))).
  split; [exact Hagg|]. simpl.
  destruct (group_keys_sorted (map Spec.text_of (series df kb))) as [S1 S2].
  split; [apply (first_cells _ _ HF)|]. split; [exact S1|].
  intros g. rewrite S2. unfold series. rewrite map_map, in_map_iff.
  split; intros (r & Hr1 & Hr2); exists r.
  - split; [exact Hr2|]. destruct (at_ kb r); try discriminate.
    simpl in Hr1. congruence.
  - rewrite Hr2. split; [reflexivity|exact Hr1].
Qed.

End Industry.

(** ** From the wide table to the long one and back *)

Section Reshape.





(** *** First appearances *)




(** *** Finding a record *)







(** *** The records of a melted table *)

Variable R : list row.
Variable M : list string.
Variable g : string -> nat.


Hypothesis keys_once : NoDup (map (at_ 0) R).





End Reshape.

Section Melt.

Lemma position_In (m : string) (l : list string) :
  In m l -> exists k, position m l = Some k.
Proof.
  induction l as [|h t IH]; simpl; intros H; [contradiction|].
  destruct (String.eqb m h) eqn:E; [eauto|].
  destruct H as [->|H]; [rewrite String.eqb_refl in E; discriminate|].
  destruct (IH H) as [k ->]. simpl. eauto.
Qed.



Lemma records_of_melt (g : string -> nat) (R : list row) (ms : list string) :
  map (fun cs => (nth 0 cs NaN, nth 1 cs NaN, nth 2 cs NaN))
      (flat_map (fun mk => map (fun r => [at_ 0 r; Str (fst mk);
                                          at_ (snd mk) r]) R)
                (combine ms (map g ms)))
  = flat_map (fun m => map (fun r => (at_ 0 r, Str m, at_ (g m) r)) R) ms.
Proof.
  induction ms as [|m ms IH]; simpl; [reflexivity|].
  rewrite map_app, map_map. simpl. f_equal. exact IH.
Qed.

Variable by_ : string.
Variable M : list string.
Variable R : list row.

Let wide : DataFrame :=
  {| columns := (by_, object) :: map (fun m => (m, float64)) M; rows := R |}.

Lemma names_wide : names wide = by_ :: M.
Proof.
  unfold names, wide. simpl. rewrite map_map. simpl.
  rewrite map_id. reflexivity.
Qed.

(** Melting the wide table succeeds unless a label is the name given to
    the value column; its records are, metric by metric, the key and the
    value of every row. *)
Lemma melt_wide (var_name value_name : string) :
  mem value_name (by_ :: M) = false ->
  exists long,
    melt wide by_ M var_name value_name = Ok long
    /\ Spec.long_records long
       = flat_map (fun m => map (fun r => (at_ 0 r, Str m,
                                           at_ (Spec.place m (by_ :: M)) r)) R)
                  M.
Proof.
  intros Hv. unfold melt. rewrite names_wide, Hv.
  assert (L0 : loc wide by_ = Ok 0).
  { unfold loc. rewrite names_wide. simpl. rewrite String.eqb_refl.
    reflexivity. }
  rewrite L0. simpl.
  assert (Lk : mapM (loc wide) M
               = Ok (map (fun m => Spec.place m (by_ :: M)) M)).
  { apply mapM_total. intros m Hm. unfold loc, Spec.place.
    rewrite names_wide.
    destruct (position_In m (by_ :: M) (or_intror Hm)) as [k ->].
    reflexivity. }
  rewrite Lk. simpl. eexists. split; [reflexivity|].
  unfold Spec.long_records. simpl.
  assert (E : forall rs,
             map (fun r => (at_ 0 r, at_ 1 r, at_ 2 r)) rs
             = map (fun cs => (nth 0 cs NaN, nth 1 cs NaN, nth 2 cs NaN))
                   (map cells rs))
    by (intros rs; rewrite map_map; reflexivity).
  rewrite E, cells_relabel.
  apply (records_of_melt (fun m => Spec.place m (by_ :: M))).
Qed.

End Melt.

Section RoundTrip.

Variable df : DataFrame.
Variable by_ : string.
Variable kb : nat.
Variable metrics : list string.

Hypothesis typed : well_typed df.
Hypothesis labels_once : NoDup (names df).
Hypothesis detected : industry_column df = Some by_.
Hypothesis by_at : position by_ (names df) = Some kb.
Hypothesis by_text : dtype_at df kb = object.
Hypothesis selected : incl metrics (numeric_columns df).
Hypothesis selected_once : NoDup metrics.
Hypothesis some_selected : metrics <> [].




End RoundTrip.

(** ** The range of the radar chart *)

Section RadarRange.

Lemma Qmin_pick (x y : Q) : Qmin x y = x \/ Qmin x y = y.
Proof.
  unfold Qmin, GenericMinMax.gmin. destruct (x ?= y)%Q; auto.
Qed.

Lemma Qmax_pick (x y : Q) : Qmax x y = x \/ Qmax x y = y.
Proof.
  unfold Qmax, GenericMinMax.gmax. destruct (x ?= y)%Q; auto.
Qed.

Lemma fold_Qmin (xs : list Q) :
  forall x, In (fold_left Qmin xs x) (x :: xs)
            /\ forall q, In q (x :: xs) -> (fold_left Qmin xs x <= q)%Q.
Proof.
  induction xs as [|y xs IH]; intros x; simpl.
  - split; [auto|]. intros q [<-|[]]. apply Qle_refl.
  - destruct (IH (Qmin x y)) as [H1 H2]. split.
    + destruct H1 as [H1|H1]; [|auto].
      rewrite <- H1. destruct (Qmin_pick x y) as [->| ->]; auto.
    + intros q [<-|[<-|Hq]].
      * eapply Qle_trans; [apply H2; left; reflexivity|apply Q.le_min_l].
      * eapply Qle_trans; [apply H2; left; reflexivity|apply Q.le_min_r].
      * apply H2. right. exact Hq.
Qed.

Lemma fold_Qmax (xs : list Q) :
  forall x, In (fold_left Qmax xs x) (x :: xs)
            /\ forall q, In q (x :: xs) -> (q <= fold_left Qmax xs x)%Q.
Proof.
  induction xs as [|y xs IH]; intros x; simpl.
  - split; [auto|]. intros q [<-|[]]. apply Qle_refl.
  - destruct (IH (Qmax x y)) as [H1 H2]. split.
    + destruct H1 as [H1|H1]; [|auto].
      rewrite <- H1. destruct (Qmax_pick x y) as [->| ->]; auto.
    + intros q [<-|[<-|Hq]].
      * eapply Qle_trans; [apply Q.le_max_l|apply H2; left; reflexivity].
      * eapply Qle_trans; [apply Q.le_max_r|apply H2; left; reflexivity].
      * apply H2. right. exact Hq.
Qed.

(** C2, as the script has it.  Whatever the sign of the values, the
    lower end of the range is the least value times 0.9 and the upper
    end the greatest value times 1.1.  For the values 10, 20, 30 the
    range is (9, 33); for the values -5, 10 it is (-4.5, 11). *)
Theorem radar_range_scales_both_ends (long : DataFrame) (k : nat)
        (vs : list Q) :
  position "平均值" (names long) = Some k ->
  numbers (series long k) = Ok vs ->
  vs <> [] ->
  (exists lo hi,
      In lo vs /\ In hi vs
      /\ (forall q, In q vs -> (lo <= q)%Q /\ (q <= hi)%Q)
      /\ min_val long = Ok (Float (lo * (9 # 10))%Q)
      /\ max_val long = Ok (Float (hi * (11 # 10))%Q))
  /\ (exists lo hi,
         radialaxis_range gains "行业" ["数字化转型总指数"]
         = Ok (Float lo, Float hi)
         /\ (lo == 9)%Q /\ (hi == 33)%Q)
  /\ (exists lo hi,
         radialaxis_range losses "行业" ["数字化转型总指数"]
         = Ok (Float lo, Float hi)
         /\ (lo == - (9 # 2))%Q /\ (hi == 11)%Q).
Proof.
  intros P Hvs Hne. split; [|split].
  - destruct vs as [|x xs]; [contradiction|].
    destruct (fold_Qmin xs x) as [M1 M2].
    destruct (fold_Qmax xs x) as [N1 N2].
    exists (fold_left Qmin xs x), (fold_left Qmax xs x).
    split; [exact M1|]. split; [exact N1|].
    split; [intros q Hq; split; [apply M2|apply N2]; exact Hq|].
    unfold min_val, max_val, min, max.
    rewrite (loc_position _ _ _ P). simpl. rewrite Hvs. simpl.
    split; reflexivity.
  - eexists. eexists. split; [vm_compute; reflexivity|].
    split; reflexivity.
  - eexists. eexists. split; [vm_compute; reflexivity|].
    split; reflexivity.
Qed.

(** C2 fails as stated: for the values -5 and 10 the lower end of the
    range is -4.5, not -5. *)
Lemma radar_range_counterexample :
  exists lo hi,
    radialaxis_range losses "行业" ["数字化转型总指数"] = Ok (Float lo, Float hi)
    /\ (lo == - (9 # 2))%Q /\ ~ (lo == - (5 # 1))%Q /\ (hi == 11)%Q.
Proof.
  eexists. eexists. split; [vm_compute; reflexivity|].
  split; [reflexivity|]. split; [|reflexivity].
  intros H. vm_compute in H. discriminate.
Qed.

End RadarRange.

(** ** The insertion loop of numpy's quicksort *)

Section InsertionLoop.

Context {A : Type}.
Variable less : A -> A -> bool.
Variable v : nat -> A.

Let lt (i j : nat) : bool := less (v i) (v j).

Lemma get_middle (l1 l2 : list nat) (y : nat) :
  Np.get (l1 ++ y :: l2) (List.length l1) = y.
Proof. unfold Np.get. apply nth_middle. Qed.

Lemma set_middle (l1 l2 : list nat) (y x : nat) :
  Np.set (l1 ++ y :: l2) (List.length l1) x = l1 ++ x :: l2.
Proof.
  induction l1 as [|h l1 IH]; simpl; [reflexivity|].
  rewrite IH. reflexivity.
Qed.

(** The inner loop moves the entries greater than the new one up by one
    place and stores the new one below them. *)
Lemma shift_spec (k : nat) :
  forall (pre post : list nat) (y x : nat),
    List.length pre = k ->
    Np.shift less v (pre ++ y :: post) 0 k x
    = rev (Np.place_in lt x (rev pre)) ++ post.
Proof.
  induction k as [|k IH]; intros pre post y x Hk.
  - destruct pre; [reflexivity|discriminate].
  - destruct (exists_last (l := pre)) as (pre' & p & ->);
      [intros ->; discriminate|].
    rewrite length_app in Hk. simpl in Hk.
    assert (Hk' : List.length pre' = k) by lia. clear Hk. subst k.
    simpl Np.shift. rewrite rev_app_distr. simpl rev. simpl Np.place_in.
    rewrite <- app_assoc. simpl app.
    rewrite get_middle. unfold lt.
    destruct (less (v x) (v p)).
    + replace (pre' ++ p :: y :: post) with ((pre' ++ [p]) ++ y :: post)
        by (rewrite <- app_assoc; reflexivity).
      replace (S (List.length pre')) with (List.length (pre' ++ [p]))
        by (rewrite length_app; simpl; lia).
      rewrite set_middle. rewrite <- app_assoc. simpl app.
      rewrite (IH pre' (p :: post) p x eq_refl).
      simpl rev. rewrite <- app_assoc. reflexivity.
    + replace (pre' ++ p :: y :: post) with ((pre' ++ [p]) ++ y :: post)
        by (rewrite <- app_assoc; reflexivity).
      replace (S (List.length pre')) with (List.length (pre' ++ [p]))
        by (rewrite length_app; simpl; lia).
      rewrite set_middle. simpl rev. rewrite rev_involutive.
      rewrite <- !app_assoc. reflexivity.
Qed.

Lemma place_in_length (E : Type) (f : E -> E -> bool) (e : E) (rp : list E) :
  List.length (Np.place_in f e rp) = S (List.length rp).
Proof.
  induction rp as [|p t IH]; simpl; [reflexivity|].
  destruct (f e p); simpl; [rewrite IH|]; reflexivity.
Qed.

End InsertionLoop.

(** ** Comparing values, and reversing a sorted list *)

Section Reversal.

Context {E : Type}.

Lemma Qltb_lt (a b : Q) : Qltb a b = true <-> (a < b)%Q.
Proof.
  unfold Qltb. rewrite negb_true_iff. split.
  - intros H. apply Qnot_le_lt. intros L.
    apply Qle_bool_iff in L. congruence.
  - intros H. destruct (Qle_bool b a) eqn:L; [|reflexivity].
    apply Qle_bool_iff in L. exfalso. exact (Qlt_not_le _ _ H L).
Qed.

Lemma sorted_rev (R : E -> E -> Prop) (l : list E) :
  StronglySorted (fun a b => R b a) l -> StronglySorted R (rev l).
Proof.
  induction 1 as [|a l Hl IH Ha]; simpl; [constructor|].
  assert (G : forall l1, StronglySorted R l1 ->
                         Forall (fun b => R b a) l1 ->
                         StronglySorted R (l1 ++ [a])).
  { induction 1 as [|b l1 Hl1 IH1 Hb]; simpl; intros HF.
    - repeat constructor.
    - inversion HF as [|? ? Hba HF']; subst.
      constructor; [apply IH1; exact HF'|].
      apply Forall_app. split; [exact Hb|]. repeat constructor. exact Hba. }
  apply G; [exact IH|].
  rewrite Forall_forall in *. intros b Hb. apply Ha.
  apply in_rev. exact Hb.
Qed.

End Reversal.

(** ** Sorted lists *)

Section SortedLists.

Context {X : Type}.

Lemma sorted_app (R : X -> X -> Prop) (l1 l2 : list X) :
  StronglySorted R l1 -> StronglySorted R l2 ->
  (forall a b, In a l1 -> In b l2 -> R a b) ->
  StronglySorted R (l1 ++ l2).
Proof.
  induction 1 as [|a l1 Hl1 IH Ha]; simpl; intros H2 Hc; [exact H2|].
  constructor.
  - apply IH; [exact H2|]. intros x y Hx Hy. apply Hc; [right|]; assumption.
  - apply Forall_app. split; [exact Ha|].
    rewrite Forall_forall. intros y Hy. apply Hc; [left; reflexivity|exact Hy].
Qed.

Lemma sorted_weaken (R R' : X -> X -> Prop) (l : list X) :
  StronglySorted R l ->
  (forall a b, In a l -> In b l -> R a b -> R' a b) ->
  StronglySorted R' l.
Proof.
  induction 1 as [|a l Hl IH Ha]; intros HR; constructor.
  - apply IH. intros x y Hx Hy. apply HR; right; assumption.
  - rewrite Forall_forall in *. intros y Hy.
    apply HR; [left; reflexivity|right; exact Hy|apply Ha; exact Hy].
Qed.

Lemma sorted_map (Y : Type) (f : X -> Y) (R : Y -> Y -> Prop) (l : list X) :
  StronglySorted (fun a b => R (f a) (f b)) l -> StronglySorted R (map f l).
Proof.
  induction 1 as [|a l Hl IH Ha]; simpl; constructor; [exact IH|].
  rewrite Forall_forall in *. intros y Hy. apply in_map_iff in Hy.
  destruct Hy as (x & <- & Hx). apply Ha. exact Hx.
Qed.

Lemma filter_split_perm (f : X -> bool) (l : list X) :
  Permutation (filter f l ++ filter (fun x => negb (f x)) l) l.
Proof.
  induction l as [|a l IH]; simpl; [reflexivity|].
  destruct (f a); simpl.
  - constructor. exact IH.
  - rewrite <- Permutation_middle. constructor. exact IH.
Qed.

Lemma nth_all (d : X) (l : list X) :
  forall pre,
    map (fun j => nth j (pre ++ l) d) (seq (List.length pre) (List.length l))
    = l.
Proof.
  induction l as [|x l IH]; intros pre; simpl; [reflexivity|].
  rewrite nth_middle. f_equal.
  replace (pre ++ x :: l) with ((pre ++ [x]) ++ l)
    by (rewrite <- app_assoc; reflexivity).
  replace (S (List.length pre)) with (List.length (pre ++ [x]))
    by (rewrite length_app; simpl; lia).
  apply IH.
Qed.

End SortedLists.

(** ** The values of a column and their places *)

Section Valued.

Lemma positions_pairs (L : list (nat * Q)) (I : list nat) :
  map (fun j => nth j (map fst L) 0) I
  = map fst (map (fun j => nth j L (0, 0%Q)) I).
Proof.
  rewrite map_map. apply map_ext. intros j.
  rewrite <- (map_nth fst). reflexivity.
Qed.

Lemma numbers_valued (items : list cell) :
  forall s os, mapM number items = Ok os ->
               present os = map snd (Spec.valued s items).
Proof.
  induction items as [|c items IH]; simpl; intros s os H.
  - injection H as <-. reflexivity.
  - destruct c; simpl in H; try discriminate;
      destruct (mapM number items) as [os'| |]; try discriminate;
      simpl in H; injection H as <-; simpl;
      rewrite (IH (S s) os' eq_refl); reflexivity.
Qed.

Lemma positions_valued (items : list cell) :
  forall pre os,
    mapM number items = Ok os ->
    filter (fun i => negb (isna (nth i (pre ++ items) NaN)))
           (seq (List.length pre) (List.length items))
    = map fst (Spec.valued (List.length pre) items).
Proof.
  induction items as [|c items IH]; intros pre os H; [reflexivity|].
  simpl seq. simpl filter. rewrite nth_middle.
  simpl in H. destruct (number c) as [o| |] eqn:Hc; try discriminate.
  simpl in H. destruct (mapM number items) as [os'| |] eqn:Hi;
    try discriminate.
  assert (Hrest :
            filter (fun i => negb (isna (nth i (pre ++ c :: items) NaN)))
                   (seq (S (List.length pre)) (List.length items))
            = map fst (Spec.valued (S (List.length pre)) items)).
  { replace (pre ++ c :: items) with ((pre ++ [c]) ++ items)
      by (rewrite <- app_assoc; reflexivity).
    replace (S (List.length pre)) with (List.length (pre ++ [c]))
      by (rewrite length_app; simpl; lia).
    apply (IH (pre ++ [c]) os' eq_refl). }
  rewrite Hrest. destruct c; simpl in Hc; try discriminate; reflexivity.
Qed.

Lemma valued_key (items : list cell) :
  forall pre p x,
    In (p, x) (Spec.valued (List.length pre) items) ->
    Spec.rank_key (pre ++ items) p = Some x.
Proof.
  induction items as [|c items IH]; simpl; intros pre p x H; [contradiction|].
  assert (Hrest : In (p, x) (Spec.valued (S (List.length pre)) items) ->
                  Spec.rank_key (pre ++ c :: items) p = Some x).
  { intros H'.
    replace (pre ++ c :: items) with ((pre ++ [c]) ++ items)
      by (rewrite <- app_assoc; reflexivity).
    apply IH. rewrite length_app. simpl.
    replace (List.length pre + 1) with (S (List.length pre)) by lia.
    exact H'. }
  destruct c; try (apply Hrest; exact H);
    (destruct H as [H|H]; [|apply Hrest; exact H]);
    injection H as <- <-; unfold Spec.rank_key; rewrite nth_middle;
    reflexivity.
Qed.

End Valued.

(** ** The sample sheets *)

Section Examples.

Lemma companies_labels_once : NoDup (names companies).
Proof. repeat constructor; simpl; intuition discriminate. Qed.

Lemma companies_selection :
  incl ["数字化转型总指数"; "技术应用"] (numeric_columns companies).
Proof. intros m Hm. exact Hm. Qed.

(** C3 fails as stated: in the sheet the industries appear in the order
    retail, banking; the aggregation lists banking, then retail. *)
Lemma industries_counterexample :
  exists agg,
    industry_data companies "行业" ["数字化转型总指数"; "技术应用"] = Ok agg
    /\ map (at_ 0) (rows agg) = [Str "banking"; Str "retail"]
    /\ Spec.first_seen (series companies 2) = [Str "retail"; Str "banking"].
Proof. eexists. repeat split; vm_compute; reflexivity. Qed.

Lemma industries_in_alphabetical_order_witness :
  exists agg groups,
    industry_data companies "行业" ["数字化转型总指数"; "技术应用"] = Ok agg
    /\ map (at_ 0) (rows agg) = map Str groups
    /\ StronglySorted Spec.ascending groups
    /\ forall g, In g groups <->
                 exists r, In r (rows companies) /\ at_ 2 r = Str g.
Proof.
  exact (industries_in_alphabetical_order
           companies "行业" 2 ["数字化转型总指数"; "技术应用"]
           companies_well_typed companies_labels_once eq_refl eq_refl
           companies_selection).
Defined.



Lemma radar_range_scales_both_ends_witness :
  exists lo hi,
    In lo [10; 20; 30]%Q /\ In hi [10; 20; 30]%Q
    /\ (forall q, In q [10; 20; 30]%Q -> (lo <= q)%Q /\ (q <= hi)%Q)
    /\ min_val long_gains = Ok (Float (lo * (9 # 10))%Q)
    /\ max_val long_gains = Ok (Float (hi * (11 # 10))%Q).
Proof.
  apply (radar_range_scales_both_ends long_gains 2 [10; 20; 30]%Q);
    [reflexivity|reflexivity|discriminate].
Defined.

End Examples.

(* ================================================================== *)
(** * The rest of the script: loading, selectors, charts and runs *)

(** ** Loading the sheet *)

Section Loading.

Lemma names_rename (old new : string) (df : DataFrame) :
  names (rename old new df)
  = map (fun c => if String.eqb c old then new else c) (names df).
Proof.
  unfold names, rename. simpl. rewrite !map_map. apply map_ext.
  intros [c d]. simpl. destruct (String.eqb c old); reflexivity.
Qed.

Lemma rename_dtypes (old new : string) (df : DataFrame) :
  map snd (columns (rename old new df)) = map snd (columns df).
Proof.
  unfold rename. simpl. rewrite map_map. apply map_ext.
  intros [c d]. simpl. destruct (String.eqb c old); reflexivity.
Qed.

Lemma row_typed_dtypes (cols cols' : list (string * dtype)) (r : row) :
  map snd cols = map snd cols' -> row_typed cols r -> row_typed cols' r.
Proof.
  unfold row_typed. generalize (cells r) as cs. revert cols'.
  induction cols as [|cd cols IH]; intros [|cd' cols'] cs E H;
    try discriminate; inversion H; subst; constructor.
  - simpl in E. injection E as E1 E2. rewrite <- E1. assumption.
  - simpl in E. injection E as E1 E2. apply IH; assumption.
Qed.

(** X4.  [load_data] returns a dataset exactly when the sheet has a
    column labelled ["股票代码"] or ["Unnamed: 0"].  The dataset has the
    rows and the dtypes of the sheet, its labels are the sheet's with
    ["Unnamed: 0"] replaced by ["股票代码"], so it has a column
    ["股票代码"] and none labelled ["Unnamed: 0"], and it is well typed
    when the sheet is; a sheet without a column ["Unnamed: 0"] is
    returned as it is. *)
Theorem load_data_normalises_the_code_column (sheet : DataFrame) :
  match load_data sheet with
  | Some df =>
      names df = map (fun c => if String.eqb c "Unnamed: 0" then CODE else c)
                     (names sheet)
      /\ In CODE (names df)
      /\ ~ In "Unnamed: 0" (names df)
      /\ rows df = rows sheet
      /\ map snd (columns df) = map snd (columns sheet)
      /\ (well_typed sheet -> well_typed df)
      /\ (~ In "Unnamed: 0" (names sheet) -> df = sheet)
  | None => ~ In CODE (names sheet) /\ ~ In "Unnamed: 0" (names sheet)
  end.
Proof.
  unfold load_data.
  destruct (mem "Unnamed: 0" (names sheet)) eqn:U.
  - assert (C : mem CODE (names (rename "Unnamed: 0" CODE sheet)) = true).
    { apply mem_In. rewrite names_rename. apply mem_In in U.
      apply in_map_iff. exists "Unnamed: 0". split; [reflexivity|exact U]. }
    rewrite C. split; [apply names_rename|]. split; [apply mem_In; exact C|].
    split.
    { rewrite names_rename. intros H. apply in_map_iff in H.
      destruct H as (c & E & _).
      destruct (String.eqb c "Unnamed: 0") eqn:Ec; [discriminate|].
      subst c. rewrite String.eqb_refl in Ec. discriminate. }
    split; [reflexivity|]. split; [apply rename_dtypes|]. split.
    + unfold well_typed. simpl. intros W. rewrite Forall_forall in *.
      intros r Hr. specialize (W r Hr).
      apply (row_typed_dtypes (columns sheet)); [|exact W].
      symmetry. apply (rename_dtypes "Unnamed: 0" CODE sheet).
    + intros H. apply mem_In in U. contradiction.
  - destruct (mem CODE (names sheet)) eqn:C.
    + split.
      { symmetry. rewrite <- (map_id (names sheet)) at 2.
        apply map_ext_in. intros c Hc.
        destruct (String.eqb c "Unnamed: 0") eqn:Ec; [|reflexivity].
        apply String.eqb_eq in Ec. subst c. apply mem_In in Hc. congruence. }
      split; [apply mem_In; exact C|].
      split; [intros H; apply mem_In in H; congruence|].
      repeat split; auto.
    + split; intros H; apply mem_In in H; congruence.
Qed.

End Loading.

(** ** The selectors of the charts *)

Section Selectors.

Lemma position_nth_error (x : string) (l : list string) :
  forall k, position x l = Some k -> nth_error l k = Some x.
Proof.
  induction l as [|h t IH]; simpl; intros k H; [discriminate|].
  destruct (String.eqb x h) eqn:E.
  - injection H as <-. apply String.eqb_eq in E. subst. reflexivity.
  - destruct (position x t) as [j|]; [|discriminate].
    injection H as <-. simpl. apply IH. reflexivity.
Qed.

(** [l.index(x)] finds a member of [l] at its place. *)
Lemma index_member (x : string) (l : list string) :
  mem x l = true -> exists k, index x l = Ok k /\ nth_error l k = Some x.
Proof.
  intros M. apply mem_In in M. destruct (position_In x l M) as [k Hk].
  exists k. unfold index. rewrite Hk. split; [reflexivity|].
  apply position_nth_error. exact Hk.
Qed.

(** X5.  The selectors never fail on their [index=] argument: with at
    least two numeric columns, the two selectors of the scatter plot
    open on [x_default] and [y_default], both numeric columns; with at
    least one, the selector of the ranking opens on the metric of the
    histogram (the total index when it is a numeric column, the first
    numeric column otherwise). *)
Theorem selectors_open_on_their_defaults (numeric_columns : list string) :
  (2 <= List.length numeric_columns ->
   exists x_default y_default ix iy,
     scatter_defaults numeric_columns = Some (x_default, y_default)
     /\ scatter_index numeric_columns = Ok (Some (ix, iy))
     /\ nth_error numeric_columns ix = Some x_default
     /\ nth_error numeric_columns iy = Some y_default)
  /\ (1 <= List.length numeric_columns ->
      exists metric i,
        default_metric numeric_columns = Some metric
        /\ ranking_index numeric_columns = Ok i
        /\ nth_error numeric_columns i = Some metric).
Proof.
  split.
  - destruct numeric_columns as [|first [|second rest]];
      simpl List.length; try lia. intros _.
    unfold scatter_index, scatter_defaults. cbv beta iota.
    set (nc := first :: second :: rest).
    set (x := if mem TOTAL nc then TOTAL else first).
    set (y := if mem "技术应用" nc then "技术应用" else second).
    assert (Hx : mem x nc = true).
    { unfold x. destruct (mem TOTAL nc) eqn:M; [exact M|].
      apply mem_In. left. reflexivity. }
    assert (Hy : mem y nc = true).
    { unfold y. destruct (mem "技术应用" nc) eqn:M; [exact M|].
      apply mem_In. right. left. reflexivity. }
    destruct (index_member x _ Hx) as (ix & Ix & Nx).
    destruct (index_member y _ Hy) as (iy & Iy & Ny).
    exists x, y, ix, iy. rewrite Ix, Hy, Iy. simpl. auto.
  - destruct numeric_columns as [|first rest]; simpl List.length;
      try lia. intros _.
    unfold default_metric, ranking_index. cbv beta iota.
    set (nc := first :: rest).
    destruct (mem TOTAL nc) eqn:M.
    + destruct (index_member TOTAL _ M) as (i & Ii & Ni).
      exists TOTAL, i. auto.
    + exists first, 0. auto.
Qed.

(** X6.  On numeric columns with distinct labels, the two axes of the
    scatter plot open on the same metric in two cases only: technology
    use is no numeric column and the total index is the second one, or
    the total index is no numeric column and technology use is the
    first one. *)
Theorem scatter_axes_open_on_one_metric (numeric_columns : list string)
        (x_default y_default : string) :
  NoDup numeric_columns ->
  scatter_defaults numeric_columns = Some (x_default, y_default) ->
  (x_default = y_default <->
   (mem "技术应用" numeric_columns = false
    /\ nth_error numeric_columns 1 = Some TOTAL)
   \/ (mem TOTAL numeric_columns = false
       /\ nth_error numeric_columns 0 = Some "技术应用")).
Proof.
  intros ND. unfold scatter_defaults.
  destruct numeric_columns as [|first [|second rest]]; try discriminate.
  set (nc := first :: second :: rest) in *.
  assert (Hne : first <> second).
  { inversion ND as [|? ? H _]; subst. intros ->. apply H. left. reflexivity. }
  assert (H0 : nth_error nc 0 = Some first) by reflexivity.
  assert (H1 : nth_error nc 1 = Some second) by reflexivity.
  rewrite H0, H1.
  destruct (mem TOTAL nc) eqn:MT; destruct (mem "技术应用" nc) eqn:MA;
    intros H; injection H as <- <-.
  - split; [discriminate|]. intros [[H _]|[H _]]; discriminate.
  - split.
    + intros <-. left. auto.
    + intros [[_ H]|[H _]]; [injection H as ->; reflexivity|discriminate].
  - split.
    + intros ->. right. auto.
    + intros [[H _]|[_ H]]; [discriminate|injection H as ->; reflexivity].
  - split; [intros H; contradiction|].
    intros [[_ H]|[_ H]]; injection H as ->.
    + assert (M : mem TOTAL nc = true)
        by (apply mem_In; right; left; reflexivity).
      congruence.
    + assert (M : mem "技术应用" nc = true)
        by (apply mem_In; left; reflexivity).
      congruence.
Qed.

End Selectors.

(** ** More on the company lookup *)

Section Padding.

Lemma lstrip_head (s : string) :
  match Py.lstrip s with
  | EmptyString => True
  | String c _ => Py.isspace c = false
  end.
Proof.
  induction s as [|c s IH]; simpl; [exact I|].
  destruct (Py.isspace c) eqn:E; [exact IH|exact E].
Qed.

Lemma rstrip_head (c : ascii) (s : string) :
  Py.isspace c = false ->
  exists r, Py.rstrip (String c s) = String c r.
Proof.
  intros H. simpl. destruct (Py.rstrip s); [rewrite H|]; eauto.
Qed.

Lemma rstrip_idempotent (s : string) : Py.rstrip (Py.rstrip s) = Py.rstrip s.
Proof.
  induction s as [|c s IH]; simpl; [reflexivity|].
  destruct (Py.rstrip s) as [|c' r] eqn:E.
  - destruct (Py.isspace c) eqn:Hc; simpl; [reflexivity|].
    rewrite Hc. reflexivity.
  - simpl. simpl in IH. rewrite IH. reflexivity.
Qed.

(** Stripping a stripped text changes nothing. *)
Lemma strip_idempotent (s : string) : Py.strip (Py.strip s) = Py.strip s.
Proof.
  unfold Py.strip. pose proof (lstrip_head s) as H.
  destruct (Py.lstrip s) as [|c u]; [reflexivity|].
  destruct (rstrip_head c u H) as [r E]. rewrite E.
  assert (L : Py.lstrip (String c r) = String c r)
    by (simpl; rewrite H; reflexivity).
  rewrite L, <- E. apply rstrip_idempotent.
Qed.

(** X7.  The lookup does not see the blanks around the text: a text and
    the same text stripped lead to the same outcome, whatever the
    dataset and the mode. *)
Theorem lookup_ignores_surrounding_blanks (df : DataFrame)
        (query_text : string) (by_ : query_by) (method : query_method) :
  query df query_text by_ method = query df (Py.strip query_text) by_ method.
Proof.
  unfold query. rewrite strip_idempotent. reflexivity.
Qed.

End Padding.

Section Selection.

Variable df : DataFrame.

Lemma getitem_by_row (h : row -> option bool) (md : DataFrame) :
  getitem_mask df (map h (rows df)) = Ok md ->
  md = Spec.kept df (fun r => match h r with
                              | Some b => b
                              | None => false
                              end).
Proof.
  unfold getitem_mask.
  destruct (mapM _ _) as [bs| |] eqn:E; try discriminate.
  simpl. intros H. injection H as <-. unfold Spec.kept. f_equal.
  revert bs E. induction (rows df) as [|r rs IH]; simpl; intros bs E.
  - injection E as <-. reflexivity.
  - destruct (h r) as [b|]; try discriminate. simpl in E.
    destruct (mapM _ _) as [bs'| |] eqn:E'; try discriminate.
    simpl in E. injection E as <-. unfold select. simpl.
    destruct b; simpl; f_equal; apply (IH bs' eq_refl).
Qed.

Lemma mapM_values (A B : Type) (f : A -> result B) (d : B) (l : list A) :
  forall bs, mapM f l = Ok bs ->
             bs = map (fun a => match f a with
                                | Ok b => b
                                | _ => d
                                end) l.
Proof.
  induction l as [|a l IH]; simpl; intros bs H.
  - injection H as <-. reflexivity.
  - destruct (f a) as [b| |]; try discriminate. simpl in H.
    destruct (mapM f l) as [bs'| |]; try discriminate. simpl in H.
    injection H as <-. rewrite <- (IH bs' eq_refl). reflexivity.
Qed.

(** X8.  Whatever the text and the mode, a lookup that shows a table
    shows a selection of the rows of the dataset: the columns of the
    dataset, and the rows that pass a test on the row, each once and in
    the order of the dataset. *)
Theorem lookup_shows_a_selection_of_the_rows
        (query_text : string) (by_ : query_by) (method : query_method)
        (md : DataFrame) :
  query df query_text by_ method = matched md ->
  exists p : row -> bool,
    md = {| columns := columns df; rows := filter p (rows df) |}.
Proof.
  unfold query. destruct (Py.strip query_text) as [|c s]; [discriminate|].
  set (text := String c s).
  assert (G : handle (matching_data df by_ method text) = matched md ->
              exists p, md = Spec.kept df p).
  { intros H. apply handle_matched in H. revert H.
    destruct by_, method; unfold matching_data.
    - destruct (Py.int text) as [z|]; [|discriminate]. simpl.
      destruct (loc df CODE) as [k| |]; try discriminate. simpl.
      unfold series. rewrite map_map.
      intros H. apply getitem_by_row in H. eauto.
    - destruct (loc df CODE) as [k| |]; try discriminate. simpl.
      destruct (mapM astype_str (series df k)) as [texts| |] eqn:T;
        try discriminate. simpl.
      unfold str_contains.
      destruct (Re.compile text) as [re| |]; try discriminate. simpl.
      apply (mapM_values _ _ _ NaN) in T. unfold series in T.
      rewrite map_map in T. rewrite T, map_map.
      intros H. apply getitem_by_row in H. eauto.
    - destruct (loc df NAME) as [k| |]; try discriminate. simpl.
      unfold series. rewrite map_map.
      intros H. apply getitem_by_row in H. eauto.
    - destruct (loc df NAME) as [k| |]; try discriminate. simpl.
      destruct (str_accessor (dtype_at df k) (series df k)) as [texts| |] eqn:T;
        try discriminate. simpl.
      assert (texts = series df k)
        by (unfold str_accessor in T; destruct (dtype_at df k);
            try discriminate; injection T as <-; reflexivity).
      subst texts. unfold str_contains.
      destruct (Re.compile text) as [re| |]; try discriminate. simpl.
      unfold series. rewrite map_map.
      intros H. apply getitem_by_row in H. eauto. }
  destruct by_; [exact G|].
  destruct (mem NAME (names df)); [exact G|discriminate].
Qed.

End Selection.

(** ** Decimal numerals: [int] reads what [str] writes *)

Section Numerals.

Local Open Scope Z_scope.
Local Arguments Z.mul : simpl never.
Local Arguments Z.add : simpl never.
Local Arguments Z.pow : simpl never.
Local Arguments Pos.mul : simpl never.
Local Arguments Pos.add : simpl never.



(** The value of a numeral read from the left, after [acc]. *)
Let value : Decimal.uint -> Z -> Z :=
  fix value (d : Decimal.uint) (acc : Z) : Z :=
    match d with
    | Decimal.Nil => acc
    | Decimal.D0 l => value l (10 * acc)
    | Decimal.D1 l => value l (10 * acc + 1)
    | Decimal.D2 l => value l (10 * acc + 2)
    | Decimal.D3 l => value l (10 * acc + 3)
    | Decimal.D4 l => value l (10 * acc + 4)
    | Decimal.D5 l => value l (10 * acc + 5)
    | Decimal.D6 l => value l (10 * acc + 6)
    | Decimal.D7 l => value l (10 * acc + 7)
    | Decimal.D8 l => value l (10 * acc + 8)
    | Decimal.D9 l => value l (10 * acc + 9)
    end.





















Lemma prefix_refl (s : string) : prefix s s = true.
Proof.
  induction s as [|c s IH]; simpl; [reflexivity|].
  destruct (ascii_dec c c) as [_|N]; [exact IH|contradiction].
Qed.

Lemma contains_refl (s : string) : Py.contains s s = true.
Proof.
  destruct s; simpl; [reflexivity|]. rewrite prefix_refl.
  destruct (ascii_dec a a); [|contradiction]. reflexivity.
Qed.

End Numerals.

Section ListedCode.

Variable df : DataFrame.
Variable k : nat.
Hypothesis code_at : position CODE (names df) = Some k.


End ListedCode.

Section ExactWithinFuzzy.

Variable df : DataFrame.

(** X10.  On a dataset whose name column holds text, and for a text
    without special characters of regular expressions, the fuzzy lookup
    by name shows every row the exact lookup by name shows. *)
Theorem exact_name_lookup_within_fuzzy (query_text : string) (k : nat)
        (md : DataFrame) :
  position NAME (names df) = Some k ->
  dtype_at df k = object ->
  Re.plain (Py.strip query_text) = true ->
  query df query_text by_name exact = matched md ->
  exists md',
    query df query_text by_name fuzzy = matched md'
    /\ incl (rows md) (rows md').
Proof.
  intros P D Hp. rewrite !(query_by_name df _ _ _ P).
  destruct (Py.strip query_text) as [|c s]; [discriminate|].
  unfold matching_data. rewrite (loc_position _ _ _ P). simpl.
  rewrite D. simpl. rewrite (str_contains_plain _ _ _ Hp). simpl.
  unfold series. rewrite !map_map.
  rewrite (getitem_rows df (fun r => eq_str (String c s) (at_ k r))).
  rewrite <- (map_ext (fun r => Some match at_ k r with
                                     | Str x => Py.contains (String c s) x
                                     | _ => false
                                     end))
    by (intros r; destruct (at_ k r); reflexivity).
  rewrite (getitem_rows df (fun r => match at_ k r with
                                     | Str x => Py.contains (String c s) x
                                     | _ => false
                                     end)).
  simpl. intros H. injection H as <-. eexists. split; [reflexivity|].
  simpl. intros r Hr. apply filter_In in Hr. destruct Hr as [Hr E].
  apply filter_In. split; [exact Hr|].
  destruct (at_ k r) as [ | |x| | | ]; simpl in E; try discriminate.
  apply String.eqb_eq in E. subst x. apply contains_refl.
Qed.

End ExactWithinFuzzy.

(** ** What the range of the radar chart encloses *)

Section Enclosure.

Lemma shrink_le (q : Q) : (q * (9 # 10) <= q)%Q <-> (0 <= q)%Q.
Proof.
  destruct q as [n d]. unfold Qle, Qmult. simpl. split; intros H; nia.
Qed.

Lemma stretch_ge (q : Q) : (q <= q * (11 # 10))%Q <-> (0 <= q)%Q.
Proof.
  destruct q as [n d]. unfold Qle, Qmult. simpl. split; intros H; nia.
Qed.

(** X11.  When none of the averages it plots is negative, the range of
    the industry radar, from nine tenths of the least average to eleven
    tenths of the greatest, encloses them all. *)
Theorem radar_range_encloses_nonnegative_averages
        (long : DataFrame) (k : nat) (vs : list Q) :
  position "平均值" (names long) = Some k ->
  numbers (series long k) = Ok vs ->
  vs <> [] ->
  (forall v, In v vs -> (0 <= v)%Q) ->
  exists lo hi,
    min_val long = Ok (Float lo)
    /\ max_val long = Ok (Float hi)
    /\ forall v, In v vs -> (lo <= v)%Q /\ (v <= hi)%Q.
Proof.
  intros P Hvs Hne H. destruct vs as [|x xs]; [contradiction|].
  destruct (fold_Qmin xs x) as [M1 M2].
  destruct (fold_Qmax xs x) as [N1 N2].
  set (m := fold_left Qmin xs x) in *.
  set (M := fold_left Qmax xs x) in *.
  exists (m * (9 # 10))%Q, (M * (11 # 10))%Q.
  unfold min_val, max_val, min, max.
  rewrite (loc_position _ _ _ P). simpl. rewrite Hvs. simpl.
  fold m M. split; [reflexivity|]. split; [reflexivity|].
  intros v Hv. split.
  - apply Qle_trans with m; [|apply M2; exact Hv].
    apply shrink_le. apply H. exact M1.
  - apply Qle_trans with M; [apply N2; exact Hv|].
    apply stretch_ge. apply H. exact N1.
Qed.

End Enclosure.

(** ** The run of the page *)

Section Charts.

Lemma index_ok (x : string) (l : list string) :
  mem x l = true -> exists k, index x l = Ok k.
Proof.
  intros M. apply mem_In in M. destruct (position_In x l M) as [k Hk].
  exists k. unfold index. rewrite Hk. reflexivity.
Qed.

Lemma scatter_index_ok (numeric_columns : list string) :
  exists o, scatter_index numeric_columns = Ok o.
Proof.
  unfold scatter_index, scatter_defaults.
  destruct numeric_columns as [|first [|second rest]];
    [eexists; reflexivity|eexists; reflexivity|].
  cbv beta iota. set (nc := first :: second :: rest).
  set (x := if mem TOTAL nc then TOTAL else first).
  set (y := if mem "技术应用" nc then "技术应用" else second).
  assert (Hx : mem x nc = true).
  { unfold x. destruct (mem TOTAL nc) eqn:M; [exact M|].
    apply mem_In. left. reflexivity. }
  destruct (index_ok x nc Hx) as [ix ->]. cbn [bind].
  destruct (mem y nc) eqn:Hy; [|eexists; reflexivity].
  destruct (index_ok y nc Hy) as [iy ->]. eexists. reflexivity.
Qed.

Lemma ranking_index_ok (numeric_columns : list string) :
  exists i, ranking_index numeric_columns = Ok i.
Proof.
  unfold ranking_index. destruct (mem TOTAL numeric_columns) eqn:M; [|eauto].
  apply index_ok. exact M.
Qed.

Lemma numbers_of_counts (l : list (string * nat)) :
  exists vs, numbers (map (fun gn => Int (Z.of_nat (snd gn))) l) = Ok vs.
Proof.
  unfold numbers. induction l as [|a l (vs & IH)]; simpl; [eauto|].
  destruct (mapM number _) as [os| |]; try discriminate. simpl. eauto.
Qed.

Lemma nargsort_ok (items : list cell) (ascending : bool) (vs : list Q) :
  numbers items = Ok vs ->
  exists indexer, nargsort items ascending = Ok indexer.
Proof. intros H. unfold nargsort. rewrite H. simpl. eauto. Qed.

(** The table of the pie chart is there for a text column. *)
Lemma industry_counts_ok (df : DataFrame) (col : string) (kb : nat) :
  well_typed df -> position col (names df) = Some kb ->
  dtype_at df kb = object ->
  exists t, industry_counts df col = Ok t.
Proof.
  intros W P D. unfold industry_counts, value_counts.
  rewrite (loc_position _ _ _ P). simpl.
  rewrite (keys_read df col kb W P D). simpl.
  destruct (numbers_of_counts (tallies (map Spec.text_of (series df kb))))
    as [vs Hvs].
  destruct (nargsort_ok _ false vs Hvs) as [indexer ->]. simpl. eauto.
Qed.

End Charts.

(** ** numpy's quicksort rearranges the array *)

Section Rearranging.

Context {A : Type}.
Variable less : A -> A -> bool.
Variable v : nat -> A.
Hypothesis less_asym : forall x y, less x y = true -> less y x = false.

Lemma less_irrefl (x : A) : less x x = false.
Proof.
  destruct (less x x) eqn:E; [|reflexivity].
  rewrite (less_asym x x E) in E. discriminate.
Qed.

(** *** Reading and writing an entry *)

Lemma set_length (a : list nat) :
  forall i x, List.length (Np.set a i x) = List.length a.
Proof.
  induction a as [|h t IH]; intros [|i] x; simpl; try reflexivity.
  rewrite IH. reflexivity.
Qed.

Lemma get_set_same (a : list nat) :
  forall i x, i < List.length a -> Np.get (Np.set a i x) i = x.
Proof.
  unfold Np.get.
  induction a as [|h t IH]; intros [|i] x H; simpl in *; try lia.
  apply IH. lia.
Qed.

Lemma get_set_other (a : list nat) :
  forall i j x, i <> j -> Np.get (Np.set a i x) j = Np.get a j.
Proof.
  unfold Np.get.
  induction a as [|h t IH]; intros [|i] [|j] x H; simpl; try reflexivity;
    try lia. apply IH. lia.
Qed.

(** Writing [x] at a place trades the entry of the place for [x]. *)
Lemma set_perm (a : list nat) :
  forall i x, i < List.length a ->
              Permutation (Np.get a i :: Np.set a i x) (x :: a).
Proof.
  unfold Np.get.
  induction a as [|h t IH]; intros [|i] x H; simpl in *; try lia.
  - apply perm_swap.
  - rewrite perm_swap. rewrite (IH i x) by lia. apply perm_swap.
Qed.

Lemma set_get_same (a : list nat) :
  forall i, Np.set a i (Np.get a i) = a.
Proof.
  unfold Np.get.
  induction a as [|h t IH]; intros [|i]; simpl; try reflexivity.
  rewrite IH. reflexivity.
Qed.

Lemma swap_length (a : list nat) (i j : nat) :
  List.length (Np.swap a i j) = List.length a.
Proof. unfold Np.swap. rewrite !set_length. reflexivity. Qed.

Lemma get_swap_l (a : list nat) (i j : nat) :
  i < List.length a -> j < List.length a ->
  Np.get (Np.swap a i j) i = Np.get a j.
Proof.
  intros Hi Hj. unfold Np.swap. destruct (Nat.eq_dec i j) as [->|N].
  - rewrite get_set_same by (rewrite set_length; exact Hj). reflexivity.
  - rewrite get_set_other by lia. apply get_set_same. exact Hi.
Qed.

Lemma get_swap_r (a : list nat) (i j : nat) :
  i < List.length a -> j < List.length a ->
  Np.get (Np.swap a i j) j = Np.get a i.
Proof.
  intros Hi Hj. unfold Np.swap.
  apply get_set_same. rewrite set_length. exact Hj.
Qed.

Lemma get_swap_other (a : list nat) (i j k : nat) :
  k <> i -> k <> j -> Np.get (Np.swap a i j) k = Np.get a k.
Proof.
  intros Hi Hj. unfold Np.swap. rewrite !get_set_other by lia. reflexivity.
Qed.

Lemma swap_perm (a : list nat) (i j : nat) :
  i < List.length a -> j < List.length a -> Permutation (Np.swap a i j) a.
Proof.
  intros Hi Hj. unfold Np.swap.
  destruct (Nat.eq_dec i j) as [->|N].
  - rewrite !set_get_same. reflexivity.
  - apply (Permutation_cons_inv (a := Np.get a j)).
    rewrite <- (get_set_other a i j (Np.get a j)) at 1 by exact N.
    rewrite set_perm by (rewrite set_length; exact Hj).
    apply (set_perm a i (Np.get a j) Hi).
Qed.

(** *** The insertion sort of a range *)

(** The inner loop fills the place left free at [pl + k] and leaves
    the array with [vi] in exchange for what stood there. *)
Lemma shift_perm (k : nat) :
  forall a pl vi,
    pl + k < List.length a ->
    Permutation (Np.get a (pl + k) :: Np.shift less v a pl k vi) (vi :: a)
    /\ List.length (Np.shift less v a pl k vi) = List.length a.
Proof.
  induction k as [|k IH]; intros a pl vi H; simpl.
  - rewrite Nat.add_0_r in *. rewrite set_length.
    split; [apply set_perm; exact H|reflexivity].
  - destruct (less (v vi) (v (Np.get a (pl + k)))).
    + set (a1 := Np.set a (pl + S k) (Np.get a (pl + k))).
      destruct (IH a1 pl vi) as [P L];
        [unfold a1; rewrite set_length; lia|].
      split; [|rewrite L; apply set_length].
      assert (G : Np.get a1 (pl + k) = Np.get a (pl + k))
        by (unfold a1; apply get_set_other; lia).
      rewrite G in P.
      apply (Permutation_cons_inv (a := Np.get a (pl + k))).
      rewrite perm_swap, P. rewrite perm_swap.
      unfold a1. rewrite (set_perm a (pl + S k)) by exact H.
      apply perm_swap.
    + rewrite set_length. split; [apply set_perm; exact H|reflexivity].
Qed.

Lemma insert_from_perm (count : nat) :
  forall a pl pi,
    pl <= pi -> pi + count <= List.length a ->
    Permutation (Np.insert_from less v a pl pi count) a.
Proof.
  induction count as [|c IH]; intros a pl pi Hpl H; simpl; [reflexivity|].
  destruct (shift_perm (pi - pl) a pl (Np.get a pi)) as [P L]; [lia|].
  replace (pl + (pi - pl)) with pi in P by lia.
  apply Permutation_cons_inv in P.
  rewrite IH; [exact P|lia|rewrite L; lia].
Qed.

Lemma insertion_perm (a : list nat) (pl pr : nat) :
  pl <= pr -> pr < List.length a ->
  Permutation (Np.insertion less v a pl pr) a.
Proof.
  intros H1 H2. unfold Np.insertion. apply insert_from_perm; lia.
Qed.

(** *** The heapsort of a range *)

(** Sifting fills the place left free at [i] and leaves the array with
    [tmp] in exchange for what stood there. *)
Lemma sift_perm (base n : nat) (fuel : nat) :
  forall a tmp i j,
    1 <= i -> i < j -> i <= n -> base + n <= List.length a ->
    Permutation (Np.at1 a base i :: Np.sift less v fuel a base tmp i j n)
                (tmp :: a)
    /\ List.length (Np.sift less v fuel a base tmp i j n) = List.length a.
Proof.
  induction fuel as [|f IH]; intros a tmp i j Hi Hij Hin Hn; simpl.
  - unfold Np.put1, Np.at1. rewrite set_length.
    split; [apply set_perm; lia|reflexivity].
  - assert (Last : Permutation
                     (Np.at1 a base i :: Np.put1 a base i tmp) (tmp :: a)
                   /\ List.length (Np.put1 a base i tmp) = List.length a).
    { unfold Np.put1, Np.at1. rewrite set_length.
      split; [apply set_perm; lia|reflexivity]. }
    destruct (j <=? n) eqn:Hj; [|exact Last].
    apply Nat.leb_le in Hj.
    set (j' := if (j <? n)
                  && less (v (Np.at1 a base j)) (v (Np.at1 a base (j + 1)))
               then j + 1 else j).
    assert (Hj' : i < j' /\ j' <= n).
    { unfold j'. destruct (j <? n) eqn:L; simpl; [|lia].
      apply Nat.ltb_lt in L.
      destruct (less (v (Np.at1 a base j)) (v (Np.at1 a base (j + 1)))); lia. }
    destruct (less (v tmp) (v (Np.at1 a base j'))); [|exact Last].
    set (a1 := Np.put1 a base i (Np.at1 a base j')).
    assert (L1 : List.length a1 = List.length a)
      by (unfold a1, Np.put1; apply set_length).
    destruct (IH a1 tmp j' (j' + j')) as [P L]; try lia.
    split; [|rewrite L; exact L1].
    assert (G : Np.at1 a1 base j' = Np.at1 a base j')
      by (unfold a1, Np.at1, Np.put1; apply get_set_other; lia).
    rewrite G in P.
    apply (Permutation_cons_inv (a := Np.at1 a base j')).
    rewrite perm_swap, P. rewrite perm_swap.
    unfold a1, Np.put1, Np.at1. rewrite set_perm by lia.
    apply perm_swap.
Qed.

Lemma heapify_perm (base n : nat) (l : nat) :
  forall a, l <= n -> base + n <= List.length a ->
            Permutation (Np.heapify less v a base l n) a.
Proof.
  induction l as [|l IH]; intros a Hl Hn; cbn [Np.heapify]; [reflexivity|].
  destruct (sift_perm base n n a (Np.at1 a base (S l)) (S l) (S l + S l))
    as [P L]; try lia.
  apply Permutation_cons_inv in P.
  rewrite IH; [exact P|lia|rewrite L; exact Hn].
Qed.

Lemma extract_perm (base : nat) (n : nat) :
  forall a, base + n <= List.length a ->
            Permutation (Np.extract less v a base n) a.
Proof.
  induction n as [|m IH]; intros a Hn; simpl; [reflexivity|].
  destruct m as [|m']; [reflexivity|].
  set (n := S (S m')) in *.
  set (a1 := Np.put1 a base n (Np.at1 a base 1)).
  assert (L1 : List.length a1 = List.length a)
    by (unfold a1, Np.put1; apply set_length).
  destruct (sift_perm base (S m') (S m') a1 (Np.at1 a base n) 1 2)
    as [P L]; try lia.
  rewrite IH by (rewrite L; lia).
  assert (G : Np.at1 a1 base 1 = Np.at1 a base 1)
    by (unfold a1, Np.at1, Np.put1; apply get_set_other; lia).
  rewrite G in P.
  apply (Permutation_cons_inv (a := Np.at1 a base 1)).
  rewrite P. unfold a1, Np.put1, Np.at1.
  apply set_perm. lia.
Qed.

Lemma div2_le (n : nat) : Nat.div2 n <= n.
Proof.
  apply Nat.lt_eq_cases.
  destruct n; [right; reflexivity|left; apply Nat.lt_div2; lia].
Qed.

Lemma heapsort_perm (a : list nat) (base n : nat) :
  base + n <= List.length a -> Permutation (Np.heapsort less v a base n) a.
Proof.
  intros H. unfold Np.heapsort.
  assert (P : Permutation (Np.heapify less v a base (Nat.div2 n) n) a)
    by (apply heapify_perm; [apply div2_le|exact H]).
  rewrite extract_perm; [exact P|].
  rewrite (Permutation_length P). exact H.
Qed.

(** *** The partition *)

(** Going up from [pi], the scan stops at the latest on an entry that
    is not less than the pivot. *)
Lemma scan_up_spec (a : list nat) (vp : A) (fuel : nat) :
  forall pi t,
    pi < t -> less (v (Np.get a t)) vp = false -> t - pi <= S fuel ->
    pi < Np.scan_up less v fuel a vp pi <= t
    /\ less (v (Np.get a (Np.scan_up less v fuel a vp pi))) vp = false.
Proof.
  induction fuel as [|f IH]; intros pi t Hlt Hs Hf; simpl.
  - assert (t = S pi) by lia. subst t. split; [lia|exact Hs].
  - destruct (less (v (Np.get a (S pi))) vp) eqn:E.
    + assert (S pi <> t) by (intros <-; congruence).
      destruct (IH (S pi) t) as [B Sp]; try lia; [exact Hs|].
      split; [lia|exact Sp].
    + split; [lia|exact E].
Qed.

(** Going down from [pj], the scan stops at the latest on an entry
    that the pivot is not less than. *)
Lemma scan_down_spec (a : list nat) (vp : A) (fuel : nat) :
  forall pj t,
    t < pj -> less vp (v (Np.get a t)) = false -> pj - t <= S fuel ->
    t <= Np.scan_down less v fuel a vp pj < pj
    /\ less vp (v (Np.get a (Np.scan_down less v fuel a vp pj))) = false.
Proof.
  induction fuel as [|f IH]; intros pj t Hlt Hs Hf; simpl.
  - assert (t = pj - 1) by lia. subst t. split; [lia|exact Hs].
  - destruct (less vp (v (Np.get a (pj - 1)))) eqn:E.
    + assert (pj - 1 <> t) by (intros <-; congruence).
      destruct (IH (pj - 1) t) as [B Sp]; try lia; [exact Hs|].
      split; [lia|exact Sp].
    + split; [lia|exact E].
Qed.

(** The exchange loop swaps entries between [pi] and [pj] and ends
    between them. *)
Lemma exchange_perm (vp : A) (fuel : nat) :
  forall a pi pj,
    pi < pj -> pj < List.length a ->
    less vp (v (Np.get a pi)) = false ->
    less (v (Np.get a pj)) vp = false ->
    Permutation (fst (Np.exchange less v fuel a vp pi pj)) a
    /\ pi < snd (Np.exchange less v fuel a vp pi pj) <= pj.
Proof.
  induction fuel as [|f IH]; intros a pi pj Hlt Hj Hl Hr;
    cbn [Np.exchange];
    destruct (scan_up_spec a vp (List.length a) pi pj Hlt Hr) as [U1 U2];
    try lia;
    destruct (scan_down_spec a vp (List.length a) pj pi Hlt Hl) as [D1 D2];
    try lia;
    set (pi' := Np.scan_up less v (List.length a) a vp pi) in *;
    set (pj' := Np.scan_down less v (List.length a) a vp pj) in *;
    destruct (pj' <=? pi') eqn:C; simpl; try (split; [reflexivity|lia]).
  apply Nat.leb_gt in C.
  destruct (IH (Np.swap a pi' pj') pi' pj') as [P B].
  - exact C.
  - rewrite swap_length. lia.
  - rewrite get_swap_l by lia. exact D2.
  - rewrite get_swap_r by lia. exact U2.
  - split; [|lia]. rewrite P. apply swap_perm; lia.
Qed.

(** The median-of-three puts at [pl] an entry the middle one is not
    less than. *)
Lemma ordered_pair (b : list nat) (pm pl : nat) :
  pm < List.length b -> pl < List.length b ->
  let c := if less (v (Np.get b pm)) (v (Np.get b pl))
           then Np.swap b pm pl else b in
  Permutation c b
  /\ less (v (Np.get c pm)) (v (Np.get c pl)) = false.
Proof.
  intros Hm Hl. simpl.
  destruct (less (v (Np.get b pm)) (v (Np.get b pl))) eqn:E.
  - split; [apply swap_perm; assumption|].
    rewrite get_swap_l, get_swap_r by assumption.
    apply less_asym. exact E.
  - split; [reflexivity|exact E].
Qed.

Lemma div2_bounds (n : nat) : 2 <= n -> 0 < Nat.div2 n < n.
Proof.
  intros H. split.
  - rewrite Nat.div2_div. apply Nat.div_str_pos. lia.
  - apply Nat.lt_div2. lia.
Qed.

Lemma partition_perm (a : list nat) (pl pr : nat) :
  Np.SMALL_QUICKSORT < pr - pl -> pr < List.length a ->
  Permutation (fst (Np.partition less v a pl pr)) a
  /\ pl < snd (Np.partition less v a pl pr) < pr.
Proof.
  unfold Np.SMALL_QUICKSORT. intros Hbig Hr. unfold Np.partition.
  pose proof (div2_bounds (pr - pl)) as Hm.
  set (pm := pl + Nat.div2 (pr - pl)) in *.
  assert (Hpm : pl < pm < pr) by (unfold pm; lia).
  destruct (ordered_pair a pm pl) as [P1 _]; try lia.
  set (a1 := if less (v (Np.get a pm)) (v (Np.get a pl))
             then Np.swap a pm pl else a) in *.
  assert (L1 : List.length a1 = List.length a)
    by (apply Permutation_length; exact P1).
  destruct (ordered_pair a1 pr pm) as [P2 _]; try lia.
  set (a2 := if less (v (Np.get a1 pr)) (v (Np.get a1 pm))
             then Np.swap a1 pr pm else a1) in *.
  assert (L2 : List.length a2 = List.length a)
    by (rewrite <- L1; apply Permutation_length; exact P2).
  destruct (ordered_pair a2 pm pl) as [P3 S3]; try lia.
  set (a3 := if less (v (Np.get a2 pm)) (v (Np.get a2 pl))
             then Np.swap a2 pm pl else a2) in *.
  assert (L3 : List.length a3 = List.length a)
    by (rewrite <- L2; apply Permutation_length; exact P3).
  set (vp := v (Np.get a3 pm)) in *.
  set (a4 := Np.swap a3 pm (pr - 1)).
  assert (P4 : Permutation a4 a3) by (apply swap_perm; lia).
  assert (L4 : List.length a4 = List.length a)
    by (unfold a4; rewrite swap_length; exact L3).
  destruct (exchange_perm vp (List.length a4) a4 pl (pr - 1)) as [P5 B5].
  - lia.
  - lia.
  - unfold a4. rewrite get_swap_other by lia. exact S3.
  - unfold a4. rewrite get_swap_r by lia. apply less_irrefl.
  - destruct (Np.exchange less v (List.length a4) a4 vp pl (pr - 1))
      as [a5 pi]. simpl in *.
    split; [|lia].
    rewrite swap_perm
      by (rewrite (Permutation_length P5); lia).
    rewrite P5, P4, P3, P2. exact P1.
Qed.

(** *** The ranges and the whole sort *)

(** A range of the array. *)
Let within (n : nat) (pl pr : nat) : Prop := pl <= pr /\ pr < n.

Let pending_within (n : nat) (p : Np.pending) : Prop :=
  within n (fst (fst p)) (snd (fst p)).

Lemma split_perm (fuel : nat) :
  forall a pl pr cdepth stack,
    within (List.length a) pl pr ->
    Forall (pending_within (List.length a)) stack ->
    match Np.split less v fuel a pl pr cdepth stack with
    | (a', pl', pr', _, stack') =>
        Permutation a' a
        /\ within (List.length a) pl' pr'
        /\ Forall (pending_within (List.length a)) stack'
    end.
Proof.
  induction fuel as [|f IH]; intros a pl pr cdepth stack W St; simpl;
    [auto|].
  destruct (Np.SMALL_QUICKSORT <? pr - pl) eqn:Big; [|auto].
  apply Nat.ltb_lt in Big. destruct W as [W1 W2].
  destruct (partition_perm a pl pr Big W2) as [P B].
  destruct (Np.partition less v a pl pr) as [a' pi]. simpl in P, B.
  assert (L : List.length a' = List.length a)
    by (apply Permutation_length; exact P).
  destruct (pi - pl <? pr - pi).
  - specialize (IH a' pl (pi - 1) (cdepth - 1)%Z
                   ((S pi, pr, (cdepth - 1)%Z) :: stack)).
    rewrite L in IH.
    destruct (Np.split less v f a' pl (pi - 1) (cdepth - 1)
                       ((S pi, pr, (cdepth - 1)%Z) :: stack))
      as [[[[a'' pl''] pr''] cd''] stack''].
    destruct IH as (P' & W' & S').
    + unfold within. lia.
    + constructor; [unfold pending_within, within; simpl; lia|exact St].
    + split; [rewrite P'; exact P|]. split; assumption.
  - specialize (IH a' (S pi) pr (cdepth - 1)%Z
                   ((pl, pi - 1, (cdepth - 1)%Z) :: stack)).
    rewrite L in IH.
    destruct (Np.split less v f a' (S pi) pr (cdepth - 1)
                       ((pl, pi - 1, (cdepth - 1)%Z) :: stack))
      as [[[[a'' pl''] pr''] cd''] stack''].
    destruct IH as (P' & W' & S').
    + unfold within. lia.
    + constructor; [unfold pending_within, within; simpl; lia|exact St].
    + split; [rewrite P'; exact P|]. split; assumption.
Qed.

Lemma rounds_perm (fuel : nat) :
  forall a pl pr cdepth stack,
    within (List.length a) pl pr ->
    Forall (pending_within (List.length a)) stack ->
    Permutation (Np.rounds less v fuel a pl pr cdepth stack) a.
Proof.
  induction fuel as [|f IH]; intros a pl pr cdepth stack W St;
    cbn [Np.rounds]; [reflexivity|].
  assert (G : forall a' stack',
             Permutation a' a ->
             Forall (pending_within (List.length a)) stack' ->
             Permutation
               match stack' with
               | [] => a'
               | (pl', pr', cdepth') :: rest =>
                   Np.rounds less v f a' pl' pr' cdepth' rest
               end a).
  { intros a' stack' P S'. destruct stack' as [|[[pl' pr'] cd'] rest];
      [exact P|].
    inversion S' as [|? ? Hp Hrest]; subst.
    rewrite IH; [exact P| |]; rewrite (Permutation_length P); assumption. }
  destruct (cdepth <? 0)%Z.
  - apply G; [|exact St]. apply heapsort_perm. destruct W. lia.
  - pose proof (split_perm (List.length a) a pl pr cdepth stack W St) as Sp.
    destruct (Np.split less v (List.length a) a pl pr cdepth stack)
      as [[[[a1 pl1] pr1] cd1] stack1].
    destruct Sp as (P1 & W1 & S1).
    apply G; [|exact S1].
    destruct W1 as [W1 W2].
    rewrite insertion_perm;
      [exact P1|exact W1|rewrite (Permutation_length P1); exact W2].
Qed.

(** The sort gives the entries of the array back, each as often as it
    occurs. *)
Lemma aquicksort_perm (tosort : list nat) :
  Permutation (Np.aquicksort less v tosort) tosort.
Proof.
  unfold Np.aquicksort. destruct tosort as [|x t]; [reflexivity|].
  apply rounds_perm; [|constructor].
  unfold within. simpl. lia.
Qed.

End Rearranging.

(** ** The sorted frame holds the rows of the frame *)

Section Rearranged.

Lemma Qltb_asym (x y : Q) : Qltb x y = true -> Qltb y x = false.
Proof.
  intros H. apply Qltb_lt in H.
  destruct (Qltb y x) eqn:E; [|reflexivity].
  apply Qltb_lt in E. exfalso. exact (Qlt_irrefl x (Qlt_trans _ _ _ H E)).
Qed.

Lemma argsort_perm (keys : list Q) :
  Permutation (Np.argsort Qltb 0%Q keys) (seq 0 (List.length keys)).
Proof.
  unfold Np.argsort. rewrite aquicksort_perm by exact Qltb_asym.
  reflexivity.
Qed.

(** Reading a list at a rearrangement of its places rearranges it. *)
Lemma nth_perm (X : Type) (d : X) (L : list X) (I : list nat) :
  Permutation I (seq 0 (List.length L)) ->
  Permutation (map (fun j => nth j L d) I) L.
Proof.
  intros P. rewrite (Permutation_map _ P).
  pose proof (nth_all d L []) as N. simpl in N. rewrite N. reflexivity.
Qed.

(** The indexer of [nargsort] lists every place of the column once. *)
Lemma nargsort_perm (items : list cell) (ascending : bool) (vs : list Q) :
  numbers items = Ok vs ->
  exists indexer,
    nargsort items ascending = Ok indexer
    /\ Permutation indexer (seq 0 (List.length items)).
Proof.
  intros Hvs. unfold nargsort. rewrite Hvs. simpl.
  eexists. split; [reflexivity|].
  unfold numbers in Hvs.
  destruct (mapM number items) as [os| |] eqn:Hos; try discriminate.
  simpl in Hvs. injection Hvs as <-.
  rewrite (numbers_valued items 0 os Hos).
  pose proof (positions_valued items [] os Hos) as PV.
  cbn [app List.length] in PV. rewrite PV.
  set (L := Spec.valued 0 items).
  transitivity (map fst L
                  ++ filter (fun i => isna (nth i items NaN))
                            (seq 0 (List.length items))).
  - apply Permutation_app_tail. destruct ascending.
    + apply nth_perm. rewrite argsort_perm, !length_map. reflexivity.
    + rewrite <- Permutation_rev.
      transitivity (rev (map fst L)); [|symmetry; apply Permutation_rev].
      apply nth_perm. rewrite argsort_perm, !length_rev, !length_map.
      reflexivity.
  - unfold L. rewrite <- PV.
    rewrite (filter_ext (fun i => isna (nth i items NaN))
                        (fun i => negb (negb (isna (nth i items NaN)))))
      by (intros i; rewrite negb_involutive; reflexivity).
    apply (filter_split_perm (fun i => negb (isna (nth i items NaN)))).
Qed.

Lemma pick_all (X : Type) (l : list X) :
  forall pre,
    flat_map (fun i => match nth_error (pre ++ l) i with
                       | Some x => [x]
                       | None => []
                       end)
             (seq (List.length pre) (List.length l)) = l.
Proof.
  induction l as [|x l IH]; intros pre; simpl; [reflexivity|].
  rewrite nth_error_app2 by lia. rewrite Nat.sub_diag. simpl. f_equal.
  replace (pre ++ x :: l) with ((pre ++ [x]) ++ l)
    by (rewrite <- app_assoc; reflexivity).
  replace (S (List.length pre)) with (List.length (pre ++ [x]))
    by (rewrite length_app; simpl; lia).
  apply IH.
Qed.

Lemma take_all (rs : list row) : take rs (seq 0 (List.length rs)) = rs.
Proof. exact (pick_all row rs []). Qed.

Lemma take_perm (rs : list row) (indexer : list nat) :
  Permutation indexer (seq 0 (List.length rs)) ->
  Permutation (take rs indexer) rs.
Proof.
  intros P. rewrite <- (take_all rs) at 2. unfold take.
  apply Permutation_flat_map. exact P.
Qed.

(** [sort_values] on a numeric column gives the rows of the frame back,
    in some order. *)
Lemma sort_values_perm (df : DataFrame) (by_ : string) (ascending : bool)
      (k : nat) (vs : list Q) :
  position by_ (names df) = Some k ->
  numbers (series df k) = Ok vs ->
  exists sorted,
    sort_values df by_ ascending = Ok sorted
    /\ columns sorted = columns df
    /\ Permutation (rows sorted) (rows df).
Proof.
  intros P Hvs. unfold sort_values. rewrite (loc_position _ _ _ P). simpl.
  destruct (nargsort_perm _ ascending vs Hvs) as (indexer & -> & Pi).
  simpl. eexists. split; [reflexivity|]. split; [reflexivity|]. simpl.
  apply take_perm. unfold series in Pi. rewrite length_map in Pi. exact Pi.
Qed.

End Rearranged.

(** ** The ranking table *)

Section RankingTable.

Lemma places_none (c : string) (l : list string) :
  forall s, ~ In c l -> places s c l = [].
Proof.
  induction l as [|h t IH]; simpl; intros s H; [reflexivity|].
  rewrite (proj2 (String.eqb_neq c h)) by (intros ->; apply H; auto).
  simpl. apply IH. intros H'. apply H. auto.
Qed.

(** Where no label occurs twice, a label has one place. *)
Lemma places_once (c : string) (l : list string) :
  NoDup l ->
  forall s k, position c l = Some k -> places s c l = [s + k].
Proof.
  induction 1 as [|h t Hh ND IH]; simpl; intros s k P; [discriminate|].
  destruct (String.eqb c h) eqn:E.
  - injection P as <-. apply String.eqb_eq in E. subst h.
    rewrite places_none by exact Hh. rewrite Nat.add_0_r. reflexivity.
  - destruct (position c t) as [j|]; [|discriminate].
    injection P as <-. simpl. rewrite (IH (S s) j eq_refl).
    f_equal. lia.
Qed.

Lemma places_some (c : string) (l : list string) :
  forall s, In c l -> places s c l <> [].
Proof.
  induction l as [|h t IH]; simpl; intros s H; [contradiction|].
  destruct (String.eqb c h) eqn:E; [discriminate|]. simpl.
  apply IH. destruct H as [->|H]; [|exact H].
  rewrite String.eqb_refl in E. discriminate.
Qed.

Lemma concat_singletons (X : Type) (l : list X) :
  List.concat (map (fun x => [x]) l) = l.
Proof.
  induction l as [|x l IH]; simpl; [reflexivity|]. rewrite IH. reflexivity.
Qed.

(** Selecting columns by labels that are there gives the table of those
    columns, row by row; where no label occurs twice, one column per
    label. *)
Lemma getitem_columns_ok (df : DataFrame) (key : list string) :
  incl key (names df) ->
  exists shown,
    getitem_columns df key = Ok shown
    /\ map label (rows shown) = map label (rows df)
    /\ (NoDup (names df) ->
        names shown = key
        /\ map cells (rows shown)
           = map (fun r => map (fun c => at_ (Spec.place c (names df)) r) key)
                 (rows df)).
Proof.
  intros Hin. unfold getitem_columns.
  set (f := fun c => match places 0 c (names df) with
                     | [] => Raise KeyError
                     | ks => Ok ks
                     end).
  assert (T : mapM f key = Ok (map (fun c => places 0 c (names df)) key)).
  { apply mapM_total. intros c Hc. unfold f.
    pose proof (places_some c (names df) 0 (Hin c Hc)) as N.
    destruct (places 0 c (names df)); [contradiction|reflexivity]. }
  rewrite T. simpl. eexists. split; [reflexivity|]. simpl.
  split; [rewrite map_map; reflexivity|].
  intros ND.
  assert (K : List.concat (map (fun c => places 0 c (names df)) key)
              = map (fun c => Spec.place c (names df)) key).
  { rewrite <- (concat_singletons _
                  (map (fun c => Spec.place c (names df)) key)).
    rewrite map_map. f_equal. apply map_ext_in. intros c Hc.
    destruct (position_In c (names df) (Hin c Hc)) as [k Hk].
    unfold Spec.place. rewrite Hk.
    apply (places_once c (names df) ND 0 k Hk). }
  rewrite K. split.
  - unfold names at 1. simpl. rewrite !map_map.
    rewrite <- (map_id key) at 2. apply map_ext_in. intros c Hc.
    destruct (position_In c (names df) (Hin c Hc)) as [k Hk].
    unfold Spec.place. rewrite Hk.
    pose proof (position_nth_error c (names df) k Hk) as N.
    unfold names in N. rewrite nth_error_map in N.
    destruct (nth_error (columns df) k) as [cd|] eqn:E; [|discriminate].
    simpl in N. injection N as <-.
    rewrite (nth_error_nth _ _ _ E). reflexivity.
  - rewrite !map_map. apply map_ext. intros r. simpl.
    rewrite map_map. reflexivity.
Qed.

Lemma label_relabel (css : list (list cell)) :
  map label (relabel css) = seq 0 (List.length css).
Proof.
  unfold relabel. rewrite map_map. simpl.
  generalize 0 as n. induction css as [|cs css IH]; intros n; simpl;
    [reflexivity|].
  rewrite IH. reflexivity.
Qed.

Lemma display_columns_there (df : DataFrame) (ranking_metric : string) :
  In CODE (names df) -> In ranking_metric (names df) ->
  incl (display_columns df ranking_metric) (names df).
Proof.
  intros Hc Hm c. unfold display_columns.
  destruct (mem NAME (names df)).
  - intros H. apply filter_In in H. apply mem_In. tauto.
  - intros [<-|[<-|[]]]; assumption.
Qed.

End RankingTable.

(** ** The comparison of the industries is drawn *)

Section Comparison.

Variable df : DataFrame.
Variable by_ : string.
Variable kb : nat.
Variable metrics : list string.

Hypothesis typed : well_typed df.
Hypothesis labels_once : NoDup (names df).
Hypothesis detected : industry_column df = Some by_.
Hypothesis by_at : position by_ (names df) = Some kb.
Hypothesis by_text : dtype_at df kb = object.
Hypothesis selected : incl metrics (numeric_columns df).
Hypothesis value_name_free : ~ In "平均值" metrics.

Lemma mapM_In (A B : Type) (f : A -> result B) (l : list A) :
  forall bs, mapM f l = Ok bs ->
             forall b, In b bs -> exists a, In a l /\ f a = Ok b.
Proof.
  induction l as [|a l IH]; simpl; intros bs H b Hb.
  - injection H as <-. contradiction.
  - destruct (f a) as [b0| |] eqn:E; try discriminate. simpl in H.
    destruct (mapM f l) as [bs'| |]; try discriminate. simpl in H.
    injection H as <-. destruct Hb as [<-|Hb]; [eauto|].
    destruct (IH bs' eq_refl b Hb) as (a' & Ha' & Hf). eauto.
Qed.

Lemma mean_number (s : list cell) (m : cell) :
  mean s = Ok m -> exists o, number m = Ok o.
Proof.
  unfold mean. destruct (numbers s) as [vs| |]; try discriminate. simpl.
  intros H. injection H as <-. destruct vs; simpl; eauto.
Qed.

(** Beyond the name of the industry, a row of the averages holds
    numbers. *)
Lemma averages_are_numbers (agg : DataFrame) (r : row) (j : nat) :
  industry_data df by_ metrics = Ok agg ->
  In r (rows agg) -> exists o, number (at_ (S j) r) = Ok o.
Proof.
  unfold industry_data, groupby_mean.
  destruct (loc df by_) as [kb'| |]; try discriminate. simpl.
  destruct (mapM (loc df) metrics) as [ks| |]; try discriminate. simpl.
  destruct (mem by_ metrics); try discriminate.
  destruct (mapM text_key (series df kb')) as [keys| |]; try discriminate.
  simpl.
  destruct (mapM (group_means df kb' ks) (group_keys keys)) as [means| |]
    eqn:E; try discriminate. simpl.
  intros H Hr. injection H as <-. simpl in Hr.
  assert (Hc : In (cells r) means)
    by (rewrite <- (cells_relabel means); apply in_map; exact Hr).
  destruct (mapM_In _ _ _ _ _ E _ Hc) as (g & _ & Hg).
  unfold group_means in Hg.
  destruct (mapM _ ks) as [ms| |] eqn:Em; try discriminate.
  simpl in Hg. injection Hg as Hg. unfold at_. rewrite <- Hg. simpl.
  destruct (nth_in_or_default j ms NaN) as [Hin| ->]; [|simpl; eauto].
  destruct (mapM_In _ _ _ _ _ Em _ Hin) as (k & _ & Hk).
  apply (mean_number _ _ Hk).
Qed.

Lemma position_not_first (m : string) (l : list string) (k : nat) :
  m <> by_ -> position m (by_ :: l) = Some k -> exists j, k = S j.
Proof.
  simpl. intros N. rewrite (proj2 (String.eqb_neq m by_) N).
  destruct (position m l) as [j|]; [|discriminate].
  intros H. injection H as <-. eauto.
Qed.

(** The averages, their long form and the two ends of the range are
    all computed. *)
Lemma radar_is_computed :
  exists agg long lo hi,
    industry_data df by_ metrics = Ok agg
    /\ industry_data_melt agg by_ metrics = Ok long
    /\ min_val long = Ok lo
    /\ max_val long = Ok hi.
Proof.
  destruct (industry_data_ok df by_ kb metrics typed labels_once by_at
                             by_text selected) as (means & Hagg & HF).
  pose proof (fun r j => averages_are_numbers _ r j Hagg) as Hnum.
  simpl in Hnum.
  assert (Hfresh : mem "平均值" (by_ :: metrics) = false).
  { destruct (mem "平均值" (by_ :: metrics)) eqn:E; [|reflexivity].
    apply mem_In in E. destruct E as [E|E]; [|contradiction].
    unfold industry_column in detected. apply find_some in detected.
    destruct detected as [C _]. rewrite E in C. simpl in C.
    repeat (destruct C as [C|C]; [discriminate|]). contradiction. }
  destruct (melt_wide by_ metrics (relabel means) "指标" "平均值" Hfresh)
    as (long & Hmelt & Hrecs).
  assert (Hcols : names long = [by_; "指标"; "平均值"]).
  { unfold melt in Hmelt. rewrite names_wide, Hfresh in Hmelt.
    destruct (loc _ by_) as [ki| |]; try discriminate. simpl in Hmelt.
    destruct (mapM _ metrics) as [ks| |]; try discriminate.
    simpl in Hmelt. injection Hmelt as <-. reflexivity. }
  assert (Hby : by_ <> "平均值").
  { intros ->. simpl in Hfresh. discriminate. }
  assert (Hloc : loc long "平均值" = Ok 2).
  { unfold loc. rewrite Hcols.
    change (position "平均值" [by_; "指标"; "平均值"])
      with (if String.eqb "平均值" by_ then Some 0
            else option_map S (position "平均值" ["指标"; "平均值"])).
    rewrite (proj2 (String.eqb_neq "平均值" by_)) by (symmetry; exact Hby).
    reflexivity. }
  assert (Hser : series long 2 = map snd (Spec.long_records long)).
  { unfold series, Spec.long_records. rewrite map_map. reflexivity. }
  assert (Hvals : exists vs, numbers (series long 2) = Ok vs).
  { apply numbers_ok. intros c Hc. rewrite Hser, Hrecs in Hc.
    apply in_map_iff in Hc. destruct Hc as (rec & <- & Hrec).
    apply in_flat_map in Hrec. destruct Hrec as (m & Hm & Hrec).
    apply in_map_iff in Hrec. destruct Hrec as (r & <- & Hr). simpl.
    destruct (position_In m (by_ :: metrics) (or_intror Hm)) as [k Hk].
    unfold Spec.place. rewrite Hk.
    destruct (position_not_first m metrics k) as [j ->]; [|exact Hk|].
    - intros ->.
      exact (by_not_selected df by_ kb metrics labels_once by_at by_text
                             selected Hm).
    - apply Hnum. exact Hr. }
  destruct Hvals as [vs Hvs].
  eexists. exists long. unfold min_val, max_val, min, max.
  rewrite Hloc. simpl. rewrite Hvs. simpl.
  eexists. eexists. split; [exact Hagg|]. split; [exact Hmelt|].
  split; reflexivity.
Qed.

End Comparison.

(** ** The run of the two functions *)

Section Run.

Variable df : DataFrame.
Hypothesis typed : well_typed df.
Hypothesis labels_once : NoDup (names df).
Hypothesis has_code : In CODE (names df).

(** A numeric column is a column of numbers. *)
Lemma metric_numbers (m : string) :
  In m (numeric_columns df) ->
  exists k vs, position m (names df) = Some k
               /\ numbers (series df k) = Ok vs.
Proof.
  intros Hm.
  destruct (metric_at df [m] labels_once) with (m := m) as (k & Hk & Hd).
  - intros x [<-|[]]. exact Hm.
  - left. reflexivity.
  - exists k. destruct (numbers_ok (series df k)) as [vs Hvs].
    + intros c Hc. unfold series in Hc. apply in_map_iff in Hc.
      destruct Hc as (r & <- & Hr).
      apply (numeric_cell (dtype_at df k)); [exact Hd|].
      apply (typed_cell df m); assumption.
    + eauto.
Qed.

Lemma ranking_table_ok (ranking_metric : string) (ascending : bool)
      (top_n : nat) :
  In ranking_metric (numeric_columns df) ->
  exists table, ranking_table df ranking_metric ascending top_n = Ok table.
Proof.
  intros Hm. destruct (metric_numbers _ Hm) as (k & vs & Hk & Hvs).
  unfold ranking_table, ranking_data.
  destruct (sort_values_perm df ranking_metric ascending k vs Hk Hvs)
    as (sorted & -> & Hc & _).
  simpl.
  destruct (getitem_columns_ok (head top_n sorted)
                               (display_columns df ranking_metric))
    as (shown & -> & _).
  - unfold names, head. simpl. rewrite Hc.
    apply display_columns_there; [exact has_code|].
    apply (position_mem _ _ k) in Hk. apply mem_In. exact Hk.
  - simpl. eauto.
Qed.

Variable ui : Page.controls.

Hypothesis industry_text :
  forall col kb, industry_column df = Some col ->
                 position col (names df) = Some kb ->
                 dtype_at df kb = object.
Hypothesis selected : incl (Page.selected_metrics ui) (numeric_columns df).
Hypothesis value_name_free : ~ In "平均值" (Page.selected_metrics ui).
Hypothesis ranked :
  numeric_columns df <> [] -> In (Page.ranking_metric ui) (numeric_columns df).

(** X13.  On a well-typed dataset with distinct labels, a column of
    identifiers and (if any) a text industry column, and for widget
    values the widgets can hold (metrics selected among the numeric
    columns, none labelled ["平均值"], a ranking metric among the numeric
    columns), [plot_overall_interactive_chart] raises nothing.  It
    returns [None], with no radar and no ranking drawn, when the
    dataset has an industry column and a numeric column and no metric
    is selected; in every other case it returns the pair of the numeric
    columns and the industry column, with the pie chart drawn exactly
    when there is an industry column and the ranking exactly when there
    is a numeric column. *)
Theorem chart_function_returns :
  exists shown,
    Page.plot_overall_interactive_chart df ui
    = Ok (shown,
          match industry_column df, numeric_columns df,
                Page.selected_metrics ui with
          | Some _, _ :: _, [] => None
          | _, _, _ => Some (numeric_columns df, industry_column df)
          end)
    /\ (Page.fig_pie shown = None <-> industry_column df = None)
    /\ (Page.ranking shown = None
        <-> numeric_columns df = []
            \/ (industry_column df <> None /\ Page.selected_metrics ui = []))
    /\ (Page.fig_radar shown = None
        <-> industry_column df = None \/ numeric_columns df = []
            \/ Page.selected_metrics ui = []).
Proof.
  unfold Page.plot_overall_interactive_chart.
  destruct (scatter_index_ok (numeric_columns df)) as [sc Hsc].
  destruct (ranking_index_ok (numeric_columns df)) as [ri Hri].
  assert (Hpie : forall col, industry_column df = Some col ->
                             exists t, industry_counts df col = Ok t).
  { intros col Hcol.
    assert (Hin : In col (names df)).
    { unfold industry_column in Hcol. apply find_some in Hcol.
      apply mem_In. tauto. }
    destruct (position_In col (names df) Hin) as [kb Hkb].
    apply (industry_counts_ok df col kb typed Hkb).
    apply (industry_text col kb Hcol Hkb). }
  assert (Hradar : forall col, industry_column df = Some col ->
             exists agg long lo hi,
               industry_data df col (Page.selected_metrics ui) = Ok agg
               /\ industry_data_melt agg col (Page.selected_metrics ui)
                  = Ok long
               /\ min_val long = Ok lo /\ max_val long = Ok hi).
  { intros col Hcol.
    assert (Hin : In col (names df)).
    { unfold industry_column in Hcol. apply find_some in Hcol.
      apply mem_In. tauto. }
    destruct (position_In col (names df) Hin) as [kb Hkb].
    exact (radar_is_computed df col kb (Page.selected_metrics ui)
             typed labels_once Hcol Hkb (industry_text col kb Hcol Hkb)
             selected value_name_free). }
  assert (Htable : numeric_columns df <> [] ->
                   exists table,
                     ranking_table df (Page.ranking_metric ui)
                                   (Page.ascending ui) (Page.top_n ui)
                     = Ok table).
  { intros H. apply ranking_table_ok. apply ranked. exact H. }
  destruct (industry_column df) as [col|].
  - destruct (Hpie col eq_refl) as [pie ->]. cbn [bind]. rewrite Hsc.
    cbn [bind].
    destruct (numeric_columns df) as [|m0 nc].
    + cbn [bind]. eexists. split; [reflexivity|]. simpl.
      split; [split; discriminate|]. split; [tauto|tauto].
    + destruct (Page.selected_metrics ui) as [|s0 ss].
      * eexists. split; [reflexivity|]. simpl.
        split; [split; discriminate|].
        split; [split; [intros _; right; split;
                        [discriminate|reflexivity]|reflexivity]|].
        split; [intros _; right; right; reflexivity|reflexivity].
      * destruct (Hradar col eq_refl)
          as (agg & long & lo & hi & -> & H2 & H3 & H4).
        cbn [bind]. rewrite H2. cbn [bind]. rewrite H3. cbn [bind].
        rewrite H4. cbn [bind]. rewrite Hri. cbn [bind].
        destruct Htable as [table ->]; [discriminate|].
        cbn [bind]. eexists. split; [reflexivity|]. simpl.
        split; [split; discriminate|].
        split.
        { split; [discriminate|]. intros [H|[_ H]]; discriminate. }
        { split; [discriminate|]. intros [H|[H|H]]; discriminate. }
  - cbn [bind]. rewrite Hsc. cbn [bind].
    destruct (numeric_columns df) as [|m0 nc].
    + cbn [bind]. eexists. split; [reflexivity|]. simpl. tauto.
    + rewrite Hri. cbn [bind].
      destruct Htable as [table ->]; [discriminate|].
      cbn [bind]. eexists. split; [reflexivity|]. simpl.
      split; [tauto|]. split; [|tauto].
      split; [discriminate|].
      intros [H|[H _]]; [discriminate|contradiction].
Qed.

End Run.

(** ** What ends a run of [main] *)

Section MainRun.

Variable File : Type.
Variable E : Type.
Variable read_excel : Page.source File -> DataFrame + E.





(** X15.  An exception of [pd.read_excel] leaves [main] exactly when
    no file is uploaded and the default sheet cannot be read: the first
    reading of the default sheet stands before the [try].  With an
    uploaded file that cannot be read, [load_data] returns [None] and
    the page shows that the loading failed. *)
Theorem unreadable_default_sheet_is_not_caught (ui : Page.session File) :
  (forall e,
      Page.main File E read_excel ui = Page.Fails (Page.ReadError e)
      <-> Page.uploaded_file File ui = None
          /\ read_excel (Page.path "merged_data.xlsx") = inr e)
  /\ (forall f e,
         Page.uploaded_file File ui = Some f ->
         read_excel (Page.upload f) = inr e ->
         Page.main File E read_excel ui = Page.Done Page.load_failed).
Proof.
  unfold Page.main, Page.load_data_file. split.
  - intros e. destruct (Page.uploaded_file File ui) as [f|].
    + split; [|intros [H _]; discriminate].
      destruct (read_excel (Page.upload f)) as [sheet|e'].
      * destruct (load_data sheet) as [df|]; [|discriminate].
        destruct (Page.plot_overall_interactive_chart df _)
          as [[shown [[nc ic]|]]| |]; try discriminate.
        destruct (Page.pressed File ui); [|discriminate].
        destruct (query df _ _ _) as [| | | | |md]; try discriminate.
        destruct (empty md); [discriminate|].
        destruct (Page.company_charts _ _ _ _); discriminate.
      * discriminate.
    + destruct (read_excel (Page.path "merged_data.xlsx")) as [sheet|e'].
      * split; [|intros [_ H]; discriminate].
        destruct (load_data sheet) as [df|]; [|discriminate].
        destruct (Page.plot_overall_interactive_chart df _)
          as [[shown [[nc ic]|]]| |]; try discriminate.
        destruct (Page.pressed File ui); [|discriminate].
        destruct (query df _ _ _) as [| | | | |md]; try discriminate.
        destruct (empty md); [discriminate|].
        destruct (Page.company_charts _ _ _ _); discriminate.
      * split; [intros H; injection H as ->; auto|].
        intros [_ H]. injection H as ->. reflexivity.
  - intros f e -> ->. reflexivity.
Qed.

Lemma no_name_column_message (df : DataFrame) (query_text : string)
      (by_ : query_by) (method : query_method) :
  query df query_text by_ method = error_no_name_column ->
  by_ = by_name /\ mem NAME (names df) = false.
Proof.
  unfold query. destruct (Py.strip query_text); [discriminate|].
  assert (H : forall body, handle body <> error_no_name_column)
    by (intros [md|[]|]; discriminate).
  destruct by_; [intros H'; destruct (H _ H')|].
  destruct (mem NAME (names df)); [intros H'; destruct (H _ H')|auto].
Qed.

(** X16.  No run of [main] shows the message that the dataset has no
    name column: the lookup by name is offered only when the column is
    there, so the branch of the handler that shows it is never taken. *)
Theorem no_name_column_message_is_never_shown
        (ui : Page.session File) (overview : Page.drawn) :
  Page.main File E read_excel ui
  <> Page.Done (Page.rendered overview
                              (Some (Page.stopped error_no_name_column))).
Proof.
  unfold Page.main.
  destruct (Page.load_data_file File E read_excel _) as [[df|]|e];
    try discriminate.
  destruct (Page.plot_overall_interactive_chart df _)
    as [[shown [[nc ic]|]]| |]; try discriminate.
  destruct (Page.pressed File ui); [|discriminate].
  destruct (query df _ _ _) as [| | | | |md] eqn:Q; try discriminate.
  - apply no_name_column_message in Q. destruct Q as [Q1 Q2].
    rewrite Q2 in Q1. discriminate.
  - destruct (empty md); [discriminate|].
    destruct (Page.company_charts _ _ _ _); discriminate.
Qed.

End MainRun.

(** ** The charts of the companies found *)

Section CompanyCharts.

Variable md : DataFrame.
Hypothesis typed : well_typed md.
Hypothesis labels_once : NoDup (names md).
Hypothesis has_code : In CODE (names md).

Lemma astype_number (d : dtype) (c : cell) :
  (exists o, number c = Ok o) -> exists o, number (astype d c) = Ok o.
Proof. intros [o H]. destruct d, c; simpl in *; eauto. Qed.

Lemma position_third (id : string) :
  id <> "值" -> position "值" [id; "指标"; "值"] = Some 2.
Proof.
  intros N.
  change (position "值" [id; "指标"; "值"])
    with (if String.eqb "值" id then Some 0
          else option_map S (position "值" ["指标"; "值"])).
  rewrite (proj2 (String.eqb_neq "值" id)) by (intros E; apply N; auto).
  reflexivity.
Qed.

(** Melting numeric columns of the table under a fresh value name gives
    a long table whose third column holds numbers. *)
Lemma melt_mixed_ok (id : string) (value_vars : list string) :
  In id (names md) ->
  incl value_vars (numeric_columns md) ->
  ~ In "值" (names md) ->
  exists long,
    melt_mixed md id value_vars "指标" "值" = Ok long
    /\ names long = [id; "指标"; "值"]
    /\ exists vs, numbers (series long 2) = Ok vs.
Proof.
  intros Hid Hvars Hfree. unfold melt_mixed, melt.
  destruct (mem "值" (names md)) eqn:M; [apply mem_In in M; contradiction|].
  destruct (position_In id (names md) Hid) as [ki Hki].
  rewrite (loc_position _ _ _ Hki). cbn [bind].
  destruct (located md value_vars labels_once Hvars value_vars
                    (incl_refl _)) as (ks & -> & HF).
  cbn [bind]. eexists. split; [reflexivity|]. split; [reflexivity|].
  apply numbers_ok. intros c Hc. unfold series in Hc. simpl in Hc.
  rewrite map_map in Hc. apply in_map_iff in Hc.
  destruct Hc as (r & <- & Hr). unfold at_ at 1. simpl.
  apply astype_number.
  assert (Hcs : In (cells r)
                   (flat_map
                      (fun mk => map (fun r0 => [at_ ki r0; Str (fst mk);
                                                 at_ (snd mk) r0])
                                     (rows md))
                      (combine value_vars ks)))
    by (rewrite <- (cells_relabel (flat_map _ _)); apply in_map; exact Hr).
  apply in_flat_map in Hcs. destruct Hcs as ([m k] & Hmk & Hcs).
  apply in_map_iff in Hcs. destruct Hcs as (r0 & E & Hr0).
  unfold at_ at 1. rewrite <- E. simpl.
  assert (Hk : position m (names md) = Some k
               /\ Spec.is_numeric (dtype_at md k) = true).
  { clear - HF Hmk. induction HF as [|m' k' ms ks' H _ IH];
      [contradiction|].
    destruct Hmk as [Hmk|Hmk]; [injection Hmk as -> ->; exact H|].
    apply IH. exact Hmk. }
  destruct Hk as [Hk Hd].
  apply (numeric_cell (dtype_at md k)); [exact Hd|].
  apply (typed_cell md m); assumption.
Qed.

Lemma company_name_col_there : In (company_name_col md) (names md).
Proof.
  unfold company_name_col. destruct (mem NAME (names md)) eqn:M;
    [apply mem_In; exact M|exact has_code].
Qed.

Lemma radar_metrics_numeric (numeric_columns : list string) :
  incl (radar_metrics numeric_columns) numeric_columns.
Proof.
  unfold radar_metrics. intros m Hm.
  destruct (filter (fun col => mem col numeric_columns) key_metrics)
    as [|m0 ms] eqn:E.
  - rewrite <- (firstn_skipn (Nat.min 6 (List.length numeric_columns))
                             numeric_columns).
    apply in_or_app. left. exact Hm.
  - rewrite <- E in Hm. apply filter_In in Hm. apply mem_In. tauto.
Qed.

Variable industry_column : option string.
Variable compare_metrics : list string.
Hypothesis compared : incl compare_metrics (numeric_columns md).


(** X17.  The charts of the companies found fail exactly on a dataset
    with a column labelled ["值"], the name the script gives the value
    column of the long table: whenever one of the two charts is
    attempted (companies found, a numeric column, and either an
    industry column and at most ten companies, or metrics to compare
    and a name column), [melt] raises a [ValueError], which nothing
    catches.  On a dataset without such a column the charts are
    computed. *)
Theorem company_charts_fail_on_a_value_column :
  (In "值" (names md) ->
   0 < List.length (rows md) -> numeric_columns md <> [] ->
   (industry_column <> None /\ List.length (rows md) <= 10)
   \/ (compare_metrics <> [] /\ In NAME (names md)) ->
   Page.company_charts md (numeric_columns md) industry_column
                       compare_metrics
   = Raise ValueError)
  /\ (~ In "值" (names md) ->
      exists shown,
        Page.company_charts md (numeric_columns md) industry_column
                            compare_metrics
        = Ok shown).
Proof.
  unfold Page.company_charts. split.
  - intros Hv Hlen Hnc Hatt. apply mem_In in Hv.
    assert (L1 : (0 <? List.length (rows md)) = true)
      by (apply Nat.ltb_lt; exact Hlen).
    assert (L2 : (0 <? List.length (numeric_columns md)) = true).
    { apply Nat.ltb_lt. destruct (numeric_columns md);
        [contradiction|simpl; lia]. }
    rewrite L1, L2. cbn [andb].
    assert (R : company_radar_data md (numeric_columns md) = Raise ValueError)
      by (unfold company_radar_data, melt_mixed, melt; rewrite Hv;
          reflexivity).
    assert (C : compare_data md compare_metrics = Raise ValueError)
      by (unfold compare_data, melt_mixed, melt; rewrite Hv; reflexivity).
    destruct industry_column as [col|].
    + destruct (List.length (rows md) <=? 10) eqn:L10.
      * rewrite R. reflexivity.
      * cbn [bind]. destruct Hatt as [[_ H]|[Hc Hn]];
          [apply Nat.leb_gt in L10; lia|].
        destruct compare_metrics as [|c cs]; [contradiction|].
        apply mem_In in Hn. rewrite Hn, C. reflexivity.
    + cbn [bind]. destruct Hatt as [[H _]|[Hc Hn]]; [contradiction|].
      destruct compare_metrics as [|c cs]; [contradiction|].
      apply mem_In in Hn. rewrite Hn, C. reflexivity.
  - intros Hfree.
    destruct ((0 <? List.length (rows md))
              && (0 <? List.length (numeric_columns md)));
      [|eexists; reflexivity].
    assert (R : exists long range,
               company_radar_data md (numeric_columns md) = Ok long
               /\ company_radar_range long = Ok range).
    { destruct (melt_mixed_ok (company_name_col md)
                              (radar_metrics (numeric_columns md))
                              company_name_col_there
                              (radar_metrics_numeric _) Hfree)
        as (long & Hl & Hn & vs & Hvs).
      exists long. unfold company_radar_range, loc. rewrite Hn.
      rewrite position_third
        by (intros E; apply Hfree; rewrite <- E;
            apply company_name_col_there).
      cbn [bind]. unfold max. rewrite Hvs. cbn [bind].
      eexists. split; [exact Hl|reflexivity]. }
    destruct R as (long & range & R1 & R2).
    assert (C : mem NAME (names md) = true ->
                exists bar, compare_data md compare_metrics = Ok bar).
    { intros Hn. apply mem_In in Hn.
      destruct (melt_mixed_ok NAME compare_metrics Hn compared Hfree)
        as (bar & Hb & _).
      eauto. }
    assert (B : exists fig_bar,
               match compare_metrics with
               | [] => Ok None
               | _ :: _ =>
                   if (0 <? List.length (rows md)) && mem NAME (names md)
                   then compare_data0 <- compare_data md compare_metrics ;;
                        Ok (Some compare_data0)
                   else Ok None
               end = Ok fig_bar).
    { destruct compare_metrics as [|c cs]; [eauto|].
      destruct (0 <? List.length (rows md)); cbn [andb]; [|eauto].
      destruct (mem NAME (names md)); [|eauto].
      destruct (C eq_refl) as [bar ->]. cbn [bind]. eauto. }
    destruct B as [fig_bar B].
    destruct industry_column as [col|].
    + destruct (List.length (rows md) <=? 10).
      * rewrite R1. cbn [bind]. rewrite R2. cbn [bind]. rewrite B.
        cbn [bind]. eauto.
      * cbn [bind]. rewrite B. cbn [bind]. eauto.
    + cbn [bind]. rewrite B. cbn [bind]. eauto.
Qed.

End CompanyCharts.

(** ** numpy's quicksort sorts the array *)

Section Sorting.

Context {A : Type}.
Variable less : A -> A -> bool.
Variable v : nat -> A.
Hypothesis less_asym : forall x y, less x y = true -> less y x = false.
Hypothesis less_ntrans :
  forall x y z, less y x = false -> less z y = false -> less z x = false.

(** The key of entry [p] is not greater than the key of entry [q]. *)
Let le (p q : nat) : Prop := less (v q) (v p) = false.

Let lt (p q : nat) : bool := less (v p) (v q).

Lemma le_refl (p : nat) : le p p.
Proof. apply less_irrefl. exact less_asym. Qed.

Lemma le_trans (p q r : nat) : le p q -> le q r -> le p r.
Proof. unfold le. intros H1 H2. exact (less_ntrans _ _ _ H1 H2). Qed.

Lemma lt_le (p q : nat) : lt p q = true -> le p q.
Proof. unfold lt, le. apply less_asym. Qed.

(** *** Ranges of an array *)

(** Every entry before place [c] is at most every entry from [c] on. *)
Let cut (a : list nat) (c : nat) : Prop :=
  forall i j, i < c -> c <= j -> j < List.length a ->
              le (Np.get a i) (Np.get a j).

Let sorted_within (a : list nat) (lo hi : nat) : Prop :=
  forall i j, lo <= i -> i < j -> j <= hi -> le (Np.get a i) (Np.get a j).

(** [a'] is [a] outside the range, and holds in the range entries that
    [a] holds in the range. *)
Let rearranged (a a' : list nat) (lo hi : nat) : Prop :=
  List.length a' = List.length a
  /\ (forall p, p < lo \/ hi < p -> Np.get a' p = Np.get a p)
  /\ (forall p, lo <= p <= hi ->
                exists q, lo <= q <= hi /\ Np.get a' p = Np.get a q).

Lemma rearranged_refl (a : list nat) (lo hi : nat) : rearranged a a lo hi.
Proof. repeat split; eauto. Qed.

Lemma rearranged_trans (a b c : list nat) (lo hi : nat) :
  rearranged a b lo hi -> rearranged b c lo hi -> rearranged a c lo hi.
Proof.
  intros (L1 & O1 & I1) (L2 & O2 & I2). split; [congruence|]. split.
  - intros p Hp. rewrite O2, O1 by exact Hp. reflexivity.
  - intros p Hp. destruct (I2 p Hp) as (q & Hq & E).
    destruct (I1 q Hq) as (r & Hr & E'). exists r. split; [exact Hr|].
    congruence.
Qed.

Lemma rearranged_widen (a b : list nat) (lo hi lo' hi' : nat) :
  lo' <= lo -> hi <= hi' ->
  rearranged a b lo hi -> rearranged a b lo' hi'.
Proof.
  intros Hl Hh (L & O & I). split; [exact L|]. split.
  - intros p Hp. apply O. lia.
  - intros p Hp.
    destruct (Nat.lt_ge_cases p lo) as [H1|H1];
      [exists p; split; [lia|apply O; lia]|].
    destruct (Nat.lt_ge_cases hi p) as [H2|H2];
      [exists p; split; [lia|apply O; lia]|].
    destruct (I p (conj H1 H2)) as (q & Hq & E). exists q.
    split; [lia|exact E].
Qed.

(** A cut outside a range outlives a rearrangement of the range. *)
Lemma cut_rearranged (a a' : list nat) (lo hi c : nat) :
  rearranged a a' lo hi -> hi < List.length a ->
  c <= lo \/ hi < c -> cut a c -> cut a' c.
Proof.
  intros (L & O & I) Hhi Hc C i j Hi Hj Hlen. rewrite L in Hlen.
  assert (Gi : exists i', i' < c /\ Np.get a' i = Np.get a i').
  { destruct (Nat.lt_ge_cases i lo) as [H1|H1];
      [exists i; split; [lia|apply O; lia]|].
    destruct (Nat.lt_ge_cases hi i) as [H2|H2];
      [exists i; split; [lia|apply O; lia]|].
    destruct (I i (conj H1 H2)) as (q & Hq & E). exists q.
    split; [lia|exact E]. }
  assert (Gj : exists j', c <= j' /\ j' < List.length a
                          /\ Np.get a' j = Np.get a j').
  { destruct (Nat.lt_ge_cases j lo) as [H1|H1];
      [exists j; split; [lia|split; [lia|apply O; lia]]|].
    destruct (Nat.lt_ge_cases hi j) as [H2|H2];
      [exists j; split; [lia|split; [lia|apply O; lia]]|].
    destruct (I j (conj H1 H2)) as (q & Hq & E). exists q.
    split; [lia|split; [lia|exact E]]. }
  destruct Gi as (i' & Hi' & ->). destruct Gj as (j' & Hj' & Hl' & ->).
  apply C; assumption.
Qed.

(** A sorted range between two cuts is cut at each of its places. *)
Lemma cut_sorted (a : list nat) (lo hi c : nat) :
  cut a lo -> cut a (S hi) -> sorted_within a lo hi ->
  lo <= c <= S hi -> cut a c.
Proof.
  intros Cl Ch Sw Hc i j Hi Hj Hlen.
  destruct (Nat.lt_ge_cases i lo) as [H1|H1]; [apply Cl; lia|].
  destruct (Nat.lt_ge_cases hi j) as [H2|H2]; [apply Ch; lia|].
  apply Sw; lia.
Qed.

(** A range split by a pivot between two cuts is cut on both sides of
    the pivot. *)
Lemma cut_pivot (a : list nat) (lo hi pi : nat) :
  cut a lo -> cut a (S hi) -> lo <= pi <= hi -> hi < List.length a ->
  (forall k, lo <= k < pi -> le (Np.get a k) (Np.get a pi)) ->
  (forall k, pi < k <= hi -> le (Np.get a pi) (Np.get a k)) ->
  cut a pi /\ cut a (S pi).
Proof.
  intros Cl Ch Hpi Hhi Hbelow Habove.
  assert (G : forall i j, i <= pi -> pi <= j -> i < j -> j < List.length a ->
                          le (Np.get a i) (Np.get a j)).
  { intros i j Hi Hj Hij Hlen.
    destruct (Nat.lt_ge_cases i lo) as [H1|H1]; [apply Cl; lia|].
    destruct (Nat.lt_ge_cases hi j) as [H2|H2]; [apply Ch; lia|].
    apply le_trans with (Np.get a pi).
    - destruct (Nat.eq_dec i pi) as [->|N]; [apply le_refl|].
      apply Hbelow. lia.
    - destruct (Nat.eq_dec j pi) as [->|N]; [apply le_refl|].
      apply Habove. lia. }
  split; intros i j Hi Hj Hlen; apply G; lia.
Qed.

(** *** The insertion sort of a range *)

Lemma get_offset (before b : list nat) (i : nat) :
  Np.get (before ++ b) (List.length before + i) = Np.get b i.
Proof.
  unfold Np.get. rewrite app_nth2 by lia. f_equal. lia.
Qed.

Lemma set_offset (before b : list nat) (i x : nat) :
  Np.set (before ++ b) (List.length before + i) x = before ++ Np.set b i x.
Proof.
  induction before as [|h t IH]; simpl; [reflexivity|].
  rewrite IH. reflexivity.
Qed.

Lemma shift_offset (before : list nat) (k : nat) :
  forall b x,
    Np.shift less v (before ++ b) (List.length before) k x
    = before ++ Np.shift less v b 0 k x.
Proof.
  induction k as [|k IH]; intros b x; cbn [Np.shift].
  - pose proof (set_offset before b 0 x) as H.
    rewrite Nat.add_0_r in H. exact H.
  - rewrite !get_offset, !set_offset. cbn [Nat.add].
    destruct (less (v x) (v (Np.get b k))); [apply IH|reflexivity].
Qed.

Lemma insert_from_offset (before : list nat) (count : nat) :
  forall b pi,
    Np.insert_from less v (before ++ b) (List.length before)
                   (List.length before + pi) count
    = before ++ Np.insert_from less v b 0 pi count.
Proof.
  induction count as [|c IH]; intros b pi; cbn [Np.insert_from];
    [reflexivity|].
  replace (List.length before + pi - List.length before) with pi by lia.
  rewrite get_offset, shift_offset, Nat.sub_0_r.
  replace (S (List.length before + pi)) with (List.length before + S pi)
    by lia.
  apply IH.
Qed.

Lemma insert_from_block (rest post : list nat) :
  forall pre,
    Np.insert_from less v (pre ++ rest ++ post) 0 (List.length pre)
                   (List.length rest)
    = rev (fold_left (fun rp x => Np.place_in lt x rp) rest (rev pre))
      ++ post.
Proof.
  induction rest as [|x rest IH]; intros pre; simpl.
  - rewrite rev_involutive. reflexivity.
  - rewrite Nat.sub_0_r, get_middle.
    rewrite (shift_spec less v (List.length pre) pre (rest ++ post) x x
                        eq_refl).
    replace (S (List.length pre))
      with (List.length (rev (Np.place_in lt x (rev pre))))
      by (rewrite length_rev, place_in_length, length_rev; reflexivity).
    rewrite IH, rev_involutive. reflexivity.
Qed.

(** On a range of the array, the loop is the insertion sort of the
    range. *)
Lemma insertion_block (before mid after : list nat) (x : nat) :
  Np.insertion less v (before ++ (x :: mid) ++ after) (List.length before)
               (List.length before + List.length mid)
  = before ++ Np.isort lt (x :: mid) ++ after.
Proof.
  unfold Np.insertion, Np.isort.
  replace (S (List.length before)) with (List.length before + 1) by lia.
  rewrite insert_from_offset. f_equal.
  replace (List.length before + List.length mid - List.length before)
    with (List.length mid) by lia.
  exact (insert_from_block mid after [x]).
Qed.

(** The insertion sort puts a list in order. *)
Lemma place_in_elements (e : nat) (rp : list nat) (q : nat) :
  In q (Np.place_in lt e rp) <-> q = e \/ In q rp.
Proof.
  induction rp as [|p t IH]; simpl; [intuition|].
  destruct (lt e p); simpl; [rewrite IH|]; intuition.
Qed.

Lemma place_in_ordered (e : nat) (rp : list nat) :
  StronglySorted (fun p q => le q p) rp ->
  StronglySorted (fun p q => le q p) (Np.place_in lt e rp).
Proof.
  induction 1 as [|p t Ht IH Hp]; simpl.
  - repeat constructor.
  - destruct (lt e p) eqn:L.
    + constructor; [exact IH|].
      rewrite Forall_forall in *. intros q Hq.
      apply place_in_elements in Hq.
      destruct Hq as [->|Hq]; [apply lt_le; exact L|apply Hp; exact Hq].
    + constructor; [constructor; assumption|].
      constructor; [exact L|].
      rewrite Forall_forall in *. intros q Hq.
      apply le_trans with p; [apply Hp; exact Hq|exact L].
Qed.

Lemma isort_ordered (l : list nat) : StronglySorted le (Np.isort lt l).
Proof.
  unfold Np.isort. apply sorted_rev.
  assert (G : forall rp,
             StronglySorted (fun p q => le q p) rp ->
             StronglySorted (fun p q => le q p)
               (fold_left (fun rp e => Np.place_in lt e rp) l rp)).
  { induction l as [|e l IH]; simpl; intros rp H; [exact H|].
    apply IH. apply place_in_ordered. exact H. }
  apply G. constructor.
Qed.

Lemma isort_elements (l : list nat) (q : nat) :
  In q (Np.isort lt l) <-> In q l.
Proof.
  unfold Np.isort. rewrite <- in_rev.
  assert (G : forall rp,
             In q (fold_left (fun rp e => Np.place_in lt e rp) l rp)
             <-> In q l \/ In q rp).
  { induction l as [|e l IH]; simpl; intros rp; [tauto|].
    rewrite IH, place_in_elements. intuition. }
  rewrite G. simpl. tauto.
Qed.

Lemma isort_length (l : list nat) :
  List.length (Np.isort lt l) = List.length l.
Proof.
  unfold Np.isort. rewrite length_rev.
  assert (G : forall rp,
             List.length (fold_left (fun rp e => Np.place_in lt e rp) l rp)
             = List.length l + List.length rp).
  { induction l as [|e l IH]; simpl; intros rp; [reflexivity|].
    rewrite IH, place_in_length. lia. }
  rewrite G. simpl. lia.
Qed.

Lemma sorted_nth (l : list nat) :
  StronglySorted le l ->
  forall i j, i < j -> j < List.length l -> le (nth i l 0) (nth j l 0).
Proof.
  induction 1 as [|x l Hl IH Hx]; intros i j Hij Hj; simpl in *; [lia|].
  destruct j as [|j]; [lia|]. destruct i as [|i].
  - rewrite Forall_forall in Hx. apply Hx. apply nth_In. lia.
  - apply IH; lia.
Qed.

(** A range of an array, with what stands before and after it. *)
Lemma range_blocks (a : list nat) (pl pr : nat) :
  pl <= pr -> pr < List.length a ->
  exists before x mid after,
    a = before ++ (x :: mid) ++ after
    /\ List.length before = pl
    /\ List.length mid = pr - pl.
Proof.
  intros H1 H2.
  set (before := firstn pl a).
  set (rest := skipn pl a).
  assert (Lb : List.length before = pl)
    by (unfold before; rewrite length_firstn; lia).
  assert (Lr : List.length rest = List.length a - pl)
    by (unfold rest; apply length_skipn).
  destruct rest as [|x rest'] eqn:Er; [simpl in Lr; lia|].
  exists before, x, (firstn (pr - pl) rest'), (skipn (pr - pl) rest').
  split; [|split; [exact Lb|]].
  - simpl. rewrite firstn_skipn. rewrite <- Er. unfold before, rest.
    symmetry. apply firstn_skipn.
  - rewrite length_firstn. simpl in Lr. lia.
Qed.

(** On a range of the array, the loop leaves the rest of the array as
    it is and the range in order. *)
Lemma insertion_sorts (a : list nat) (pl pr : nat) :
  pl <= pr -> pr < List.length a ->
  rearranged a (Np.insertion less v a pl pr) pl pr
  /\ sorted_within (Np.insertion less v a pl pr) pl pr.
Proof.
  intros H1 H2.
  destruct (range_blocks a pl pr H1 H2)
    as (before & x & mid & after & -> & Lb & Lm).
  replace pr with (List.length before + List.length mid) by lia.
  rewrite <- Lb. rewrite insertion_block.
  set (s := Np.isort lt (x :: mid)).
  assert (Ls : List.length s = S (List.length mid))
    by (unfold s; rewrite isort_length; reflexivity).
  assert (G : forall p, List.length before <= p
                        <= List.length before + List.length mid ->
                        Np.get (before ++ s ++ after) p
                        = nth (p - List.length before) s 0).
  { intros p Hp. unfold Np.get. rewrite app_nth2 by lia.
    rewrite app_nth1 by lia. reflexivity. }
  assert (G0 : forall p, List.length before <= p
                         <= List.length before + List.length mid ->
                         Np.get (before ++ (x :: mid) ++ after) p
                         = nth (p - List.length before) (x :: mid) 0).
  { intros p Hp. unfold Np.get. rewrite app_nth2 by lia.
    rewrite app_nth1 by (simpl; lia). reflexivity. }
  split; [split; [|split]|].
  - rewrite !length_app, Ls. reflexivity.
  - intros p [Hp|Hp]; unfold Np.get.
    + rewrite !app_nth1 by lia. reflexivity.
    + rewrite !app_nth2 by lia. rewrite !app_nth2 by (simpl; lia).
      f_equal. simpl. lia.
  - intros p Hp. rewrite (G p Hp).
    assert (Hin : In (nth (p - List.length before) s 0) (x :: mid)).
    { apply isort_elements. fold s. apply nth_In. lia. }
    apply (In_nth _ _ 0) in Hin. destruct Hin as (q & Hq & E).
    exists (List.length before + q). simpl in Hq. split; [lia|].
    rewrite G0 by lia.
    replace (List.length before + q - List.length before) with q by lia.
    symmetry. exact E.
  - intros i j Hi Hij Hj. rewrite (G i), (G j) by lia.
    apply sorted_nth; [apply isort_ordered|lia|lia].
Qed.

(** *** The partition puts the pivot at its place *)

Lemma swap_rearranged (a : list nat) (lo hi i j : nat) :
  lo <= i <= hi -> lo <= j <= hi -> hi < List.length a ->
  rearranged a (Np.swap a i j) lo hi.
Proof.
  intros Hi Hj Hhi. split; [apply swap_length|]. split.
  - intros p Hp. apply get_swap_other; lia.
  - intros p Hp.
    destruct (Nat.eq_dec p i) as [->|Ni];
      [exists j; split; [exact Hj|apply get_swap_l; lia]|].
    destruct (Nat.eq_dec p j) as [->|Nj];
      [exists i; split; [exact Hi|apply get_swap_r; lia]|].
    exists p. split; [exact Hp|apply get_swap_other; assumption].
Qed.

(** The scans pass over entries on the right side of the pivot. *)
Lemma scan_up_passed (a : list nat) (vp : A) (fuel : nat) :
  forall pi k,
    pi < k -> k < Np.scan_up less v fuel a vp pi ->
    less (v (Np.get a k)) vp = true.
Proof.
  induction fuel as [|f IH]; intros pi k H1 H2; simpl in H2; [lia|].
  destruct (less (v (Np.get a (S pi))) vp) eqn:E; [|lia].
  destruct (Nat.eq_dec k (S pi)) as [->|N]; [exact E|].
  apply (IH (S pi)); [lia|exact H2].
Qed.

Lemma scan_down_passed (a : list nat) (vp : A) (fuel : nat) :
  forall pj k,
    Np.scan_down less v fuel a vp pj < k -> k < pj ->
    less vp (v (Np.get a k)) = true.
Proof.
  induction fuel as [|f IH]; intros pj k H1 H2; simpl in H1; [lia|].
  destruct (less vp (v (Np.get a (pj - 1)))) eqn:E; [|lia].
  destruct (Nat.eq_dec k (pj - 1)) as [->|N]; [exact E|].
  apply (IH (pj - 1)); [exact H1|lia].
Qed.

(** The exchange loop: at its end, what stands below the place it
    returns is not greater than the pivot, and what stands from there
    on is not less. *)
Lemma exchange_order (vp : A) (pl hi : nat) (fuel : nat) :
  forall a pi pj,
    pl <= pi -> pi < pj -> pj <= hi -> hi < List.length a ->
    pj - pi <= S fuel ->
    (forall k, pl <= k <= pi -> less vp (v (Np.get a k)) = false) ->
    (forall k, pj <= k <= hi -> less (v (Np.get a k)) vp = false) ->
    let a' := fst (Np.exchange less v fuel a vp pi pj) in
    let r := snd (Np.exchange less v fuel a vp pi pj) in
    rearranged a a' (S pi) (pj - 1)
    /\ pi < r <= pj
    /\ (forall k, pl <= k < r -> less vp (v (Np.get a' k)) = false)
    /\ (forall k, r <= k <= hi -> less (v (Np.get a' k)) vp = false).
Proof.
  induction fuel as [|f IH]; intros a pi pj Hpl Hlt Hhi Hlen Hf HL HR;
    cbn [Np.exchange];
    destruct (scan_up_spec less v a vp (List.length a) pi pj Hlt)
      as [U1 U2]; try (apply HR; lia); try lia;
    destruct (scan_down_spec less v a vp (List.length a) pj pi Hlt)
      as [D1 D2]; try (apply HL; lia); try lia;
    pose proof (fun k => scan_up_passed a vp (List.length a) pi k) as UP;
    pose proof (fun k => scan_down_passed a vp (List.length a) pj k) as DP;
    set (pi' := Np.scan_up less v (List.length a) a vp pi) in *;
    set (pj' := Np.scan_down less v (List.length a) a vp pj) in *;
    assert (Lext : forall k, pl <= k < pi' -> less vp (v (Np.get a k)) = false)
      by (intros k Hk; destruct (Nat.le_gt_cases k pi);
          [apply HL; lia|apply less_asym; apply UP; lia]);
    assert (Rext : forall k, pj' < k <= hi -> less (v (Np.get a k)) vp = false)
      by (intros k Hk; destruct (Nat.le_gt_cases pj k);
          [apply HR; lia|apply less_asym; apply DP; lia]);
    assert (Exit : pj' <= pi' ->
                   rearranged a a (S pi) (pj - 1)
                   /\ pi < pi' <= pj
                   /\ (forall k, pl <= k < pi' ->
                                 less vp (v (Np.get a k)) = false)
                   /\ (forall k, pi' <= k <= hi ->
                                 less (v (Np.get a k)) vp = false))
      by (intros C; split; [apply rearranged_refl|]; split; [lia|];
          split; [exact Lext|]; intros k Hk;
          destruct (Nat.eq_dec k pi') as [->|N]; [exact U2|apply Rext; lia]);
    destruct (pj' <=? pi') eqn:C;
    try (apply Nat.leb_le in C; simpl; apply Exit; exact C).
  - apply Nat.leb_gt in C. lia.
  - apply Nat.leb_gt in C.
    destruct (IH (Np.swap a pi' pj') pi' pj') as (R1 & R2 & R3 & R4);
      try lia.
    + rewrite swap_length. exact Hlen.
    + intros k Hk. destruct (Nat.eq_dec k pi') as [->|N].
      * rewrite get_swap_l by lia. exact D2.
      * rewrite get_swap_other by lia. apply Lext. lia.
    + intros k Hk. destruct (Nat.eq_dec k pj') as [->|N].
      * rewrite get_swap_r by lia. exact U2.
      * rewrite get_swap_other by lia. apply Rext. lia.
    + simpl. split; [|split; [lia|split; assumption]].
      apply rearranged_trans with (Np.swap a pi' pj').
      * apply swap_rearranged; lia.
      * apply (rearranged_widen _ _ (S pi') (pj' - 1)); [lia|lia|exact R1].
Qed.

Lemma cond_swap_rearranged (b : list nat) (lo hi i j : nat) (c : bool) :
  lo <= i <= hi -> lo <= j <= hi -> hi < List.length b ->
  rearranged b (if c then Np.swap b i j else b) lo hi.
Proof.
  intros Hi Hj Hhi. destruct c; [|apply rearranged_refl].
  apply swap_rearranged; assumption.
Qed.

(** The median of three: the entries at [pl], [pm] and [pr] end up in
    order. *)
Lemma median_of_three (a : list nat) (pl pm pr : nat) :
  pl < pm -> pm < pr -> pr < List.length a ->
  let a1 := if less (v (Np.get a pm)) (v (Np.get a pl))
            then Np.swap a pm pl else a in
  let a2 := if less (v (Np.get a1 pr)) (v (Np.get a1 pm))
            then Np.swap a1 pr pm else a1 in
  let a3 := if less (v (Np.get a2 pm)) (v (Np.get a2 pl))
            then Np.swap a2 pm pl else a2 in
  rearranged a a3 pl pr
  /\ le (Np.get a3 pl) (Np.get a3 pm)
  /\ le (Np.get a3 pm) (Np.get a3 pr).
Proof.
  intros H1 H2 H3 a1 a2 a3.
  assert (R1 : rearranged a a1 pl pr)
    by (apply cond_swap_rearranged; lia).
  assert (L1 : List.length a1 = List.length a) by apply R1.
  assert (R2 : rearranged a1 a2 pl pr)
    by (apply cond_swap_rearranged; lia).
  assert (L2 : List.length a2 = List.length a) by (rewrite <- L1; apply R2).
  assert (R3 : rearranged a2 a3 pl pr)
    by (apply cond_swap_rearranged; lia).
  split; [eapply rearranged_trans; [eapply rearranged_trans|]; eassumption|].
  assert (O1 : le (Np.get a1 pl) (Np.get a1 pm)).
  { unfold a1, le. destruct (less (v (Np.get a pm)) (v (Np.get a pl))) eqn:E;
      [|exact E].
    rewrite get_swap_l, get_swap_r by lia. apply less_asym. exact E. }
  assert (O2 : le (Np.get a2 pm) (Np.get a2 pr)
               /\ le (Np.get a2 pl) (Np.get a2 pr)
               /\ Np.get a2 pl = Np.get a1 pl).
  { unfold a2, le.
    destruct (less (v (Np.get a1 pr)) (v (Np.get a1 pm))) eqn:E.
    - rewrite get_swap_l, get_swap_r, get_swap_other by lia.
      split; [apply less_asym; exact E|]. split; [exact O1|reflexivity].
    - split; [exact E|]. split; [|reflexivity].
      apply (le_trans _ (Np.get a1 pm)); [exact O1|exact E]. }
  destruct O2 as (O2 & O2' & E2).
  unfold a3, le.
  destruct (less (v (Np.get a2 pm)) (v (Np.get a2 pl))) eqn:E.
  - rewrite get_swap_l, get_swap_r, get_swap_other by lia.
    split; [apply less_asym; exact E|exact O2'].
  - split; [exact E|exact O2].
Qed.

Lemma partition_order (a : list nat) (pl pr : nat) :
  Np.SMALL_QUICKSORT < pr - pl -> pr < List.length a ->
  let a' := fst (Np.partition less v a pl pr) in
  let pi := snd (Np.partition less v a pl pr) in
  rearranged a a' pl pr
  /\ pl < pi < pr
  /\ (forall k, pl <= k < pi -> le (Np.get a' k) (Np.get a' pi))
  /\ (forall k, pi < k <= pr -> le (Np.get a' pi) (Np.get a' k)).
Proof.
  unfold Np.SMALL_QUICKSORT. intros Hbig Hr. unfold Np.partition.
  pose proof (div2_bounds (pr - pl)) as Hm.
  set (pm := pl + Nat.div2 (pr - pl)) in *.
  assert (Hpm : pl < pm < pr) by (unfold pm; lia).
  destruct (median_of_three a pl pm pr) as (R3 & M1 & M2); try lia.
  set (a1 := if less (v (Np.get a pm)) (v (Np.get a pl))
             then Np.swap a pm pl else a) in *.
  set (a2 := if less (v (Np.get a1 pr)) (v (Np.get a1 pm))
             then Np.swap a1 pr pm else a1) in *.
  set (a3 := if less (v (Np.get a2 pm)) (v (Np.get a2 pl))
             then Np.swap a2 pm pl else a2) in *.
  assert (L3 : List.length a3 = List.length a) by apply R3.
  set (vp := v (Np.get a3 pm)) in *.
  set (a4 := Np.swap a3 pm (pr - 1)).
  assert (R4 : rearranged a3 a4 pl pr) by (apply swap_rearranged; lia).
  assert (L4 : List.length a4 = List.length a)
    by (unfold a4; rewrite swap_length; exact L3).
  assert (G4l : Np.get a4 pl = Np.get a3 pl)
    by (unfold a4; apply get_swap_other; lia).
  assert (G4p : Np.get a4 (pr - 1) = Np.get a3 pm)
    by (unfold a4; apply get_swap_r; lia).
  assert (G4r : Np.get a4 pr = Np.get a3 pr)
    by (unfold a4; apply get_swap_other; lia).
  destruct (exchange_order vp pl (pr - 1) (List.length a4) a4 pl (pr - 1))
    as (R5 & B5 & L5 & U5); try lia.
  - intros k Hk. replace k with pl by lia. rewrite G4l. exact M1.
  - intros k Hk. replace k with (pr - 1) by lia. rewrite G4p.
    apply less_irrefl. exact less_asym.
  - destruct (Np.exchange less v (List.length a4) a4 vp pl (pr - 1))
      as [a5 pi]. simpl in *.
    assert (L5' : List.length a5 = List.length a)
      by (rewrite <- L4; apply R5).
    assert (G5p : Np.get a5 (pr - 1) = Np.get a3 pm)
      by (rewrite <- G4p; apply R5; lia).
    assert (G5r : Np.get a5 pr = Np.get a3 pr)
      by (rewrite <- G4r; apply R5; lia).
    assert (Gpi : Np.get (Np.swap a5 pi (pr - 1)) pi = Np.get a3 pm)
      by (rewrite get_swap_l by lia; exact G5p).
    split; [|split; [lia|split]].
    + apply rearranged_trans with a3; [exact R3|].
      apply rearranged_trans with a4; [exact R4|].
      apply rearranged_trans with a5.
      * apply (rearranged_widen _ _ (S pl) (pr - 1 - 1)); [lia|lia|exact R5].
      * apply swap_rearranged; lia.
    + intros k Hk. unfold le. rewrite Gpi.
      rewrite get_swap_other by lia. apply L5. lia.
    + intros k Hk. unfold le. rewrite Gpi.
      destruct (Nat.eq_dec k pr) as [->|Npr].
      * rewrite get_swap_other by lia. rewrite G5r. exact M2.
      * destruct (Nat.eq_dec k (pr - 1)) as [->|Np].
        -- rewrite get_swap_r by lia. apply U5. lia.
        -- rewrite get_swap_other by lia. apply U5. lia.
Qed.

(** *** The heapsort of a range puts it in order *)

Lemma at1_put1_same (a : list nat) (base i x : nat) :
  1 <= i -> base + i <= List.length a ->
  Np.at1 (Np.put1 a base i x) base i = x.
Proof.
  intros H1 H2. unfold Np.at1, Np.put1. apply get_set_same. lia.
Qed.

Lemma at1_put1_other (a : list nat) (base i k x : nat) :
  1 <= i -> 1 <= k -> k <> i ->
  Np.at1 (Np.put1 a base i x) base k = Np.at1 a base k.
Proof.
  intros H1 H2 H3. unfold Np.at1, Np.put1. apply get_set_other. lia.
Qed.

(** In the heap numbering, every entry from [lo] on is not less than
    its two children. *)
Let heap (base n lo : nat) (a : list nat) : Prop :=
  forall k c, lo <= k -> c <= n -> c = k + k \/ c = S (k + k) ->
              le (Np.at1 a base c) (Np.at1 a base k).

(** Filling the free place [i] with [tmp] gives a heap when [tmp] is
    not less than the children of [i], the parent of [i] is not less
    than [tmp], and the rest is a heap. *)
Lemma fill_heap (base n lo : nat) (a : list nat) (tmp i : nat) :
  1 <= lo -> lo <= i -> i <= n -> base + n <= List.length a ->
  (forall k c, lo <= k -> c <= n -> c = k + k \/ c = S (k + k) ->
               k <> i -> c <> i ->
               le (Np.at1 a base c) (Np.at1 a base k)) ->
  (forall p, lo <= p -> i = p + p \/ i = S (p + p) ->
             le tmp (Np.at1 a base p)) ->
  (forall c, c <= n -> c = i + i \/ c = S (i + i) ->
             le (Np.at1 a base c) tmp) ->
  heap base n lo (Np.put1 a base i tmp).
Proof.
  intros Hlo Hi Hn Hlen P1 P2 P3 k c Hk Hc Hkc.
  destruct (Nat.eq_dec k i) as [->|Nk].
  - rewrite at1_put1_same by lia. rewrite at1_put1_other by lia.
    apply P3; assumption.
  - rewrite (at1_put1_other a base i k) by lia.
    destruct (Nat.eq_dec c i) as [->|Nc].
    + rewrite at1_put1_same by lia. apply P2; assumption.
    + rewrite at1_put1_other by lia. apply P1; assumption.
Qed.

Lemma sift_heap (base n lo : nat) (fuel : nat) :
  forall a tmp i,
    1 <= lo -> lo <= i -> i <= n -> base + n <= List.length a ->
    n <= i + fuel ->
    (forall k c, lo <= k -> c <= n -> c = k + k \/ c = S (k + k) ->
                 k <> i -> c <> i ->
                 le (Np.at1 a base c) (Np.at1 a base k)) ->
    (forall p, lo <= p -> i = p + p \/ i = S (p + p) ->
               le tmp (Np.at1 a base p)
               /\ forall c, c <= n -> c = i + i \/ c = S (i + i) ->
                            le (Np.at1 a base c) (Np.at1 a base p)) ->
    heap base n lo (Np.sift less v fuel a base tmp i (i + i) n).
Proof.
  induction fuel as [|f IH]; intros a tmp i Hlo Hi Hn Hlen Hf P1 P2;
    cbn [Np.sift].
  - apply fill_heap; try assumption.
    + intros p Hp Hip. apply P2; assumption.
    + intros c Hc Hci. lia.
  - destruct (i + i <=? n) eqn:Hj.
    2:{ apply Nat.leb_gt in Hj. apply fill_heap; try assumption.
        - intros p Hp Hip. apply P2; assumption.
        - intros c Hc Hci. lia. }
    apply Nat.leb_le in Hj.
    set (j' := if (i + i <? n)
                  && less (v (Np.at1 a base (i + i)))
                          (v (Np.at1 a base (i + i + 1)))
               then i + i + 1 else i + i).
    assert (Hj' : (j' = i + i \/ j' = S (i + i)) /\ j' <= n
                  /\ forall c, c <= n -> c = i + i \/ c = S (i + i) ->
                               le (Np.at1 a base c) (Np.at1 a base j')).
    { unfold j'. destruct (i + i <? n) eqn:L; cbn [andb].
      - apply Nat.ltb_lt in L.
        destruct (less (v (Np.at1 a base (i + i)))
                       (v (Np.at1 a base (i + i + 1)))) eqn:E.
        + split; [right; lia|]. split; [lia|].
          intros c Hc [->| ->].
          * apply lt_le. exact E.
          * replace (S (i + i)) with (i + i + 1) by lia. apply le_refl.
        + split; [left; reflexivity|]. split; [lia|].
          intros c Hc [->| ->]; [apply le_refl|].
          replace (S (i + i)) with (i + i + 1) by lia. exact E.
      - apply Nat.ltb_ge in L. split; [left; reflexivity|]. split; [lia|].
        intros c Hc [->| ->]; [apply le_refl|lia]. }
    destruct Hj' as (Hch & Hjn & Hbig).
    destruct (less (v tmp) (v (Np.at1 a base j'))) eqn:E.
    + set (a1 := Np.put1 a base i (Np.at1 a base j')).
      assert (G : forall x, 1 <= x -> x <> i ->
                            Np.at1 a1 base x = Np.at1 a base x)
        by (intros x Hx Nx; unfold a1; apply at1_put1_other; lia).
      assert (Gi : Np.at1 a1 base i = Np.at1 a base j')
        by (unfold a1; apply at1_put1_same; lia).
      apply IH; try lia.
      * unfold a1, Np.put1. rewrite set_length. exact Hlen.
      * intros k c Hk Hc Hkc Nk Nc.
        destruct (Nat.eq_dec k i) as [->|Nki].
        -- rewrite Gi, G by lia. apply Hbig; assumption.
        -- rewrite (G k) by lia.
           destruct (Nat.eq_dec c i) as [->|Nci].
           ++ rewrite Gi. apply (P2 k); assumption.
           ++ rewrite G by lia. apply P1; assumption.
      * intros p Hp Hjp. assert (p = i) by lia. subst p.
        rewrite Gi. split; [apply lt_le; exact E|].
        intros c Hc Hcj. rewrite G by lia. apply P1; try lia.
    + apply fill_heap; try assumption.
      * intros p Hp Hip. apply P2; assumption.
      * intros c Hc Hci. apply le_trans with (Np.at1 a base j');
          [apply Hbig; assumption|exact E].
Qed.

(** Sifting writes in the range only, and only [tmp] or entries of the
    range. *)
Lemma sift_frame (base n : nat) (fuel : nat) :
  forall a tmp i j,
    1 <= i -> i < j -> i <= n -> base + n <= List.length a ->
    let r := Np.sift less v fuel a base tmp i j n in
    (forall p, p < base + i - 1 \/ base + n - 1 < p ->
               Np.get r p = Np.get a p)
    /\ (forall k, 1 <= k <= n ->
                  Np.at1 r base k = tmp
                  \/ exists k', 1 <= k' <= n
                                /\ Np.at1 r base k = Np.at1 a base k').
Proof.
  induction fuel as [|f IH]; intros a tmp i j Hi Hij Hn Hlen;
    cbn [Np.sift].
  - split.
    + intros p Hp. unfold Np.put1. apply get_set_other. lia.
    + intros k Hk. destruct (Nat.eq_dec k i) as [->|N].
      * left. apply at1_put1_same; lia.
      * right. exists k. split; [exact Hk|apply at1_put1_other; lia].
  - assert (Last : (forall p, p < base + i - 1 \/ base + n - 1 < p ->
                              Np.get (Np.put1 a base i tmp) p = Np.get a p)
                   /\ (forall k, 1 <= k <= n ->
                                 Np.at1 (Np.put1 a base i tmp) base k = tmp
                                 \/ exists k', 1 <= k' <= n
                                               /\ Np.at1 (Np.put1 a base i tmp)
                                                         base k
                                                  = Np.at1 a base k')).
    { split.
      - intros p Hp. unfold Np.put1. apply get_set_other. lia.
      - intros k Hk. destruct (Nat.eq_dec k i) as [->|N].
        + left. apply at1_put1_same; lia.
        + right. exists k. split; [exact Hk|apply at1_put1_other; lia]. }
    destruct (j <=? n) eqn:Hj; [|exact Last].
    apply Nat.leb_le in Hj.
    set (j' := if (j <? n)
                  && less (v (Np.at1 a base j)) (v (Np.at1 a base (j + 1)))
               then j + 1 else j).
    assert (Hj' : i < j' /\ j' <= n).
    { unfold j'. destruct (j <? n) eqn:L; cbn [andb]; [|lia].
      apply Nat.ltb_lt in L.
      destruct (less (v (Np.at1 a base j)) (v (Np.at1 a base (j + 1)))); lia. }
    destruct (less (v tmp) (v (Np.at1 a base j'))); [|exact Last].
    set (a1 := Np.put1 a base i (Np.at1 a base j')).
    destruct (IH a1 tmp j' (j' + j')) as [F1 F2]; try lia.
    { unfold a1, Np.put1. rewrite set_length. exact Hlen. }
    split.
    + intros p Hp. rewrite F1 by lia. unfold a1, Np.put1.
      apply get_set_other. lia.
    + intros k Hk. destruct (F2 k Hk) as [F|(k' & Hk' & F)]; [left; exact F|].
      right. rewrite F. destruct (Nat.eq_dec k' i) as [->|N].
      * exists j'. split; [lia|]. unfold a1. apply at1_put1_same; lia.
      * exists k'. split; [exact Hk'|]. unfold a1.
        apply at1_put1_other; lia.
Qed.


Lemma sift_length (base n : nat) (fuel : nat) (a : list nat)
      (tmp i j : nat) :
  1 <= i -> i < j -> i <= n -> base + n <= List.length a ->
  List.length (Np.sift less v fuel a base tmp i j n) = List.length a.
Proof.
  intros H1 H2 H3 H4.
  exact (proj2 (sift_perm less v base n fuel a tmp i j H1 H2 H3 H4)).
Qed.

(** Entries drawn from a range, the rest kept: a rearrangement of the
    range, told with the heap numbering. *)
Lemma drawn_rearranged (a r : list nat) (base n : nat) :
  1 <= n -> List.length r = List.length a ->
  (forall p, p < base \/ base + n - 1 < p -> Np.get r p = Np.get a p) ->
  (forall k, 1 <= k <= n ->
             exists k', 1 <= k' <= n
                        /\ Np.at1 r base k = Np.at1 a base k') ->
  rearranged a r base (base + n - 1).
Proof.
  intros Hn L O D. split; [exact L|]. split; [exact O|].
  intros p Hp. destruct (D (p - base + 1)) as (k' & Hk' & E); [lia|].
  exists (base + k' - 1). split; [lia|].
  unfold Np.at1 in E. replace (base + (p - base + 1) - 1) with p in E by lia.
  exact E.
Qed.

Lemma heapify_heap (base n : nat) (l : nat) :
  forall a, 1 <= n -> l <= n -> base + n <= List.length a ->
            heap base n (S l) a ->
            heap base n 1 (Np.heapify less v a base l n)
            /\ rearranged a (Np.heapify less v a base l n)
                          base (base + n - 1).
Proof.
  induction l as [|l IH]; intros a Hn Hl Hlen Hp; cbn [Np.heapify].
  - split; [exact Hp|apply rearranged_refl].
  - set (r := Np.sift less v n a base (Np.at1 a base (S l)) (S l)
                      (S l + S l) n).
    assert (Lr : List.length r = List.length a)
      by (apply sift_length; lia).
    destruct (sift_frame base n n a (Np.at1 a base (S l)) (S l)
                         (S l + S l)) as [F1 F2]; try lia.
    fold r in F1, F2.
    destruct (IH r) as [H R]; try lia.
    + unfold r. apply sift_heap; try lia.
      intros k c Hk Hc Hkc Nk Nc. apply Hp; try assumption. lia.
    + split; [exact H|].
      apply rearranged_trans with r; [|exact R].
      apply drawn_rearranged; try assumption.
      * intros p Hq. apply F1. lia.
      * intros k Hk. destruct (F2 k Hk) as [E|E]; [|exact E].
        exists (S l). split; [lia|exact E].
Qed.

(** The root of a heap is not less than any of its entries. *)
Lemma heap_root_max (base n : nat) (a : list nat) :
  heap base n 1 a ->
  forall k, 1 <= k <= n -> le (Np.at1 a base k) (Np.at1 a base 1).
Proof.
  intros H k. induction k as [k IH] using (well_founded_induction lt_wf).
  intros Hk. destruct (Nat.eq_dec k 1) as [->|N]; [apply le_refl|].
  assert (Hd : k = Nat.div2 k + Nat.div2 k \/ k = S (Nat.div2 k + Nat.div2 k)).
  { pose proof (Nat.div2_odd k) as E. destruct (Nat.odd k); simpl in E; lia. }
  assert (Hh : 1 <= Nat.div2 k < k).
  { clear IH. lia. }
  apply le_trans with (Np.at1 a base (Nat.div2 k)).
  - apply H; [lia|lia|exact Hd].
  - apply IH; lia.
Qed.

Lemma extract_sorts (base N : nat) (n : nat) :
  forall a, n <= N -> base + N <= List.length a ->
            heap base n 1 a ->
            (forall k j, 1 <= k <= n -> n < j <= N ->
                         le (Np.at1 a base k) (Np.at1 a base j)) ->
            (forall i j, n < i -> i < j -> j <= N ->
                         le (Np.at1 a base i) (Np.at1 a base j)) ->
            let r := Np.extract less v a base n in
            (forall i j, 1 <= i -> i < j -> j <= N ->
                         le (Np.at1 r base i) (Np.at1 r base j))
            /\ List.length r = List.length a
            /\ (forall p, p < base \/ base + N - 1 < p ->
                          Np.get r p = Np.get a p)
            /\ (forall k, 1 <= k <= N ->
                          exists k', 1 <= k' <= N
                                     /\ Np.at1 r base k = Np.at1 a base k').
Proof.
  induction n as [|m IH]; intros a Hn Hlen H B T; cbn [Np.extract].
  - cbv zeta. split; [intros i j Hi Hij Hj; apply T; lia|].
    split; [reflexivity|]. split; [reflexivity|].
    intros k Hk. exists k. split; [exact Hk|reflexivity].
  - destruct m as [|m'].
    + cbv zeta. split.
      * intros i j Hi Hij Hj. destruct (Nat.eq_dec i 1) as [->|Ni].
        -- apply B; lia.
        -- apply T; lia.
      * split; [reflexivity|]. split; [reflexivity|].
        intros k Hk. exists k. split; [exact Hk|reflexivity].
    + remember (S m') as m eqn:Em.
      assert (M1 : 1 <= m) by lia. clear Em m'.
      set (tmp := Np.at1 a base (S m)).
      set (a1 := Np.put1 a base (S m) (Np.at1 a base 1)).
      set (r1 := Np.sift less v m a1 base tmp 1 2 m).
      assert (L1 : List.length a1 = List.length a)
        by (unfold a1, Np.put1; apply set_length).
      assert (G1 : forall x, 1 <= x -> x <> S m ->
                             Np.at1 a1 base x = Np.at1 a base x)
        by (intros x Hx Nx; unfold a1; apply at1_put1_other; lia).
      assert (Gn : Np.at1 a1 base (S m) = Np.at1 a base 1)
        by (unfold a1; apply at1_put1_same; lia).
      assert (Lr : List.length r1 = List.length a)
        by (unfold r1; rewrite sift_length; lia).
      destruct (sift_frame base m m a1 tmp 1 2) as [F1 F2]; try lia.
      fold r1 in F1, F2.
      assert (Out : forall x, m < x -> Np.at1 r1 base x = Np.at1 a1 base x).
      { intros x Hx. unfold Np.at1. apply F1. lia. }
      assert (In_ : forall k, 1 <= k <= m ->
                              exists k', 1 <= k' <= S m
                                         /\ Np.at1 r1 base k
                                            = Np.at1 a base k').
      { intros k Hk. destruct (F2 k Hk) as [E|(k' & Hk' & E)].
        - exists (S m). split; [lia|exact E].
        - exists k'. split; [lia|].
          rewrite E. apply G1; lia. }
      destruct (IH r1) as (S1 & S2 & S3 & S4); try lia.
      * unfold r1. apply (sift_heap base m 1 m a1 tmp 1); try lia.
        intros k c Hk Hc Hkc Nk Nc. rewrite !G1 by lia.
        apply H; try assumption. lia.
      * intros k j Hk Hj. rewrite (Out j) by lia.
        destruct (In_ k Hk) as (k' & Hk' & ->).
        destruct (Nat.eq_dec j (S m)) as [->|Nj].
        -- rewrite Gn. apply (heap_root_max base (S m) a H). exact Hk'.
        -- rewrite G1 by lia. apply B; lia.
      * intros i j Hi Hij Hj. rewrite (Out i), (Out j) by lia.
        rewrite (G1 j) by lia.
        destruct (Nat.eq_dec i (S m)) as [->|Ni].
        -- rewrite Gn. apply B; lia.
        -- rewrite G1 by lia. apply T; lia.
      * fold r1. split; [exact S1|]. split; [congruence|]. split.
        -- intros p Hp. rewrite S3 by exact Hp. rewrite F1 by lia.
           unfold a1, Np.put1. apply get_set_other. lia.
        -- intros k Hk. destruct (S4 k Hk) as (k' & Hk' & ->).
           destruct (Nat.le_gt_cases k' m) as [Q|Q].
           ++ destruct (In_ k' (conj (proj1 Hk') Q)) as (k2 & Hk2 & ->).
              exists k2. split; [lia|reflexivity].
           ++ rewrite Out by exact Q.
              destruct (Nat.eq_dec k' (S m)) as [->|Nk].
              ** rewrite Gn. exists 1. split; [lia|reflexivity].
              ** exists k'. split; [exact Hk'|apply G1; lia].
Qed.

Lemma heapsort_sorts (a : list nat) (pl pr : nat) :
  pl <= pr -> pr < List.length a ->
  rearranged a (Np.heapsort less v a pl (pr - pl + 1)) pl pr
  /\ sorted_within (Np.heapsort less v a pl (pr - pl + 1)) pl pr.
Proof.
  intros H1 H2. unfold Np.heapsort.
  set (n := pr - pl + 1).
  assert (Hpr : pr = pl + n - 1) by (unfold n; lia).
  destruct (heapify_heap pl n (Nat.div2 n) a) as [H R]; try (unfold n; lia).
  { apply div2_le. }
  { intros k c Hk Hc Hkc.
    pose proof (Nat.div2_odd n) as E. destruct (Nat.odd n); simpl in E; lia. }
  set (h := Np.heapify less v a pl (Nat.div2 n) n) in *.
  assert (Lh : List.length h = List.length a) by (destruct R; assumption).
  assert (Hn : pl + n <= List.length h) by (unfold n; lia).
  destruct (extract_sorts pl n n h (Nat.le_refl n) Hn H)
    as (S1 & S2 & S3 & S4); [intros; lia|intros; lia|].
  split.
  - rewrite Hpr. apply rearranged_trans with h; [exact R|].
    apply drawn_rearranged; try assumption. unfold n; lia.
  - intros i j Hi Hij Hj.
    specialize (S1 (i - pl + 1) (j - pl + 1)). unfold Np.at1 in S1.
    replace (pl + (i - pl + 1) - 1) with i in S1 by lia.
    replace (pl + (j - pl + 1) - 1) with j in S1 by lia.
    apply S1; unfold n; lia.
Qed.

(** *** The ranges still to sort *)

Let ranges (stack : list Np.pending) : list (nat * nat) := map fst stack.

(** A range to sort lies in the array between two cuts. *)
Let ready (a : list nat) (lr : nat * nat) : Prop :=
  fst lr <= snd lr /\ snd lr < List.length a
  /\ cut a (fst lr) /\ cut a (S (snd lr)).

Let disjoint (x y : nat * nat) : Prop := snd x < fst y \/ snd y < fst x.

Let apart : list (nat * nat) -> Prop :=
  fix apart (rs : list (nat * nat)) : Prop :=
    match rs with
    | [] => True
    | x :: t => Forall (disjoint x) t /\ apart t
    end.

Let covered (p : nat) (rs : list (nat * nat)) : Prop :=
  Exists (fun lr => fst lr <= p <= snd lr) rs.

(** The ranges to sort are apart from each other, and the array is cut
    at every place that is in none of them. *)
Let good (a : list nat) (rs : list (nat * nat)) : Prop :=
  Forall (ready a) rs /\ apart rs
  /\ forall p, p < List.length a ->
               covered p rs \/ (cut a p /\ cut a (S p)).

Let weight (rs : list (nat * nat)) : nat :=
  fold_right (fun lr w => snd lr - fst lr + 1 + w) 0 rs.

Lemma weight_app (rs ts : list (nat * nat)) :
  weight (rs ++ ts) = weight rs + weight ts.
Proof.
  unfold weight. induction rs as [|x rs IH]; [reflexivity|].
  simpl. rewrite IH. lia.
Qed.

Lemma apart_app (rs ts : list (nat * nat)) :
  apart rs -> apart ts ->
  Forall (fun y => Forall (disjoint y) ts) rs ->
  apart (rs ++ ts).
Proof.
  induction rs as [|x rs IH]; intros Hr Ht Hx; [exact Ht|].
  simpl. destruct Hr as [Hr1 Hr2].
  inversion Hx as [|? ? Hx1 Hx2]; subst. split.
  - apply Forall_app. split; assumption.
  - apply IH; assumption.
Qed.

(** The range taken up gives way to ranges within it, after a
    rearrangement that cuts the array wherever they leave a place. *)
Lemma good_replace (a a' : list nat) (pl pr : nat)
      (news rs : list (nat * nat)) :
  good a ((pl, pr) :: rs) ->
  rearranged a a' pl pr ->
  Forall (ready a') news -> apart news ->
  Forall (fun y => pl <= fst y /\ snd y <= pr) news ->
  (forall p, pl <= p <= pr ->
             covered p news \/ (cut a' p /\ cut a' (S p))) ->
  good a' (news ++ rs).
Proof.
  intros (R & (D & Ap) & Cv) Re Rn An Wn Cn.
  inversion R as [|? ? (R1 & R2 & R3 & R4) Rs]; subst. simpl in R1, R2, R3, R4.
  pose proof Re as (L & _ & _).
  assert (Keep : forall c, c <= pl \/ pr < c -> cut a c -> cut a' c).
  { intros c Hc C. apply (cut_rearranged a a' pl pr c); assumption. }
  split; [|split].
  - apply Forall_app. split; [exact Rn|].
    rewrite Forall_forall in Rs, D |- *. intros [l r] Hin.
    destruct (Rs _ Hin) as (Q1 & Q2 & Q3 & Q4). simpl in Q1, Q2, Q3, Q4.
    pose proof (D _ Hin) as Dj. unfold disjoint in Dj. simpl in Dj.
    unfold ready. simpl. rewrite L.
    split; [exact Q1|]. split; [exact Q2|].
    split; apply Keep; try assumption; lia.
  - apply apart_app; try assumption.
    rewrite Forall_forall in Wn, D |- *. intros y Hy.
    rewrite Forall_forall. intros z Hz.
    pose proof (D _ Hz) as Dj. destruct (Wn _ Hy) as [W1 W2].
    unfold disjoint in *. simpl in Dj.
    assert (fst y <= snd y).
    { rewrite Forall_forall in Rn. destruct (Rn _ Hy) as (Q & _). exact Q. }
    lia.
  - intros p Hp. rewrite L in Hp.
    destruct (Nat.lt_ge_cases p pl) as [H1|H1].
    + destruct (Cv p Hp) as [C|[C1 C2]].
      * left. unfold covered in *. apply Exists_app. right.
        inversion C as [? ? Hh|? ? Ht]; subst; [simpl in Hh; lia|exact Ht].
      * right. split; apply Keep; try assumption; lia.
    + destruct (Nat.lt_ge_cases pr p) as [H2|H2].
      * destruct (Cv p Hp) as [C|[C1 C2]].
        -- left. unfold covered in *. apply Exists_app. right.
           inversion C as [? ? Hh|? ? Ht]; subst; [simpl in Hh; lia|exact Ht].
        -- right. split; apply Keep; try assumption; lia.
      * destruct (Cn p (conj H1 H2)) as [C|C]; [|right; exact C].
        left. unfold covered in *. apply Exists_app. left. exact C.
Qed.

Lemma split_good (fuel : nat) :
  forall a pl pr cdepth stack,
    good a ((pl, pr) :: ranges stack) ->
    match Np.split less v fuel a pl pr cdepth stack with
    | (a', pl', pr', _, stack') =>
        good a' ((pl', pr') :: ranges stack')
        /\ weight ((pl', pr') :: ranges stack')
           <= weight ((pl, pr) :: ranges stack)
        /\ List.length a' = List.length a
    end.
Proof.
  induction fuel as [|f IH]; intros a pl pr cdepth stack G;
    cbn [Np.split]; [auto|].
  destruct (Np.SMALL_QUICKSORT <? pr - pl) eqn:Big; [|auto].
  apply Nat.ltb_lt in Big.
  pose proof G as (R & _ & _).
  inversion R as [|? ? (R1 & R2 & R3 & R4) _]; subst.
  simpl in R1, R2, R3, R4.
  pose proof (partition_order a pl pr Big R2) as P. cbv zeta in P.
  destruct (Np.partition less v a pl pr) as [a' pi]. simpl in P.
  destruct P as (Re & Hpi & Below & Above).
  pose proof Re as (L & _ & _).
  assert (C1 : cut a' pl)
    by (apply (cut_rearranged a a' pl pr pl); try assumption; lia).
  assert (C2 : cut a' (S pr))
    by (apply (cut_rearranged a a' pl pr (S pr)); try assumption; lia).
  destruct (cut_pivot a' pl pr pi C1 C2) as [C3 C4];
    try assumption; try lia.
  assert (Lo : ready a' (pl, pi - 1)).
  { unfold ready. simpl. replace (S (pi - 1)) with pi by lia.
    repeat split; try assumption; lia. }
  assert (Hi : ready a' (S pi, pr)).
  { unfold ready. simpl. repeat split; try assumption; lia. }
  assert (Cn : forall news,
             (forall p, pl <= p <= pr -> p <> pi -> covered p news) ->
             forall p, pl <= p <= pr ->
                       covered p news \/ (cut a' p /\ cut a' (S p))).
  { intros news Hn p Hp. destruct (Nat.eq_dec p pi) as [->|N].
    - right. split; assumption.
    - left. apply Hn; assumption. }
  destruct (pi - pl <? pr - pi).
  - assert (G' : good a' ((pl, pi - 1) :: ranges ((S pi, pr, (cdepth - 1)%Z)
                                                   :: stack))).
    { apply (good_replace a a' pl pr [(pl, pi - 1); (S pi, pr)]);
        try assumption.
      - apply Forall_cons; [exact Lo|].
        apply Forall_cons; [exact Hi|apply Forall_nil].
      - split; [|split; [apply Forall_nil|exact I]].
        apply Forall_cons; [left; simpl; lia|apply Forall_nil].
      - apply Forall_cons; [simpl; lia|].
        apply Forall_cons; [simpl; lia|apply Forall_nil].
      - apply Cn. intros p Hp N. unfold covered.
        destruct (Nat.lt_ge_cases p pi) as [Q|Q].
        + apply Exists_cons_hd. simpl. lia.
        + apply Exists_cons_tl, Exists_cons_hd. simpl. lia. }
    specialize (IH a' pl (pi - 1) (cdepth - 1)%Z
                   ((S pi, pr, (cdepth - 1)%Z) :: stack) G').
    destruct (Np.split less v f a' pl (pi - 1) (cdepth - 1)
                       ((S pi, pr, (cdepth - 1)%Z) :: stack))
      as [[[[a'' pl''] pr''] cd''] stack''].
    destruct IH as (G'' & W'' & L'').
    split; [exact G''|]. split; [|congruence].
    etransitivity; [exact W''|]. unfold weight. simpl. lia.
  - assert (G' : good a' ((S pi, pr) :: ranges ((pl, pi - 1, (cdepth - 1)%Z)
                                                 :: stack))).
    { apply (good_replace a a' pl pr [(S pi, pr); (pl, pi - 1)]);
        try assumption.
      - apply Forall_cons; [exact Hi|].
        apply Forall_cons; [exact Lo|apply Forall_nil].
      - split; [|split; [apply Forall_nil|exact I]].
        apply Forall_cons; [right; simpl; lia|apply Forall_nil].
      - apply Forall_cons; [simpl; lia|].
        apply Forall_cons; [simpl; lia|apply Forall_nil].
      - apply Cn. intros p Hp N. unfold covered.
        destruct (Nat.lt_ge_cases p pi) as [Q|Q].
        + apply Exists_cons_tl, Exists_cons_hd. simpl. lia.
        + apply Exists_cons_hd. simpl. lia. }
    specialize (IH a' (S pi) pr (cdepth - 1)%Z
                   ((pl, pi - 1, (cdepth - 1)%Z) :: stack) G').
    destruct (Np.split less v f a' (S pi) pr (cdepth - 1)
                       ((pl, pi - 1, (cdepth - 1)%Z) :: stack))
      as [[[[a'' pl''] pr''] cd''] stack''].
    destruct IH as (G'' & W'' & L'').
    split; [exact G''|]. split; [|congruence].
    etransitivity; [exact W''|]. unfold weight. simpl. lia.
Qed.

(** A range put in order leaves the list of the ranges to sort. *)
Lemma good_done (a a' : list nat) (pl pr : nat) (rs : list (nat * nat)) :
  good a ((pl, pr) :: rs) ->
  rearranged a a' pl pr -> sorted_within a' pl pr ->
  good a' rs.
Proof.
  intros G Re Sw.
  pose proof G as (R & _ & _).
  inversion R as [|? ? (R1 & R2 & R3 & R4) _]; subst.
  simpl in R1, R2, R3, R4.
  apply (good_replace a a' pl pr [] rs G Re);
    [apply Forall_nil|exact I|apply Forall_nil|].
  intros p Hp. right.
  assert (C1 : cut a' pl)
    by (apply (cut_rearranged a a' pl pr pl); try assumption; lia).
  assert (C2 : cut a' (S pr))
    by (apply (cut_rearranged a a' pl pr (S pr)); try assumption; lia).
  split; apply (cut_sorted a' pl pr); try assumption; lia.
Qed.

Lemma rounds_good (fuel : nat) :
  forall a pl pr cdepth stack,
    good a ((pl, pr) :: ranges stack) ->
    weight ((pl, pr) :: ranges stack) <= fuel ->
    let r := Np.rounds less v fuel a pl pr cdepth stack in
    List.length r = List.length a /\ good r [].
Proof.
  induction fuel as [|f IH]; intros a pl pr cdepth stack G W;
    [unfold weight in W; simpl in W; lia|].
  cbn [Np.rounds]. cbv zeta.
  assert (Next : forall a' stack',
             List.length a' = List.length a ->
             good a' (ranges stack') -> weight (ranges stack') <= f ->
             let r := match stack' with
                      | [] => a'
                      | (pl', pr', cdepth') :: rest =>
                          Np.rounds less v f a' pl' pr' cdepth' rest
                      end in
             List.length r = List.length a /\ good r []).
  { intros a' stack' L G' W'. destruct stack' as [|[[pl' pr'] cd'] rest].
    - split; [exact L|exact G'].
    - cbv zeta. destruct (IH a' pl' pr' cd' rest G' W') as [L' G''].
      split; [congruence|exact G'']. }
  pose proof G as (R & _ & _).
  inversion R as [|? ? (R1 & R2 & R3 & R4) _]; subst.
  simpl in R1, R2, R3, R4.
  destruct (cdepth <? 0)%Z.
  - destruct (heapsort_sorts a pl pr R1 R2) as [Re Sw].
    apply Next.
    + destruct Re as (L & _). exact L.
    + apply (good_done a _ pl pr); assumption.
    + unfold weight in *. simpl in W. lia.
  - pose proof (split_good (List.length a) a pl pr cdepth stack G) as Sp.
    destruct (Np.split less v (List.length a) a pl pr cdepth stack)
      as [[[[a1 pl1] pr1] cd1] stack1].
    destruct Sp as (G1 & W1 & L1).
    pose proof G1 as (R' & _ & _).
    inversion R' as [|? ? (Q1 & Q2 & Q3 & Q4) _]; subst.
    simpl in Q1, Q2, Q3, Q4.
    destruct (insertion_sorts a1 pl1 pr1 Q1 Q2) as [Re Sw].
    apply Next.
    + destruct Re as (L & _). congruence.
    + apply (good_done a1 _ pl1 pr1); assumption.
    + unfold weight in *. simpl in W, W1. lia.
Qed.

(** The sort leaves the entries in the order of their keys. *)
Lemma aquicksort_sorted (tosort : list nat) (i j : nat) :
  i < j -> j < List.length tosort ->
  le (Np.get (Np.aquicksort less v tosort) i)
     (Np.get (Np.aquicksort less v tosort) j).
Proof.
  intros Hij Hj. unfold Np.aquicksort.
  set (num := List.length tosort) in *.
  destruct (rounds_good (S num) tosort 0 (num - 1)
                        (2 * Z.of_nat (Nat.log2 num))%Z []) as [L G].
  - split; [|split].
    + constructor; [|constructor]. unfold ready. simpl. fold num.
      split; [lia|]. split; [lia|]. split.
      * intros x y Hx. lia.
      * intros x y Hx Hy Hl. fold num in Hl. lia.
    + simpl. split; constructor.
    + intros p Hp. left. apply Exists_cons_hd. simpl. fold num in Hp. lia.
  - unfold weight. simpl. lia.
  - cbv zeta in L, G. destruct G as (_ & _ & Cv).
    destruct (Cv j) as [C|[C _]]; [rewrite L; exact Hj|inversion C|].
    apply C; [exact Hij|lia|rewrite L; exact Hj].
Qed.

End Sorting.

(** ** The ranking is in the order of the metric *)

Section Ordered.

Lemma Qltb_ge (a b : Q) : Qltb a b = false <-> (b <= a)%Q.
Proof.
  unfold Qltb. rewrite negb_false_iff. apply Qle_bool_iff.
Qed.

Lemma Qltb_ntrans (x y z : Q) :
  Qltb y x = false -> Qltb z y = false -> Qltb z x = false.
Proof.
  rewrite !Qltb_ge. intros H1 H2. exact (Qle_trans _ _ _ H1 H2).
Qed.

Lemma argsort_sorted (keys : list Q) (i j : nat) :
  i < j -> j < List.length keys ->
  (nth (nth i (Np.argsort Qltb 0 keys) 0%nat) keys 0
   <= nth (nth j (Np.argsort Qltb 0 keys) 0%nat) keys 0)%Q.
Proof.
  intros Hij Hj. apply Qltb_ge. unfold Np.argsort.
  apply (aquicksort_sorted Qltb (fun p => nth p keys 0%Q)
                           Qltb_asym Qltb_ntrans
                           (seq 0 (List.length keys)) i j Hij).
  rewrite length_seq. exact Hj.
Qed.

Lemma index_sorted (X : Type) (R : X -> X -> Prop) (d : X) (l : list X) :
  (forall i j, i < j -> j < List.length l -> R (nth i l d) (nth j l d)) ->
  StronglySorted R l.
Proof.
  induction l as [|a l IH]; intros H; constructor.
  - apply IH. intros i j Hij Hj. apply (H (S i) (S j)); simpl; lia.
  - rewrite Forall_forall. intros x Hx.
    destruct (In_nth l x d Hx) as (n & Hn & <-).
    apply (H 0 (S n)); simpl; lia.
Qed.

Lemma sorted_app_inv (X : Type) (R : X -> X -> Prop) (l1 l2 : list X) :
  StronglySorted R (l1 ++ l2) ->
  StronglySorted R l1 /\ StronglySorted R l2
  /\ forall x y, In x l1 -> In y l2 -> R x y.
Proof.
  induction l1 as [|a l1 IH]; intros H.
  - split; [constructor|]. split; [exact H|]. intros x y [].
  - simpl in H. inversion H as [|? ? H' F]; subst.
    destruct (IH H') as (S1 & S2 & C).
    apply Forall_app in F. destruct F as [F1 F2].
    split; [constructor; assumption|]. split; [exact S2|].
    intros x y [<-|Hx] Hy.
    + rewrite Forall_forall in F2. apply F2. exact Hy.
    + apply C; assumption.
Qed.

Lemma sorted_of_map (X Y : Type) (f : X -> Y) (R : Y -> Y -> Prop)
      (l : list X) :
  StronglySorted R (map f l) ->
  StronglySorted (fun x x' => R (f x) (f x')) l.
Proof.
  induction l as [|a l IH]; simpl; intros H; [constructor|].
  inversion H as [|? ? H' F]; subst. constructor; [apply IH; exact H'|].
  rewrite Forall_forall in F |- *. intros x Hx. apply F.
  apply in_map. exact Hx.
Qed.

Lemma nth_map_lt (X Y : Type) (f : X -> Y) (dx : X) (dy : Y) (l : list X) :
  forall n, n < List.length l -> nth n (map f l) dy = f (nth n l dx).
Proof.
  induction l as [|a l IH]; intros n Hn; simpl in Hn; [lia|].
  destruct n as [|n]; simpl; [reflexivity|]. apply IH. lia.
Qed.

(** The argsort of the values of a list of (place, value) pairs lists
    the pairs in the order of their values. *)
Lemma argsort_pairs_sorted (L : list (nat * Q)) :
  exists es,
    map (fun j => nth j (map fst L) 0) (Np.argsort Qltb 0%Q (map snd L))
    = map fst es
    /\ Permutation es L
    /\ StronglySorted (fun e e' => (snd e <= snd e')%Q) es.
Proof.
  set (A := Np.argsort Qltb 0%Q (map snd L)).
  assert (PA : Permutation A (seq 0 (List.length L))).
  { unfold A. rewrite argsort_perm, length_map. reflexivity. }
  exists (map (fun j => nth j L (0, 0%Q)) A).
  split; [apply positions_pairs|]. split; [apply nth_perm; exact PA|].
  apply (index_sorted _ _ (0, 0%Q)). intros i j Hij Hj.
  rewrite length_map in Hj.
  assert (LA : List.length A = List.length L)
    by (rewrite (Permutation_length PA); apply length_seq).
  assert (N : forall n, n < List.length A ->
                        snd (nth n (map (fun j => nth j L (0, 0%Q)) A)
                                 (0, 0%Q))
                        = nth (nth n A 0) (map snd L) 0%Q).
  { intros n Hn. rewrite (nth_map_lt _ _ _ 0) by exact Hn.
    change 0%Q with (snd (0, 0%Q)) at 2. rewrite map_nth. reflexivity. }
  rewrite !N by lia. unfold A. apply argsort_sorted; [exact Hij|].
  rewrite length_map. lia.
Qed.

(** The indexer of [nargsort]: the places with a value in the order of
    the values, then the places without one. *)
Lemma nargsort_ordered (items : list cell) (ascending : bool)
      (vs : list Q) :
  numbers items = Ok vs ->
  exists es,
    nargsort items ascending
    = Ok (map fst es ++ filter (fun i => isna (nth i items NaN))
                               (seq 0 (List.length items)))
    /\ Permutation es (Spec.valued 0 items)
    /\ StronglySorted (fun e e' => if ascending then (snd e <= snd e')%Q
                                   else (snd e' <= snd e)%Q) es.
Proof.
  intros Hvs. unfold nargsort. rewrite Hvs. simpl.
  unfold numbers in Hvs.
  destruct (mapM number items) as [os| |] eqn:Hos; try discriminate.
  simpl in Hvs. injection Hvs as <-.
  rewrite (numbers_valued items 0 os Hos).
  pose proof (positions_valued items [] os Hos) as PV.
  cbn [app List.length] in PV. rewrite PV.
  set (L := Spec.valued 0 items). destruct ascending.
  - destruct (argsort_pairs_sorted L) as (es & E & P & St).
    exists es. rewrite E. split; [reflexivity|]. split; assumption.
  - rewrite <- (map_rev fst L), <- (map_rev snd L).
    destruct (argsort_pairs_sorted (rev L)) as (es & E & P & St).
    exists (rev es). rewrite E, <- map_rev.
    split; [reflexivity|]. split.
    + rewrite <- Permutation_rev, P. symmetry. apply Permutation_rev.
    + apply sorted_rev. exact St.
Qed.

Lemma take_cells (k : nat) (rs : list row) (indexer : list nat) :
  Forall (fun p => p < List.length rs) indexer ->
  map (at_ k) (take rs indexer)
  = map (fun p => nth p (map (at_ k) rs) NaN) indexer.
Proof.
  induction indexer as [|p t IH]; intros F; [reflexivity|].
  inversion F as [|? ? Hp Ft]; subst. unfold take in *. simpl.
  rewrite map_app, (IH Ft).
  destruct (nth_error rs p) as [r|] eqn:E.
  - simpl. f_equal. symmetry. apply nth_error_nth.
    apply map_nth_error. exact E.
  - apply nth_error_None in E. lia.
Qed.

Lemma number_valued (items : list cell) (p : nat) (x : Q) :
  Spec.rank_key items p = Some x ->
  number (nth p items NaN) = Ok (Some x).
Proof.
  unfold Spec.rank_key. destruct (nth p items NaN); simpl;
    try discriminate; intros H; injection H as <-; reflexivity.
Qed.

Lemma number_missing (c : cell) : isna c = true -> number c = Ok None.
Proof. destruct c; simpl; try discriminate. reflexivity. Qed.

(** [sort_values] on a numeric column: the rows of the frame, in the
    order of the column. *)
Lemma sort_values_ordered (df : DataFrame) (by_ : string)
      (ascending : bool) (k : nat) (vs : list Q) :
  position by_ (names df) = Some k ->
  numbers (series df k) = Ok vs ->
  exists sorted,
    sort_values df by_ ascending = Ok sorted
    /\ columns sorted = columns df
    /\ Permutation (rows sorted) (rows df)
    /\ StronglySorted
         (fun r r' => Spec.in_ranking_order ascending (at_ k r) (at_ k r'))
         (rows sorted).
Proof.
  intros P Hvs.
  destruct (sort_values_perm df by_ ascending k vs P Hvs)
    as (sorted & E & C & Pm).
  exists sorted. split; [exact E|]. split; [exact C|]. split; [exact Pm|].
  unfold sort_values in E. rewrite (loc_position _ _ _ P) in E. simpl in E.
  destruct (nargsort_perm _ ascending vs Hvs) as (indexer & Ei & Pi).
  destruct (nargsort_ordered _ ascending vs Hvs) as (es & Eo & Pe & St).
  rewrite Ei in Eo. injection Eo as ->. rewrite Ei in E. simpl in E.
  injection E as <-. simpl.
  apply sorted_of_map. rewrite take_cells.
  2:{ rewrite Forall_forall. intros p Hp.
      apply (Permutation_in _ Pi) in Hp. apply in_seq in Hp.
      unfold series in Hp. rewrite length_map in Hp. lia. }
  fold (series df k). set (items := series df k) in *.
  rewrite map_app. apply sorted_app.
  - rewrite map_map. apply sorted_map.
    refine (sorted_weaken _ _ _ St _). intros e e' He He' Hr.
    assert (K : forall e, In e es ->
                          number (nth (fst e) items NaN) = Ok (Some (snd e))).
    { intros [p x] Hin. apply number_valued.
      apply (valued_key items [] p x).
      apply (Permutation_in _ Pe). exact Hin. }
    unfold Spec.in_ranking_order. rewrite (K e He), (K e' He'). exact Hr.
  - apply sorted_map. apply (index_sorted _ _ 0). intros i j Hij Hj.
    set (nans := filter _ _) in *.
    assert (M : forall n, n < List.length nans ->
                          number (nth (nth n nans 0) items NaN) = Ok None).
    { intros n Hn. apply number_missing.
      pose proof (nth_In nans 0 Hn) as Hin. unfold nans in Hin at 2.
      apply filter_In in Hin. apply Hin. }
    unfold Spec.in_ranking_order. rewrite !M by lia. exact I.
  - intros c c' Hc Hc'. rewrite map_map in Hc.
    apply in_map_iff in Hc. destruct Hc as ([p x] & <- & Hin).
    apply in_map_iff in Hc'. destruct Hc' as (q & <- & Hq).
    apply filter_In in Hq. destruct Hq as [_ Hq].
    unfold Spec.in_ranking_order. cbn [fst].
    rewrite (number_valued items p x), (number_missing _ Hq); [exact I|].
    apply (valued_key items [] p x). apply (Permutation_in _ Pe). exact Hin.
Qed.

End Ordered.

(** ** The table of the pie chart *)

Section Tallies.

(** The number of times [g] occurs among the keys. *)
Let occurrences (g : string) (ks : list (option string)) : nat :=
  List.length (filter (fun k => match k with
                                | Some s => String.eqb s g
                                | None => false
                                end) ks).

(** The count the tally holds for [g]. *)
Let held (g : string) (acc : list (string * nat)) : nat :=
  list_sum (map snd (filter (fun gn => String.eqb (fst gn) g) acc)).

Lemma held_tally (k g : string) (acc : list (string * nat)) :
  held g (tally k acc) = held g acc + (if String.eqb k g then 1 else 0).
Proof.
  unfold held. induction acc as [|[h n] t IH]; simpl.
  - destruct (String.eqb k g); reflexivity.
  - destruct (String.eqb k h) eqn:E; simpl.
    + apply String.eqb_eq in E. subst h.
      destruct (String.eqb k g); simpl; lia.
    + destruct (String.eqb h g); simpl; rewrite IH; lia.
Qed.

Lemma keys_tally (k : string) (acc : list (string * nat)) :
  forall g, In g (map fst (tally k acc)) <-> g = k \/ In g (map fst acc).
Proof.
  induction acc as [|[h n] t IH]; intros g; simpl; [intuition|].
  destruct (String.eqb k h) eqn:E; simpl.
  - apply String.eqb_eq in E. subst h. intuition.
  - rewrite IH. intuition.
Qed.

Lemma NoDup_tally (k : string) (acc : list (string * nat)) :
  NoDup (map fst acc) -> NoDup (map fst (tally k acc)).
Proof.
  induction acc as [|[h n] t IH]; simpl; intros ND.
  - repeat constructor. intros [].
  - inversion ND as [|? ? Hh Ht]; subst.
    destruct (String.eqb k h) eqn:E; simpl; [constructor; assumption|].
    constructor; [|apply IH; exact Ht].
    rewrite keys_tally. intros [->|H]; [|contradiction].
    rewrite String.eqb_refl in E. discriminate.
Qed.

Lemma held_absent (g : string) (acc : list (string * nat)) :
  ~ In g (map fst acc) -> held g acc = 0.
Proof.
  unfold held. induction acc as [|[h n] t IH]; simpl; intros H;
    [reflexivity|].
  rewrite (proj2 (String.eqb_neq h g)) by (intros ->; apply H; auto).
  apply IH. intros H'. apply H. auto.
Qed.

(** In a tally without repeated key, the entry of a key is the count
    held for it. *)
Lemma held_entry (acc : list (string * nat)) :
  NoDup (map fst acc) ->
  forall g n, In (g, n) acc <-> In g (map fst acc) /\ n = held g acc.
Proof.
  induction acc as [|[h m] t IH]; simpl; intros ND g n; [tauto|].
  inversion ND as [|? ? Hh Ht]; subst. specialize (IH Ht g n).
  unfold held in *. simpl.
  destruct (String.eqb h g) eqn:E.
  - apply String.eqb_eq in E. subst h. simpl.
    pose proof (held_absent g t Hh) as Z. unfold held in Z. rewrite Z.
    split.
    + intros [H|H]; [injection H as <-; split; [auto|lia]|].
      exfalso. apply Hh. apply in_map_iff. exists (g, n). auto.
    + intros [_ ->]. left. f_equal. lia.
  - apply String.eqb_neq in E. split.
    + intros [H|H]; [injection H as -> _; contradiction|].
      apply IH in H. tauto.
    + intros [[H|H] Hn]; [contradiction|]. right. apply IH. tauto.
Qed.

Lemma tallies_from (ks : list (option string)) :
  forall acc,
    NoDup (map fst acc) ->
    let out := fold_left (fun acc k => match k with
                                       | Some s => tally s acc
                                       | None => acc
                                       end) ks acc in
    NoDup (map fst out)
    /\ (forall g, In g (map fst out)
                  <-> In g (map fst acc) \/ In (Some g) ks)
    /\ forall g, held g out = held g acc + occurrences g ks.
Proof.
  induction ks as [|k ks IH]; simpl; intros acc ND.
  - split; [exact ND|]. split; [intuition|]. intros g.
    unfold occurrences. simpl. lia.
  - destruct k as [s|].
    + destruct (IH (tally s acc) (NoDup_tally s acc ND)) as (H1 & H2 & H3).
      split; [exact H1|]. split.
      * intros g. rewrite H2, keys_tally.
        split; [intros [[->|H]|H]; auto|].
        intros [H|[H|H]]; auto. injection H as ->. auto.
      * intros g. rewrite H3, held_tally. unfold occurrences. simpl.
        destruct (String.eqb s g); simpl; lia.
    + destruct (IH acc ND) as (H1 & H2 & H3).
      split; [exact H1|]. split.
      * intros g. rewrite H2. split; [intros [H|H]; auto|].
        intros [H|[H|H]]; auto. discriminate.
      * intros g. rewrite H3. unfold occurrences. simpl. reflexivity.
Qed.

Lemma occurrences_positive (g : string) (ks : list (option string)) :
  In (Some g) ks <-> 0 < occurrences g ks.
Proof.
  unfold occurrences. induction ks as [|k ks IH]; simpl; [split; [tauto|lia]|].
  destruct k as [s|].
  - destruct (String.eqb s g) eqn:E; simpl.
    + apply String.eqb_eq in E. subst s. split; [lia|auto].
    + apply String.eqb_neq in E. rewrite <- IH.
      split; [intros [H|H]; [congruence|exact H]|auto].
  - rewrite <- IH. split; [intros [H|H]; [discriminate|exact H]|auto].
Qed.

(** The tally lists every value present once, with the number of its
    occurrences. *)
Lemma tallies_spec (ks : list (option string)) :
  NoDup (map fst (tallies ks))
  /\ forall g n, In (g, n) (tallies ks)
                 <-> 0 < n /\ n = occurrences g ks.
Proof.
  destruct (tallies_from ks [] (NoDup_nil _)) as (H1 & H2 & H3).
  fold (tallies ks) in *. split; [exact H1|]. intros g n.
  rewrite (held_entry _ H1), H2, H3. simpl.
  rewrite occurrences_positive. unfold held. simpl.
  split; intros [Ha Hb]; subst n; split; try reflexivity.
  - destruct Ha as [[]|Ha]. exact Ha.
  - right. exact Ha.
Qed.

(** The occurrences of a value among the keys of a column are the rows
    of its group. *)
Lemma occurrences_in_group (df : DataFrame) (kb : nat) (g : string) :
  occurrences g (map Spec.text_of (series df kb))
  = List.length (filter (in_group kb g) (rows df)).
Proof.
  unfold occurrences, series. rewrite map_map.
  induction (rows df) as [|r rs IH]; simpl; [reflexivity|].
  unfold in_group at 1. destruct (at_ kb r); simpl; try exact IH.
  destruct (String.eqb s g); simpl; rewrite IH; reflexivity.
Qed.

(** Reading a table at places it has. *)
Lemma pick_map (X Y : Type) (f : X -> Y) (d : X) (table : list X)
      (indexer : list nat) :
  Forall (fun i => i < List.length table) indexer ->
  flat_map (fun i => match nth_error table i with
                     | Some x => [f x]
                     | None => []
                     end) indexer
  = map f (map (fun i => nth i table d) indexer).
Proof.
  induction indexer as [|i l IH]; intros F; [reflexivity|].
  inversion F as [|? ? Hi Fl]; subst. simpl. rewrite (IH Fl).
  destruct (nth_error table i) as [x|] eqn:E.
  - rewrite (nth_error_nth _ _ d E). reflexivity.
  - apply nth_error_None in E. lia.
Qed.

Lemma filter_none (X : Type) (f : X -> bool) (l : list X) :
  (forall x, In x l -> f x = false) -> filter f l = [].
Proof.
  induction l as [|a l IH]; intros H; [reflexivity|]. simpl.
  rewrite (H a) by (left; reflexivity). apply IH. intros x Hx. apply H.
  right. exact Hx.
Qed.

(** The counts, read as the cells that are sorted: each has a value,
    the count. *)
Lemma count_key (table : list (string * nat)) (p : nat) (x : Q) :
  Spec.rank_key (map (fun gn => Int (Z.of_nat (snd gn))) table) p = Some x ->
  p < List.length table
  /\ x = inject_Z (Z.of_nat (snd (nth p table (EmptyString, 0)))).
Proof.
  unfold Spec.rank_key. intros H.
  destruct (Nat.lt_ge_cases p (List.length table)) as [Hp|Hp].
  - split; [exact Hp|].
    rewrite (nth_map_lt _ _ _ (EmptyString, 0)) in H by exact Hp.
    injection H as <-. reflexivity.
  - rewrite nth_overflow in H by (rewrite length_map; exact Hp).
    discriminate.
Qed.

(** X12.  For a text industry column of a well-typed dataset, the table
    of the pie chart has the two columns the script names, and one row
    per industry present in the dataset, each industry once, with the
    number of the rows of the dataset that bear it; rows without an
    industry are not counted, and the industries come with their counts
    going down. *)
Theorem industry_counts_tallies_the_rows (df : DataFrame) (col : string)
        (kb : nat) :
  well_typed df ->
  position col (names df) = Some kb ->
  dtype_at df kb = object ->
  exists table groups,
    industry_counts df col = Ok table
    /\ names table = [col; "企业数量"]
    /\ map cells (rows table)
       = map (fun gn => [Str (fst gn); Int (Z.of_nat (snd gn))]) groups
    /\ NoDup (map fst groups)
    /\ StronglySorted (fun gn gn' => snd gn' <= snd gn) groups
    /\ forall g n,
         In (g, n) groups
         <-> 0 < n /\ n = List.length (filter (in_group kb g) (rows df)).
Proof.
  intros W P D. unfold industry_counts, value_counts.
  rewrite (loc_position _ _ _ P). simpl.
  rewrite (keys_read df col kb W P D). simpl.
  set (table := tallies (map Spec.text_of (series df kb))).
  set (items := map (fun gn => Int (Z.of_nat (snd gn))) table).
  destruct (numbers_of_counts table) as [vs Hvs]. fold items in Hvs.
  destruct (nargsort_perm _ false vs Hvs) as (indexer & Ei & Pi).
  destruct (nargsort_ordered _ false vs Hvs) as (es & Eo & Pe & St).
  rewrite Ei in Eo. injection Eo as Eo. rewrite Ei. simpl.
  rewrite filter_none in Eo.
  2:{ intros i Hi. apply in_seq in Hi. unfold items.
      rewrite (nth_map_lt _ _ _ (EmptyString, 0))
        by (unfold items in Hi; rewrite length_map in Hi; lia).
      reflexivity. }
  rewrite app_nil_r in Eo. subst indexer.
  unfold items in Pi. rewrite length_map in Pi.
  assert (K : forall e, In e es ->
                        fst e < List.length table
                        /\ snd e = inject_Z (Z.of_nat
                                     (snd (nth (fst e) table
                                               (EmptyString, 0))))).
  { intros [p x] Hin. apply count_key.
    apply (valued_key items [] p x). apply (Permutation_in _ Pe). exact Hin. }
  set (groups := map (fun p => nth p table (EmptyString, 0)) (map fst es)).
  assert (Pg : Permutation groups table) by (apply nth_perm; exact Pi).
  destruct (tallies_spec (map Spec.text_of (series df kb))) as [T1 T2].
  fold table in T1, T2.
  eexists. exists groups. split; [reflexivity|]. split; [reflexivity|].
  simpl. split; [|split; [|split]].
  - rewrite cells_relabel. unfold groups.
    rewrite <- (pick_map _ _ (fun gn : string * nat =>
                                [Str (fst gn); Int (Z.of_nat (snd gn))])).
    + apply flat_map_ext.
      intros i. destruct (nth_error table i) as [[g n]|]; reflexivity.
    + rewrite Forall_forall. intros p Hp. apply in_map_iff in Hp.
      destruct Hp as (e & <- & He). apply K. exact He.
  - apply (Permutation_NoDup (l := map fst table));
      [apply Permutation_map; symmetry; exact Pg|exact T1].
  - unfold groups. rewrite map_map. apply sorted_map.
    refine (sorted_weaken _ _ _ St _). intros e e' He He' Hr.
    destruct (K e He) as [_ Ke]. destruct (K e' He') as [_ Ke'].
    rewrite Ke, Ke' in Hr. rewrite <- Zle_Qle in Hr.
    apply Nat2Z.inj_le. exact Hr.
  - intros g n. rewrite <- occurrences_in_group, <- T2.
    split; apply Permutation_in; [exact Pg|symmetry; exact Pg].
Qed.

End Tallies.

(** ** The ranking, for a dataset of any size *)

Section RankingData.

Variable df : DataFrame.
Hypothesis typed : well_typed df.
Hypothesis labels_once : NoDup (names df).
Hypothesis has_code : In CODE (names df).

(** X18.  On a well-typed dataset with distinct labels, the ranking by
    a numeric column holds [top_n] rows of the dataset, or all of them
    if there are fewer; they are in the order of the metric in the
    direction asked for, a row without a value after every row with
    one, and no row left out has to come before a row that is shown. *)
Theorem ranking_lists_the_leading_rows (ranking_metric : string)
        (ascending : bool) (top_n : nat) :
  In ranking_metric (numeric_columns df) ->
  exists k rd rest,
    position ranking_metric (names df) = Some k
    /\ ranking_data df ranking_metric ascending top_n = Ok rd
    /\ columns rd = columns df
    /\ Permutation (rows rd ++ rest) (rows df)
    /\ List.length (rows rd) = Nat.min top_n (List.length (rows df))
    /\ StronglySorted
         (fun r r' => Spec.in_ranking_order ascending (at_ k r) (at_ k r'))
         (rows rd)
    /\ forall r r', In r (rows rd) -> In r' rest ->
                    Spec.in_ranking_order ascending (at_ k r) (at_ k r').
Proof.
  intros Hm.
  destruct (metric_numbers df typed labels_once _ Hm) as (k & vs & Hk & Hvs).
  destruct (sort_values_ordered df ranking_metric ascending k vs Hk Hvs)
    as (sorted & E & C & Pm & St).
  exists k, (head top_n sorted), (skipn top_n (rows sorted)).
  unfold ranking_data. rewrite E. simpl.
  split; [exact Hk|]. split; [reflexivity|]. split; [exact C|].
  split; [rewrite firstn_skipn; exact Pm|].
  split; [rewrite length_firstn, (Permutation_length Pm); reflexivity|].
  rewrite <- (firstn_skipn top_n (rows sorted)) in St.
  apply sorted_app_inv in St. destruct St as (S1 & _ & Cr).
  split; assumption.
Qed.

Lemma display_columns_all (ranking_metric : string) :
  In ranking_metric (names df) ->
  display_columns df ranking_metric
  = if mem NAME (names df) then [NAME; CODE; ranking_metric]
    else [CODE; ranking_metric].
Proof.
  intros Hm. unfold display_columns.
  destruct (mem NAME (names df)) eqn:N; [|reflexivity].
  simpl. rewrite N.
  rewrite (proj2 (mem_In CODE (names df)) has_code).
  rewrite (proj2 (mem_In ranking_metric (names df)) Hm). reflexivity.
Qed.

(** X19.  The table shown for the ranking has the columns of the names
    (when the dataset has them), the identifiers and the metric, in
    this order; it has one row per row of the ranking, with the cells
    of that row in these columns, and the rows are numbered from 0. *)
Theorem ranking_table_shows_the_ranking (ranking_metric : string)
        (ascending : bool) (top_n : nat) :
  In ranking_metric (numeric_columns df) ->
  exists rd table,
    ranking_data df ranking_metric ascending top_n = Ok rd
    /\ ranking_table df ranking_metric ascending top_n = Ok table
    /\ names table = (if mem NAME (names df)
                      then [NAME; CODE; ranking_metric]
                      else [CODE; ranking_metric])
    /\ map label (rows table)
       = seq 0 (Nat.min top_n (List.length (rows df)))
    /\ map cells (rows table)
       = map (fun r => map (fun c => at_ (Spec.place c (names df)) r)
                           (names table))
             (rows rd).
Proof.
  intros Hm.
  destruct (metric_numbers df typed labels_once _ Hm) as (k & vs & Hk & Hvs).
  assert (Hin : In ranking_metric (names df))
    by (apply mem_In; exact (position_mem _ _ k Hk)).
  unfold ranking_table, ranking_data.
  destruct (sort_values_perm df ranking_metric ascending k vs Hk Hvs)
    as (sorted & -> & Hc & Pm).
  simpl. exists (head top_n sorted).
  assert (Hn : names (head top_n sorted) = names df)
    by (unfold names, head; simpl; rewrite Hc; reflexivity).
  destruct (getitem_columns_ok (head top_n sorted)
                               (display_columns df ranking_metric))
    as (shown & -> & Hl & Hs).
  - rewrite Hn. apply display_columns_there; assumption.
  - rewrite Hn in Hs. destruct (Hs labels_once) as [Hs1 Hs2].
    simpl. eexists. split; [reflexivity|]. split; [reflexivity|].
    assert (Nt : names (reset_index_drop shown)
                 = display_columns df ranking_metric) by exact Hs1.
    rewrite Nt, <- (display_columns_all _ Hin).
    split; [reflexivity|]. split.
    + unfold reset_index_drop. simpl. rewrite label_relabel.
      rewrite length_map, <- (length_map label), Hl, length_map.
      unfold head. simpl.
      rewrite length_firstn, (Permutation_length Pm). reflexivity.
    + unfold reset_index_drop. simpl. rewrite cells_relabel. exact Hs2.
Qed.

End RankingData.

(** ** A sheet saved with its index *)

Section IndexedSheet.

Lemma remove_keeps_second (x : string) (l1 l2 : list string) :
  In x (l1 ++ l2) -> In x (remove x (l1 ++ x :: l2)).
Proof.
  induction l1 as [|h t IH]; simpl; intros H.
  - rewrite String.eqb_refl. exact H.
  - destruct (String.eqb x h) eqn:E.
    + apply in_or_app. right. left. reflexivity.
    + destruct H as [->|H]; [rewrite String.eqb_refl in E; discriminate|].
      right. apply IH. exact H.
Qed.

(** X2.  A sheet with an unnamed first column and a column of stock
    codes, both numeric, is loaded with both under the label of the
    stock codes, and the label stays among the numeric columns offered
    as metrics: [list.remove] takes out its first occurrence only. *)
Theorem identifier_stays_a_metric_of_an_indexed_sheet (sheet : DataFrame)
        (d d' : dtype) :
  In ("Unnamed: 0", d) (columns sheet) ->
  In (CODE, d') (columns sheet) ->
  Spec.is_numeric d = true -> Spec.is_numeric d' = true ->
  exists df,
    load_data sheet = Some df
    /\ columns df = map (fun cd => if String.eqb (fst cd) "Unnamed: 0"
                                   then (CODE, snd cd) else cd)
                        (columns sheet)
    /\ rows df = rows sheet
    /\ In CODE (numeric_columns df).
Proof.
  intros Hu Hc Nd Nd'. unfold load_data.
  assert (Mu : mem "Unnamed: 0" (names sheet) = true).
  { apply mem_In. unfold names. apply in_map_iff.
    exists ("Unnamed: 0", d). split; [reflexivity|exact Hu]. }
  rewrite Mu.
  set (f := fun cd : string * dtype =>
              if String.eqb (fst cd) "Unnamed: 0" then (CODE, snd cd)
              else cd).
  set (df := rename "Unnamed: 0" CODE sheet).
  assert (Cd : columns df = map f (columns sheet)) by reflexivity.
  set (p := fun cd : string * dtype =>
              existsb (dtype_eqb (snd cd)) [float64; int64]).
  assert (Np : forall x, Spec.is_numeric x = true -> p (CODE, x) = true)
    by (intros x; destruct x; simpl; intros H; try discriminate;
        reflexivity).
  assert (Sel : exists n1 n2,
             select_dtypes [float64; int64] df = n1 ++ CODE :: n2
             /\ In CODE (n1 ++ n2)).
  { destruct (in_split _ _ Hu) as (l1 & l2 & E).
    exists (map fst (filter p (map f l1))), (map fst (filter p (map f l2))).
    unfold select_dtypes. fold p. rewrite Cd, E, map_app. simpl map.
    rewrite filter_app. simpl filter.
    change (f ("Unnamed: 0", d)) with (CODE, d). rewrite (Np d Nd).
    rewrite map_app. split; [reflexivity|].
    rewrite <- map_app, <- filter_app, <- map_app.
    apply in_map_iff. exists (CODE, d'). split; [reflexivity|].
    apply filter_In. split; [|apply Np; exact Nd'].
    apply in_map_iff. exists (CODE, d'). split; [reflexivity|].
    rewrite E in Hc. apply in_app_or in Hc. apply in_or_app.
    destruct Hc as [Hc|[Hc|Hc]];
      [left; exact Hc|discriminate|right; exact Hc]. }
  destruct Sel as (n1 & n2 & Sel & Hin).
  assert (Mc : mem CODE (names df) = true).
  { apply mem_In. unfold names. rewrite Cd. apply in_map_iff.
    exists (CODE, d). split; [reflexivity|].
    apply in_map_iff. exists ("Unnamed: 0", d). split; [reflexivity|exact Hu]. }
  rewrite Mc. exists df. split; [reflexivity|]. split; [exact Cd|].
  split; [reflexivity|].
  unfold numeric_columns. cbv zeta. rewrite Sel.
  assert (M : mem CODE (n1 ++ CODE :: n2) = true)
    by (apply mem_In; apply in_or_app; right; left; reflexivity).
  rewrite M. apply remove_keeps_second. exact Hin.
Qed.

End IndexedSheet.

(** ** Examples of the properties above *)

Section MoreExamples.

Lemma identifier_stays_a_metric_of_an_indexed_sheet_witness :
  exists df,
    load_data indexed = Some df
    /\ columns df = map (fun cd => if String.eqb (fst cd) "Unnamed: 0"
                                   then (CODE, snd cd) else cd)
                        (columns indexed)
    /\ rows df = rows indexed
    /\ In CODE (numeric_columns df).
Proof.
  apply (identifier_stays_a_metric_of_an_indexed_sheet indexed int64 int64);
    [left; reflexivity|right; left; reflexivity|reflexivity|reflexivity].
Defined.

(** Where the first numeric column is the technology use and the total
    index is no column, both axes open on the technology use. *)
Lemma scatter_axes_open_on_one_metric_witness :
  "技术应用" = "技术应用" <->
  (mem "技术应用" ["技术应用"; "战略转型"] = false
   /\ nth_error ["技术应用"; "战略转型"] 1 = Some TOTAL)
  \/ (mem TOTAL ["技术应用"; "战略转型"] = false
      /\ nth_error ["技术应用"; "战略转型"] 0 = Some "技术应用").
Proof.
  apply (scatter_axes_open_on_one_metric ["技术应用"; "战略转型"]);
    [repeat constructor; simpl; intuition discriminate|reflexivity].
Defined.

Lemma lookup_shows_a_selection_of_the_rows_witness :
  exists p : row -> bool,
    Spec.kept companies (fun r => eq_int 300884 (at_ 0 r))
    = {| columns := columns companies;
         rows := filter p (rows companies) |}.
Proof.
  apply (lookup_shows_a_selection_of_the_rows
           companies " 300884 " by_code exact).
  reflexivity.
Defined.


Lemma exact_name_lookup_within_fuzzy_witness :
  exists md',
    query companies "abc" by_name fuzzy = matched md'
    /\ incl (rows (Spec.kept companies (fun r => eq_str "abc" (at_ 1 r))))
            (rows md').
Proof.
  apply (exact_name_lookup_within_fuzzy companies "abc" 1);
    reflexivity.
Defined.

Lemma radar_range_encloses_nonnegative_averages_witness :
  exists lo hi,
    min_val long_gains = Ok (Float lo)
    /\ max_val long_gains = Ok (Float hi)
    /\ forall v, In v [10; 20; 30]%Q -> (lo <= v)%Q /\ (v <= hi)%Q.
Proof.
  apply (radar_range_encloses_nonnegative_averages long_gains 2);
    [reflexivity|reflexivity|discriminate|].
  intros v [<-|[<-|[<-|[]]]]; discriminate.
Defined.

Lemma industry_counts_tallies_the_rows_witness :
  exists table groups,
    industry_counts companies "行业" = Ok table
    /\ names table = ["行业"; "企业数量"]
    /\ map cells (rows table)
       = map (fun gn => [Str (fst gn); Int (Z.of_nat (snd gn))]) groups
    /\ NoDup (map fst groups)
    /\ StronglySorted (fun gn gn' => snd gn' <= snd gn) groups
    /\ forall g n,
         In (g, n) groups
         <-> 0 < n
             /\ n = List.length (filter (in_group 2 g) (rows companies)).
Proof.
  exact (industry_counts_tallies_the_rows
           companies "行业" 2 companies_well_typed eq_refl eq_refl).
Defined.

Lemma companies_industry_text (col : string) (kb : nat) :
  industry_column companies = Some col ->
  position col (names companies) = Some kb ->
  dtype_at companies kb = object.
Proof.
  intros H1 H2. vm_compute in H1. injection H1 as <-.
  vm_compute in H2. injection H2 as <-. reflexivity.
Qed.

Lemma companies_code : In CODE (names companies).
Proof. left. reflexivity. Qed.

Lemma chart_function_returns_witness :
  exists shown,
    Page.plot_overall_interactive_chart companies opening
    = Ok (shown, Some (numeric_columns companies, industry_column companies))
    /\ (Page.fig_pie shown = None <-> industry_column companies = None)
    /\ (Page.ranking shown = None
        <-> numeric_columns companies = []
            \/ (industry_column companies <> None
                /\ Page.selected_metrics opening = []))
    /\ (Page.fig_radar shown = None
        <-> industry_column companies = None
            \/ numeric_columns companies = []
            \/ Page.selected_metrics opening = []).
Proof.
  apply (chart_function_returns
           companies companies_well_typed companies_labels_once
           companies_code opening companies_industry_text).
  - intros m Hm. exact Hm.
  - simpl. intuition discriminate.
  - intros _. left. reflexivity.
Defined.


Lemma priced_well_typed : well_typed priced.
Proof. repeat constructor. Qed.

Lemma priced_labels_once : NoDup (names priced).
Proof. repeat constructor; simpl; intuition discriminate. Qed.

Lemma company_charts_fail_on_a_value_column_witness :
  (In "值" (names priced) ->
   0 < List.length (rows priced) -> numeric_columns priced <> [] ->
   (@None string <> None /\ List.length (rows priced) <= 10)
   \/ (["值"] <> [] /\ In NAME (names priced)) ->
   Page.company_charts priced (numeric_columns priced) None ["值"]
   = Raise ValueError)
  /\ (~ In "值" (names priced) ->
      exists shown,
        Page.company_charts priced (numeric_columns priced) None ["值"]
        = Ok shown).
Proof.
  apply (company_charts_fail_on_a_value_column
           priced priced_well_typed priced_labels_once).
  - left. reflexivity.
  - intros m Hm. exact Hm.
Defined.

Lemma ranking_lists_the_leading_rows_witness :
  exists k rd rest,
    position "数字化转型总指数" (names companies) = Some k
    /\ ranking_data companies "数字化转型总指数" false 2 = Ok rd
    /\ columns rd = columns companies
    /\ Permutation (rows rd ++ rest) (rows companies)
    /\ List.length (rows rd) = Nat.min 2 (List.length (rows companies))
    /\ StronglySorted
         (fun r r' => Spec.in_ranking_order false (at_ k r) (at_ k r'))
         (rows rd)
    /\ forall r r', In r (rows rd) -> In r' rest ->
                    Spec.in_ranking_order false (at_ k r) (at_ k r').
Proof.
  apply (ranking_lists_the_leading_rows
           companies companies_well_typed companies_labels_once).
  left. reflexivity.
Defined.

Lemma ranking_table_shows_the_ranking_witness :
  exists rd table,
    ranking_data companies "数字化转型总指数" false 2 = Ok rd
    /\ ranking_table companies "数字化转型总指数" false 2 = Ok table
    /\ names table = [NAME; CODE; "数字化转型总指数"]
    /\ map label (rows table) = [0; 1]
    /\ map cells (rows table)
       = map (fun r => map (fun c => at_ (Spec.place c (names companies)) r)
                           (names table))
             (rows rd).
Proof.
  apply (ranking_table_shows_the_ranking
           companies companies_well_typed companies_labels_once
           companies_code).
  left. reflexivity.
Defined.

End MoreExamples.
